(** * Gmail_Fatch: the poll-and-extract engine and its mail gateway

    A shallow embedding of [utils/gmailHelpers.ts] (address normalizer,
    URL extractor, candidate filter and selector, poll loop) and of the
    search and per-message loop of [utils/gmailClient.ts].

    Strings are JavaScript strings: finite sequences of UTF-16 code
    units, here [list N].  Numbers that the code only uses as integers
    (epoch milliseconds, seconds, limits, UIDs) are [Z] or [N]. *)

From Stdlib Require Import List ZArith NArith Bool Lia Ascii String DecimalString.
From Stdlib Require Import Permutation Sorted.
Import ListNotations.

Set Implicit Arguments.

(* ================================================================== *)
(** * JavaScript strings *)

Module JS.

Definition jsstring := list N.

(** An ASCII literal as a JavaScript string. *)
Definition str (s : string) : jsstring :=
  map N_of_ascii (list_ascii_of_string s).

Definition eqb_str (a b : jsstring) : bool :=
  if list_eq_dec N.eq_dec a b then true else false.

(** Code units the code names. *)
Definition c_dquote : N := 34.
Definition c_squote : N := 39.
Definition c_rparen : N := 41.
Definition c_plus   : N := 43.
Definition c_comma  : N := 44.
Definition c_dot    : N := 46.
Definition c_semi   : N := 59.
Definition c_lt     : N := 60.
Definition c_gt     : N := 62.
Definition c_at     : N := 64.
Definition c_rbrack : N := 93.

(** [WhiteSpace] and [LineTerminator] of ECMAScript: what
    [String.prototype.trim] removes and what [\s] matches. *)
Definition is_space (c : N) : bool :=
  ((9 <=? c) && (c <=? 13) || (c =? 32) || (c =? 160) || (c =? 5760)
   || (8192 <=? c) && (c <=? 8202) || (c =? 8232) || (c =? 8233)
   || (c =? 8239) || (c =? 8287) || (c =? 12288) || (c =? 65279))%N.

(** [\w] without the [u] flag: [A-Za-z0-9_]. *)
Definition is_word (c : N) : bool :=
  ((65 <=? c) && (c <=? 90) || (97 <=? c) && (c <=? 122)
   || (48 <=? c) && (c <=? 57) || (c =? 95))%N.

(** [String.prototype.toLowerCase], on the Basic Latin block: [A-Z] go
    to [a-z]; every other code unit is left as it is. *)
Definition lower_cu (c : N) : N :=
  if ((65 <=? c) && (c <=? 90))%N then (c + 32)%N else c.

Definition toLowerCase (s : jsstring) : jsstring := map lower_cu s.

Fixpoint dropWhile (p : N -> bool) (s : jsstring) : jsstring :=
  match s with
  | [] => []
  | c :: s' => if p c then dropWhile p s' else s
  end.

Fixpoint takeWhile (p : N -> bool) (s : jsstring) : jsstring :=
  match s with
  | [] => []
  | c :: s' => if p c then c :: takeWhile p s' else []
  end.

Definition dropWhileEnd (p : N -> bool) (s : jsstring) : jsstring :=
  rev (dropWhile p (rev s)).

(** [String.prototype.trim]. *)
Definition trim (s : jsstring) : jsstring :=
  dropWhileEnd is_space (dropWhile is_space s).

(** [s.startsWith(p)] as a test on the remaining input. *)
Fixpoint prefixb (p s : jsstring) : bool :=
  match p, s with
  | [], _ => true
  | _ :: _, [] => false
  | a :: p', b :: s' => (a =? b)%N && prefixb p' s'
  end.

(** [s.includes(needle)]: [needle] occurs in [s] as a substring. *)
Fixpoint includes (s needle : jsstring) : bool :=
  prefixb needle s ||
  match s with
  | [] => false
  | _ :: s' => includes s' needle
  end.

(** [s.split(sep)] for a one-code-unit separator: never empty, one more
    piece than there are separators. *)
Fixpoint split (sep : N) (s : jsstring) : list jsstring :=
  match s with
  | [] => [[]]
  | c :: s' =>
      if (c =? sep)%N then [] :: split sep s'
      else match split sep s' with
           | piece :: rest => (c :: piece) :: rest
           | [] => [[c]]
           end
  end.

(** [s.split(/[,\s]+/)]: the pieces between maximal runs of separators;
    a leading or trailing run leaves an empty first or last piece.
    [inrun] says the previous code unit was a separator, [cur] holds the
    current piece in reverse. *)
Fixpoint splitRuns (p : N -> bool) (inrun : bool) (cur s : jsstring)
  : list jsstring :=
  match s with
  | [] => [rev cur]
  | c :: s' =>
      if p c then
        if inrun then splitRuns p true cur s'
        else rev cur :: splitRuns p true [] s'
      else splitRuns p false (c :: cur) s'
  end.

(** Template-literal rendering of an integer, [`${n}`]. *)
Definition showZ (n : Z) : jsstring :=
  str (NilZero.string_of_int (Z.to_int n)).

(** JavaScript truthiness of a string that may be [undefined]. *)
Definition truthy (s : option jsstring) : bool :=
  match s with
  | Some (_ :: _) => true
  | _ => false
  end.

(** [x ?? s] with [s] the empty string. *)
Definition orEmpty (s : option jsstring) : jsstring :=
  match s with Some x => x | None => [] end.

(** A string in lower case: [toLowerCase] changes no code unit. *)
Definition lowered (s : jsstring) : Prop :=
  Forall (fun c => lower_cu c = c) s.

(** The first code unit, if any, fails [p]. *)
Definition headFails (p : N -> bool) (s : jsstring) : Prop :=
  match s with [] => True | c :: _ => p c = false end.

(** Any code unit but [sep]. *)
Definition isnt (sep c : N) : bool := negb (c =? sep)%N.

End JS.
Import JS.

Local Open Scope Z_scope.

(* ================================================================== *)
(** * utils/gmailHelpers.ts: normalizeGmail *)

Definition gmail_com : jsstring := str "gmail.com".
Definition googlemail_com : jsstring := str "googlemail.com".

(** [normalizeGmail], lines 5-13.  The destructuring
    [[local, domain] = lower.split("@")] keeps the first two pieces and
    drops any further ones. *)
Definition normalizeGmail (addr : jsstring) : jsstring :=
  let lower := toLowerCase (trim addr) in
  if negb (includes lower [c_at]) then lower
  else
    match split c_at lower with
    | local :: domain :: _ =>
        if eqb_str domain gmail_com || eqb_str domain googlemail_com
        then hd [] (split c_plus local) ++ [c_at] ++ domain
        else lower
    | _ => lower
    end.

(* ================================================================== *)
(** * utils/gmailHelpers.ts: extractLinks *)

(** The negated class of the URL pattern: anything but white space,
    the two angle brackets, the straight double and single quote and
    the closing parenthesis. *)
Definition url_char (c : N) : bool :=
  negb (is_space c || (c =? c_lt)%N || (c =? c_gt)%N || (c =? c_dquote)%N
        || (c =? c_squote)%N || (c =? c_rparen)%N).

(** The class of the trailing-character pattern: closing parenthesis,
    comma, period, semicolon, closing bracket, closing angle bracket,
    straight double quote, straight single quote. *)
Definition is_trail (c : N) : bool :=
  ((c =? c_rparen) || (c =? c_comma) || (c =? c_dot) || (c =? c_semi)
   || (c =? c_rbrack) || (c =? c_gt) || (c =? c_dquote) || (c =? c_squote))%N.

(** A pattern letter under the [i] flag: the code unit or its other
    case (without the [u] flag no code unit above 127 folds to ASCII). *)
Definition ci (letter c : N) : bool := (lower_cu c =? letter)%N.

(** [\b] at a position: exactly one of the code units around it is a
    word character; outside the input counts as a non-word character. *)
Definition wordBoundary (prev : option N) (s : jsstring) : bool :=
  xorb (match prev with Some c => is_word c | None => false end)
       (match s with c :: _ => is_word c | [] => false end).

(** The pattern after the scheme, a colon, two slashes and one or more
    [url_char], on the remaining input: the matched text. *)
Definition matchRest (r : jsstring) : option jsstring :=
  match r with
  | c1 :: c2 :: c3 :: body =>
      if ((c1 =? 58) && (c2 =? 47) && (c3 =? 47))%N then
        match takeWhile url_char body with
        | [] => None
        | run => Some (c1 :: c2 :: c3 :: run)
        end
      else None
  | _ => None
  end.

(** One attempt of the URL pattern (word boundary, [https?] under the
    [i] flag, then [matchRest]) at the start of [s], [prev] being the
    code unit before it: the matched text.  [s?] is greedy and
    backtracks to the empty alternative. *)
Definition matchAt (prev : option N) (s : jsstring) : option jsstring :=
  if wordBoundary prev s then
    match s with
    | h :: t1 :: t2 :: p :: r =>
        if (ci 104 h && ci 116 t1 && ci 116 t2 && ci 112 p)%N then
          let plain := option_map (app [h; t1; t2; p]) (matchRest r) in
          match r with
          | c :: r' =>
              if ci 115%N c then
                match matchRest r' with
                | Some m => Some (h :: t1 :: t2 :: p :: c :: m)
                | None => plain
                end
              else plain
          | [] => plain
          end
        else None
    | _ => None
    end
  else None.

(** The [while ((m = re.exec(src)) !== null)] loop of a global pattern:
    the matches left to right.  [skip] is the distance from the current
    position to [re.lastIndex]: positions inside the previous match are
    passed over. *)
Fixpoint execAll (skip : nat) (prev : option N) (s : jsstring)
  : list jsstring :=
  match s with
  | [] => []
  | c :: s' =>
      match skip with
      | S k => execAll k (Some c) s'
      | O%nat =>
          match matchAt prev s with
          | Some m => m :: execAll (List.length m - 1)%nat (Some c) s'
          | None => execAll 0 (Some c) s'
          end
      end
  end.

(** The [replace] of line 21: the longest run of [is_trail] code units
    at the end of the match is removed. *)
Definition stripTrailing (m : jsstring) : jsstring :=
  dropWhileEnd is_trail m.

(** [Set.prototype.add] on a set kept in insertion order. *)
Definition setAdd (urls : list jsstring) (u : jsstring) : list jsstring :=
  if existsb (eqb_str u) urls then urls else urls ++ [u].

(** [extractLinks], lines 16-24. *)
Definition extractLinks (src : jsstring) : list jsstring :=
  fold_left (fun urls m => setAdd urls (stripTrailing m))
            (execAll 0 None src) [].

(* ================================================================== *)
(** * Messages *)

(** [EmailLite] as the engine reads it.  The engine takes the gateway's
    answer as [any[]] and also reads [internalDateMs], a field that
    [fetchEmails] never sets.  [date] is the epoch time of the [Date]
    object.  [snippet] and [attachments] are not read by the engine and
    left out. *)
Record Email := mkEmail {
  uid : N;
  internalDateMs : option Z;
  date : option Z;
  from : option jsstring;
  to : option jsstring;
  toAddresses : option (list jsstring);
  subject : option jsstring;
  text : option jsstring;
  htmlAsText : option jsstring
}.

(* ================================================================== *)
(** * utils/gmailHelpers.ts: candidate filter and selector *)

(** The separator class [[,\s]] of [e.to.split(/[,\s]+/)]. *)
Definition is_addr_sep (c : N) : bool := (c =? c_comma)%N || is_space c.

(** [toAddrs], lines 67-70: the parsed addresses when there are any,
    else the pieces of the raw header. *)
Definition toAddrs (e : Email) : list jsstring :=
  match toAddresses e with
  | Some (a :: l) => a :: l
  | _ => match to e with
         | Some t => splitRuns is_addr_sep false [] t
         | None => []
         end
  end.

(** The [filter] callback, lines 64-79. *)
Definition qualifies (targetRecipient subjectNeedle : jsstring) (e : Email)
  : bool :=
  let subjectOk := includes (toLowerCase (orEmpty (subject e))) subjectNeedle in
  let allAddrs := map normalizeGmail (toAddrs e) in
  let toOk :=
    existsb (eqb_str targetRecipient) allAddrs
    || includes (toLowerCase (orEmpty (to e))) targetRecipient in
  subjectOk && toOk.

(** The [sort] callback, lines 83-90. *)
Definition byReceived (a b : Email) : Z :=
  let ai := match internalDateMs a with Some n => n | None => 0 end in
  let bi := match internalDateMs b with Some n => n | None => 0 end in
  if negb (bi =? ai) then bi - ai
  else
    let ad := match date a with Some d => d | None => 0 end in
    let bd := match date b with Some d => d | None => 0 end in
    bd - ad.

(** [Array.prototype.sort] with a comparator: a stable sort, [a] stays
    before [b] unless the comparator is positive on them.  With a
    consistent comparator the result is the same for every stable
    sorting algorithm; this is insertion, last element first. *)
Fixpoint insertBy (cmp : Email -> Email -> Z) (x : Email) (l : list Email)
  : list Email :=
  match l with
  | [] => [x]
  | y :: l' => if cmp x y <=? 0 then x :: l else y :: insertBy cmp x l'
  end.

Definition sortBy (cmp : Email -> Email -> Z) (l : list Email) : list Email :=
  fold_right (insertBy cmp) [] l.

(** [[...candidates].sort(...)[0]], [undefined] on no candidates. *)
Definition latestOf (candidates : list Email) : option Email :=
  hd_error (sortBy byReceived candidates).

(** The body of the chosen message, lines 92-95. *)
Definition pickBody (latest : Email) : jsstring :=
  if truthy (htmlAsText latest) then orEmpty (htmlAsText latest)
  else if truthy (text latest) then orEmpty (text latest)
  else [].

(** One pass of the loop body on a gateway answer, lines 64-101: the URL
    to return, or [None] to go on to the wait. *)
Definition pollCycle (targetRecipient subjectNeedle urlNeedle : jsstring)
    (emails : list Email) : option jsstring :=
  let candidates := filter (qualifies targetRecipient subjectNeedle) emails in
  match candidates with
  | [] => None
  | _ :: _ =>
      match latestOf candidates with
      | Some latest =>
          let links := extractLinks (pickBody latest) in
          match find (fun u => includes (toLowerCase u) urlNeedle) links with
          | Some m => if truthy (Some m) then Some m else None
          | None => None
          end
      | None => None
      end
  end.

(* ================================================================== *)
(** * utils/gmailClient.ts: fetchEmails *)

Module GmailClient.

(** [EmailFilter]; an absent field is [None]. *)
Record EmailFilter := mkFilter {
  mailbox : option jsstring;
  unreadOnly : option bool;
  fromContains : option jsstring;
  subjectContains : option jsstring;
  bodyIncludes : option jsstring;
  sinceMs : option Z;
  limit : option Z;
  includeAttachments : option bool;
  markSeen : option bool;
  sortNewestFirst : option bool
}.

(** The search object handed to [client.search]: [seen] and [since],
    each present or not. *)
Record SearchQuery := mkQuery {
  seen : option bool;
  since : option Z
}.

(** What [client.download(uid, ...)] does: throws, answers without
    content, or answers with the raw message. *)
Inductive Download :=
| DownloadThrows
| NoContent
| Content (raw : list N).

(** The fields of mailparser's result that [fetchEmails] reads:
    [from?.text], [subject], [text], [htmlAsText], [to?.text],
    [to?.value] with the [address] of each entry, [date]. *)
Record Parsed := mkParsed {
  p_from : option jsstring;
  p_subject : option jsstring;
  p_text : option jsstring;
  p_htmlAsText : option jsstring;
  p_to_text : option jsstring;
  p_to_value : option (list (option jsstring));
  p_date : option Z
}.

(** The remote store and the parser during one call: whether
    [connect] succeeds, the mailbox paths of [client.list], the answer
    of [client.search] ([None] when it is not an array), the answer of
    [client.download], and [simpleParser] ([None] when it throws). *)
Record Imap := mkImap {
  connects : bool;
  paths : list jsstring;
  search : SearchQuery -> option (list N);
  download : N -> Download;
  simpleParser : list N -> option Parsed
}.

Inductive GatewayError :=
| ConnectFailed
| MailboxMissing (name : jsstring).

Inductive Fetched :=
| Emails (emails : list Email)
| Failed (err : GatewayError).

(** [Array.isArray(x) ? x : []]. *)
Definition asArray (r : option (list N)) : list N :=
  match r with Some l => l | None => [] end.

Definition isEmpty (l : list N) : bool :=
  match l with [] => true | _ :: _ => false end.

(** Truthiness of a [Date] that may be [undefined]. *)
Definition isDate (d : option Z) : bool :=
  match d with Some _ => true | None => false end.

(** The three search attempts, lines 170-211 of the client: the UIDs
    kept, and the queries sent in order.  [if (sinceMs)] takes an
    absent and a zero [sinceMs] alike as no window. *)
Definition searchUids (w : Imap) (now : Z) (unread : bool)
    (sinceMs : option Z) : list N * list SearchQuery :=
  let seenField := if unread then Some false else None in
  let sinceDate :=
    match sinceMs with
    | Some ms => if ms =? 0 then None else Some (now - ms)
    | None => None
    end in
  let q1 := mkQuery seenField sinceDate in
  let uids1 := asArray (search w q1) in
  let '(uids2, log2) :=
    if isEmpty uids1 && isDate sinceDate then
      let q2 := mkQuery seenField None in
      let retryArr := asArray (search w q2) in
      (if negb (isEmpty retryArr) then retryArr else uids1, [q1; q2])
    else (uids1, [q1]) in
  if isEmpty uids2 && unread then
    let q3 := mkQuery None None in
    let retryAllArr := asArray (search w q3) in
    (if negb (isEmpty retryAllArr) then retryAllArr else uids2, log2 ++ [q3])
  else (uids2, log2).

(** [arr.slice(0, n)]: a negative [n] counts from the end. *)
Definition slice0 (n : Z) (l : list N) : list N :=
  let len := Z.of_nat (List.length l) in
  firstn (Z.to_nat (if n <? 0 then Z.max (len + n) 0 else Z.min n len)) l.

(** The outcome of the [try] block for one UID: an exception (caught
    and logged by the [catch]), a [continue], or a pushed result. *)
Inductive Step :=
| Throws
| Skips
| Pushes (e : Email).

Definition passes (needle : option jsstring) (hay : jsstring) : bool :=
  if truthy needle then includes (toLowerCase hay) (toLowerCase (orEmpty needle))
  else true.

(** The body of the [for] loop, lines 223-287.  [messageFlagsAdd] sits
    in a [try] of its own and does not change the results; it is left
    out, as are [snippet] and [attachments]. *)
Definition processMessage (w : Imap) (f : EmailFilter) (uid : N) : Step :=
  match download w uid with
  | DownloadThrows => Throws
  | NoContent => Skips
  | Content raw =>
      match simpleParser w raw with
      | None => Throws
      | Some parsed =>
          let fromText := orEmpty (p_from parsed) in
          let subject := orEmpty (p_subject parsed) in
          let bodyText :=
            match p_text parsed with
            | Some t => t
            | None => orEmpty (p_htmlAsText parsed)
            end in
          let toText := orEmpty (p_to_text parsed) in
          let toAddresses :=
            match p_to_value parsed with
            | Some vs =>
                filter (fun a => truthy (Some a))
                       (map (fun v => trim (orEmpty v)) vs)
            | None => []
            end in
          if negb (passes (fromContains f) fromText
                   && passes (subjectContains f) subject
                   && passes (bodyIncludes f) bodyText)
          then Skips
          else Pushes (mkEmail uid None (p_date parsed) (Some fromText)
                         (Some toText) (Some toAddresses) (Some subject)
                         (p_text parsed) (p_htmlAsText parsed))
      end
  end.

(** The [for (const uid of ordered)] loop with its [try]/[catch] and
    the [break] once [limit] results are in. *)
Fixpoint collect (w : Imap) (f : EmailFilter) (lim : Z)
    (results : list Email) (ordered : list N) : list Email :=
  match ordered with
  | [] => results
  | uid :: rest =>
      match processMessage w f uid with
      | Throws => collect w f lim results rest
      | Skips => collect w f lim results rest
      | Pushes e =>
          let results' := results ++ [e] in
          if Z.of_nat (List.length results') >=? lim then results'
          else collect w f lim results' rest
      end
  end.

Definition INBOX : jsstring := str "INBOX".

(** [fetchEmails], lines 134-298 of the client: the answer, and the
    search queries it sent.  [now] is [Date.now()] at line 176. *)
Definition fetchEmails (w : Imap) (now : Z) (f : EmailFilter)
  : Fetched * list SearchQuery :=
  let mailbox := match mailbox f with Some m => m | None => INBOX end in
  let unread := match unreadOnly f with Some b => b | None => false end in
  let lim := match limit f with Some n => n | None => 20 end in
  let newestFirst := match sortNewestFirst f with Some b => b | None => true end in
  if negb (connects w) then (Failed ConnectFailed, [])
  else if negb (existsb (eqb_str mailbox) (paths w))
  then (Failed (MailboxMissing mailbox), [])
  else
    let '(uidsArr, log) := searchUids w now unread (sinceMs f) in
    let ordered :=
      slice0 (Z.max (lim * 3) lim)
             (if newestFirst then rev uidsArr else uidsArr) in
    (Emails (collect w f lim [] ordered), log).

End GmailClient.

(* ================================================================== *)
(** * utils/gmailHelpers.ts: waitAndExtractUrlByRecipient *)

(** [WaitOptions]; an absent field is [None]. *)
Record WaitOptions := mkOptions {
  sinceMs : option Z;
  unreadOnly : option bool;
  limit : option Z;
  mailbox : option jsstring
}.

(** The arguments of a call; [None] is an omitted argument. *)
Record PollRequest := mkRequest {
  recipientEmail : jsstring;
  subjectKeyword : jsstring;
  urlKeyword : jsstring;
  timeoutSecondsArg : option Z;
  pollIntervalMsArg : option Z;
  options : option WaitOptions
}.

Definition timeoutSeconds (rq : PollRequest) : Z :=
  match timeoutSecondsArg rq with Some n => n | None => 60 end.

Definition pollIntervalMs (rq : PollRequest) : Z :=
  match pollIntervalMsArg rq with Some n => n | None => 3000 end.

Definition optionOf (A : Type) (get : WaitOptions -> option A) (dflt : A)
    (rq : PollRequest) : A :=
  match options rq with
  | Some o => match get o with Some x => x | None => dflt end
  | None => dflt
  end.

(** The filter of every [fetchEmails] call, lines 55-62. *)
Definition filterOf (rq : PollRequest) : GmailClient.EmailFilter :=
  GmailClient.mkFilter
    (Some (optionOf mailbox GmailClient.INBOX rq))
    (Some (optionOf unreadOnly false rq))
    None
    (Some (subjectKeyword rq))
    None
    (Some (optionOf sinceMs (24 * 60 * 60 * 1000) rq))
    (Some (optionOf limit 100 rq))
    None
    None
    (Some true).

(** The message of the [Error] thrown at lines 106-108. *)
Definition timeoutMessage (rq : PollRequest) : jsstring :=
  str "Timed out after " ++ showZ (timeoutSeconds rq)
  ++ str "s: no URL containing " ++ [c_dquote] ++ urlKeyword rq ++ [c_dquote]
  ++ str " found for " ++ [c_dquote] ++ recipientEmail rq ++ [c_dquote]
  ++ str " with subject containing " ++ [c_dquote] ++ subjectKeyword rq
  ++ [c_dquote] ++ str ".".

(** What the caller of the engine observes from outside. *)
Inductive Event :=
| FetchEmails (f : GmailClient.EmailFilter)
| Wait (ms : Z).

Inductive Thrown :=
| TimeoutError (message : jsstring)
| Gateway (err : GmailClient.GatewayError).

(** How a call ends: the promise resolves with a URL, rejects, or the
    scripted environment ends before the call does. *)
Inductive Outcome :=
| Resolved (url : jsstring)
| Rejected (err : Thrown)
| Unfinished.

(** The [while (Date.now() < deadline)] loop, lines 54-104.  The
    environment is scripted: [clock] holds the successive values of
    [Date.now()] and [replies] the successive answers of
    [fetchEmails].  The loop reads one clock value per turn. *)
Fixpoint pollLoop (rq : PollRequest) (deadline : Z) (clock : list Z)
    (replies : list GmailClient.Fetched) (trace : list Event)
  : Outcome * list Event :=
  match clock with
  | [] => (Unfinished, trace)
  | now :: clock' =>
      if now <? deadline then
        let trace1 := trace ++ [FetchEmails (filterOf rq)] in
        match replies with
        | [] => (Unfinished, trace1)
        | GmailClient.Failed err :: _ => (Rejected (Gateway err), trace1)
        | GmailClient.Emails emails :: replies' =>
            match pollCycle (normalizeGmail (recipientEmail rq))
                            (toLowerCase (subjectKeyword rq))
                            (toLowerCase (urlKeyword rq)) emails with
            | Some url => (Resolved url, trace1)
            | None =>
                pollLoop rq deadline clock' replies'
                         (trace1 ++ [Wait (pollIntervalMs rq)])
            end
        end
      else (Rejected (TimeoutError (timeoutMessage rq)), trace)
  end.

(** [waitAndExtractUrlByRecipient], lines 36-108: the first clock value
    fixes the deadline. *)
Definition waitAndExtractUrlByRecipient (rq : PollRequest) (clock : list Z)
    (replies : list GmailClient.Fetched) : Outcome * list Event :=
  match clock with
  | [] => (Unfinished, [])
  | start :: clock' =>
      pollLoop rq (start + timeoutSeconds rq * 1000) clock' replies []
  end.

(* ================================================================== *)
(** * Notions the statements use *)

(** A list with every element kept at its first place only. *)
Fixpoint firstOccurrences (l : list jsstring) : list jsstring :=
  match l with
  | [] => []
  | x :: t => x :: filter (fun y => negb (eqb_str x y)) (firstOccurrences t)
  end.

(** A URL token: the scheme http or https in any case, a colon, two
    slashes, and one or more code units of the URL class. *)
Definition isUrlToken (m : jsstring) : Prop :=
  exists scheme body,
    m = scheme ++ str "://" ++ body
    /\ (toLowerCase scheme = str "http" \/ toLowerCase scheme = str "https")
    /\ body <> []
    /\ Forall (fun c => url_char c = true) body.

(** The last code unit, if any, fails [p]. *)
Definition lastFails (p : N -> bool) (s : jsstring) : Prop :=
  headFails p (rev s).

(** The recipient address list of a summary on its own, without the
    header fallback: empty when the message has none. *)
Definition recipientAddresses (e : Email) : list jsstring :=
  match toAddresses e with Some l => l | None => [] end.

(** The two sort keys of a message: [internalDateMs] and the time of
    [date], each zero when absent. *)
Definition primaryKey (e : Email) : Z :=
  match internalDateMs e with Some n => n | None => 0 end.

Definition secondaryKey (e : Email) : Z :=
  match date e with Some d => d | None => 0 end.

(** [x] comes strictly below [m] in the order on the pair of keys. *)
Definition ranksBelow (x m : Email) : Prop :=
  primaryKey x < primaryKey m
  \/ (primaryKey x = primaryKey m /\ secondaryKey x < secondaryKey m).

(** [x] comes below [m] or has the same pair of keys. *)
Definition ranksAtMost (x m : Email) : Prop :=
  ranksBelow x m
  \/ (primaryKey x = primaryKey m /\ secondaryKey x = secondaryKey m).

(** [x] has the same pair of keys as [k]. *)
Definition sameRank (k x : Email) : bool :=
  (primaryKey x =? primaryKey k) && (secondaryKey x =? secondaryKey k).

(** The effective timestamp in the words of the specification:
    [internalDateMs] if present and nonzero, else the time of [date],
    else zero. *)
Definition effectiveTimestamp (e : Email) : Z :=
  match internalDateMs e with
  | Some n => if n =? 0 then secondaryKey e else n
  | None => secondaryKey e
  end.

(** The needles and the target that the engine computes once on
    entry, lines 50-52, applied to one gateway answer. *)
Definition cycleOf (rq : PollRequest) (emails : list Email)
  : option jsstring :=
  pollCycle (normalizeGmail (recipientEmail rq))
            (toLowerCase (subjectKeyword rq))
            (toLowerCase (urlKeyword rq)) emails.

(** A gateway answer on which the loop body finds nothing to return. *)
Definition quietReply (rq : PollRequest) (r : GmailClient.Fetched) : Prop :=
  exists emails, r = GmailClient.Emails emails /\ cycleOf rq emails = None.

(** What one unsuccessful turn of the loop does to the outside. *)
Definition turnEvents (rq : PollRequest) : list Event :=
  [FetchEmails (filterOf rq); Wait (pollIntervalMs rq)].

(** Whether the [try] block of the gateway loop throws on a UID. *)
Definition throwsOn (w : GmailClient.Imap) (f : GmailClient.EmailFilter)
    (uid : N) : bool :=
  match GmailClient.processMessage w f uid with
  | GmailClient.Throws => true
  | _ => false
  end.

(** The results that the UIDs of a list give when processed, in order. *)
Definition pushedBy (w : GmailClient.Imap) (f : GmailClient.EmailFilter)
    (ordered : list N) : list Email :=
  flat_map (fun uid => match GmailClient.processMessage w f uid with
                       | GmailClient.Pushes e => [e]
                       | _ => []
                       end) ordered.

(** The three queries of the gateway: as requested, without the time
    window, and without any constraint. *)
Definition seenField (unread : bool) : option bool :=
  if unread then Some false else None.

Definition asRequested (now : Z) (unread : bool) (ms : Z)
  : GmailClient.SearchQuery :=
  GmailClient.mkQuery (seenField unread) (Some (now - ms)).

Definition withoutWindow (unread : bool) : GmailClient.SearchQuery :=
  GmailClient.mkQuery (seenField unread) None.

Definition unconstrained : GmailClient.SearchQuery :=
  GmailClient.mkQuery None None.

(* ================================================================== *)
(** * utils/gmailClient.ts: the helpers around the session *)

(** [s.replace(/[class]+/g, rep)] for a class [p]: every maximal run of
    [p] code units becomes one [rep].  [inrun] says the previous code
    unit belonged to a run. *)
Fixpoint replaceRuns (p : N -> bool) (rep : jsstring) (inrun : bool)
    (s : jsstring) : jsstring :=
  match s with
  | [] => []
  | c :: s' =>
      if p c then
        if inrun then replaceRuns p rep true s'
        else rep ++ replaceRuns p rep true s'
      else c :: replaceRuns p rep false s'
  end.

(** [normalizeAppPassword], lines 84-86 of the client, and the same
    expression at line 11 of the self test. *)
Definition normalizeAppPassword (p : jsstring) : jsstring :=
  replaceRuns is_space [] false p.

(** The [snippet] field, line 283 of the client: runs of white space
    become one space, the ends are trimmed, 200 code units are kept. *)
Definition snippetOf (bodyText : jsstring) : jsstring :=
  firstn 200 (trim (replaceRuns is_space [32%N] false bodyText)).

(** [Array.prototype.join]. *)
Fixpoint join (sep : jsstring) (l : list jsstring) : jsstring :=
  match l with
  | [] => []
  | x :: rest =>
      match rest with
      | [] => x
      | _ :: _ => x ++ sep ++ join sep rest
      end
  end.

Definition GMAIL_USER : jsstring := str "GMAIL_USER".
Definition GMAIL_PASS : jsstring := str "GMAIL_PASS".

(** [assertEnv], lines 73-81 of the client, on [process.env] as a
    function of the variable name: [None] when it returns, the message
    of the [Error] when it throws. *)
Definition assertEnv (env : jsstring -> option jsstring) : option jsstring :=
  let miss := filter (fun k => negb (truthy (env k))) [GMAIL_USER; GMAIL_PASS] in
  match miss with
  | [] => None
  | _ :: _ =>
      Some (str "Missing env: " ++ join (str ", ") miss ++ str "." ++ [10%N]
            ++ str "Enable IMAP in Gmail and use a Google App Password (not your normal password).")
  end.

(* ================================================================== *)
(** * More notions the statements use *)

(** The matches of a scan laid out on the scanned text: in order,
    apart from each other, each a URL token that ends where the text
    ends or a code unit outside the URL class follows. *)
Inductive Tiled : jsstring -> list jsstring -> Prop :=
| TiledEnd (s : jsstring) : Tiled s []
| TiledSkip (c : N) (s : jsstring) (ms : list jsstring) :
    Tiled s ms -> Tiled (c :: s) ms
| TiledMatch (m rest : jsstring) (ms : list jsstring) :
    isUrlToken m -> headFails url_char rest -> Tiled rest ms ->
    Tiled (m ++ rest) (m :: ms).

(** No two neighbours are both white space. *)
Fixpoint singleSpaced (s : jsstring) : Prop :=
  match s with
  | [] => True
  | a :: t =>
      match t with
      | [] => True
      | b :: _ => is_space a && is_space b = false
      end /\ singleSpaced t
  end.

(** The gateway calls in a trace. *)
Definition isFetch (ev : Event) : bool :=
  match ev with FetchEmails _ => true | Wait _ => false end.

(** Whether a UID yields a result. *)
Definition pushesOn (w : GmailClient.Imap) (f : GmailClient.EmailFilter)
    (uid : N) : bool :=
  match GmailClient.processMessage w f uid with
  | GmailClient.Pushes _ => true
  | _ => false
  end.

(** Whether a search finds something. *)
Definition finds (w : GmailClient.Imap) (q : GmailClient.SearchQuery) : bool :=
  negb (GmailClient.isEmpty (GmailClient.asArray (GmailClient.search w q))).

(** The filter fields of a call with their defaults, lines 135-146 of
    the client. *)
Definition mailboxOf (f : GmailClient.EmailFilter) : jsstring :=
  match GmailClient.mailbox f with Some m => m | None => GmailClient.INBOX end.

Definition unreadOf (f : GmailClient.EmailFilter) : bool :=
  match GmailClient.unreadOnly f with Some b => b | None => false end.

Definition limitOf (f : GmailClient.EmailFilter) : Z :=
  match GmailClient.limit f with Some n => n | None => 20 end.

Definition newestFirstOf (f : GmailClient.EmailFilter) : bool :=
  match GmailClient.sortNewestFirst f with Some b => b | None => true end.

(** The UIDs of a call in the order they are taken up, before the cut
    of line 216. *)
Definition uidOrder (w : GmailClient.Imap) (now : Z)
    (f : GmailClient.EmailFilter) : list N :=
  let uids := fst (GmailClient.searchUids w now (unreadOf f)
                     (GmailClient.sinceMs f)) in
  if newestFirstOf f then rev uids else uids.

(** What a result of the gateway looks like: it carries its UID and
    no [internalDateMs]; subject, sender and raw recipient header are
    strings that passed the filter of the call, as did the body; the
    recipient addresses are trimmed and not empty. *)
Definition wellFormedResult (f : GmailClient.EmailFilter) (u : N) (e : Email)
  : Prop :=
  uid e = u
  /\ internalDateMs e = None
  /\ (exists s, subject e = Some s
                /\ GmailClient.passes (GmailClient.subjectContains f) s = true)
  /\ (exists fr, from e = Some fr
                 /\ GmailClient.passes (GmailClient.fromContains f) fr = true)
  /\ (exists t, to e = Some t)
  /\ GmailClient.passes (GmailClient.bodyIncludes f)
        (match text e with
         | Some t => t
         | None => orEmpty (htmlAsText e)
         end) = true
  /\ (exists l, toAddresses e = Some l
                /\ Forall (fun a => a <> [] /\ trim a = a) l).

(* ================================================================== *)
(** * The built-in lowercasing as a parameter *)

(** [normalizeGmail], lines 5-13, over any lowercasing [lower] in the
    place of [String.prototype.toLowerCase].  [normalizeGmail] above is
    this function at the Basic Latin map. *)
Definition normalizeGmailWith (lower : jsstring -> jsstring)
    (addr : jsstring) : jsstring :=
  let low := lower (trim addr) in
  if negb (includes low [c_at]) then low
  else
    match split c_at low with
    | local :: domain :: _ =>
        if eqb_str domain gmail_com || eqb_str domain googlemail_com
        then hd [] (split c_plus local) ++ [c_at] ++ domain
        else low
    | _ => low
    end.

(** What the normalizer needs of [String.prototype.toLowerCase], on
    strings of any code units: lowercasing twice is lowercasing once;
    it commutes with [trim] (white space has no case and no letter
    lowers to white space); it works on the two sides of a plus sign
    or an at sign apart (neither is a letter nor ignorable for the
    context of a final sigma); it makes and removes no plus sign and
    no at sign; and on Basic Latin text it is the Basic Latin map. *)
Record Lowering (lower : jsstring -> jsstring) : Prop := mkLowering {
  lowering_idem : forall s, lower (lower s) = lower s;
  lowering_trim : forall s, lower (trim s) = trim (lower s);
  lowering_cut : forall x c y,
      c = c_plus \/ c = c_at ->
      lower (x ++ c :: y) = lower x ++ c :: lower y;
  lowering_marks : forall c s,
      c = c_plus \/ c = c_at -> In c (lower s) -> In c s;
  lowering_ascii : forall s,
      Forall (fun c => (c < 128)%N) s -> lower s = toLowerCase s
}.

(** The domain of an address in the words of the specification: the
    address is split at its first at sign into local part and domain,
    so the domain is all that follows the first at sign. *)
Definition domainAfterFirstAt (s : jsstring) : jsstring :=
  tl (dropWhile (isnt c_at) s).

(* ================================================================== *)
(** * The URL pattern, said without the scanner *)

(** The pattern of line 18 matches [m] at the start of [s], [prev]
    being the code unit before it: the position is a word boundary
    (the match begins with a letter, so what is before it is no word
    character), [m] is a URL token, and [m] is as long as it can be:
    [s] ends after it or goes on with a code unit outside the URL
    class. *)
Definition IsUrlMatch (prev : option N) (s m : jsstring) : Prop :=
  match prev with Some c => is_word c = false | None => True end
  /\ isUrlToken m
  /\ exists rest, s = m ++ rest /\ headFails url_char rest.

(** The last code unit of a string. *)
Definition lastUnit (m : jsstring) : option N := hd_error (rev m).

(** The matches a global pattern finds, left to right: at each
    position either nothing matches and the scan moves on by one code
    unit, or the match there is taken and the scan goes on after it. *)
Inductive Scanned : option N -> jsstring -> list jsstring -> Prop :=
| ScannedEnd (prev : option N) : Scanned prev [] []
| ScannedSkip (prev : option N) (c : N) (s : jsstring) (ms : list jsstring) :
    (forall m, ~ IsUrlMatch prev (c :: s) m) ->
    Scanned (Some c) s ms ->
    Scanned prev (c :: s) ms
| ScannedMatch (prev : option N) (m rest : jsstring) (ms : list jsstring) :
    IsUrlMatch prev (m ++ rest) m ->
    Scanned (lastUnit m) rest ms ->
    Scanned prev (m ++ rest) (m :: ms).

(* ================================================================== *)
(** * utils/gmailClient.ts: fetchEmails with the session that can fail *)

(** The store, the environment and the parser during one call of
    [fetchEmails], with every step that can reject: [process.env];
    whether [client.connect] rejects, and with which message;
    [client.list], [None] when it rejects; whether [mailboxOpen]
    resolves on a path; [client.search], [None] when it rejects,
    [Some None] when its answer is not an array; [client.download]
    and [simpleParser] as before.  The constructor of the client and
    the logging are taken not to throw; a rejected [logout] is
    swallowed (line 296). *)
Record Session := mkSession {
  env : jsstring -> option jsstring;
  connectError : option jsstring;
  listing : option (list jsstring);
  opens : jsstring -> bool;
  searches : GmailClient.SearchQuery -> option (option (list N));
  downloads : N -> GmailClient.Download;
  parses : list N -> option GmailClient.Parsed
}.

(** The ways a call rejects: [assertEnv] in [buildClient] (line 148),
    [connect] (lines 151-157), [client.list] (line 162), the mailbox
    test (lines 163-165), [mailboxOpen] (line 168), and a search
    (lines 182, 190, 203).  The [try] of lines 159-297 has a [finally]
    and no [catch]. *)
Inductive SessionError :=
| MissingEnv (message : jsstring)
| ConnectRejected (message : jsstring)
| ListRejected
| NoSuchMailbox (name : jsstring) (available : list jsstring)
| OpenRejected (name : jsstring)
| SearchRejected (q : GmailClient.SearchQuery).

Inductive Outcome2 :=
| Answer (emails : list Email)
| Aborted (err : SessionError).

(** The advice appended to a failed connect, lines 152-155. *)
Definition connectTips : jsstring :=
  [8226%N] ++ str " Use a Google App Password and enable IMAP in Gmail settings."
  ++ [10%N]
  ++ [8226%N] ++ str " Ensure imap.gmail.com:993 is reachable from the runner."
  ++ [10%N]
  ++ [8226%N] ++ str " Run IMAP tests serially to avoid connection limits.".

(** The message of the [Error] a rejection carries where the code
    builds it (lines 75-79, 156 and 164); [None] where the rejection
    of the library goes through as it is. *)
Definition thrownMessage (err : SessionError) : option jsstring :=
  match err with
  | MissingEnv message => Some message
  | ConnectRejected message =>
      Some (str "IMAP connect failed: " ++ message ++ [10%N] ++ connectTips)
  | NoSuchMailbox name available =>
      Some (str "Mailbox " ++ [c_dquote] ++ name ++ [c_dquote]
            ++ str " does not exist. Available: "
            ++ join (str ", ") available)
  | ListRejected | OpenRejected _ | SearchRejected _ => None
  end.

(** The part of a session that the per-message loop reads. *)
Definition storeOf (s : Session) : GmailClient.Imap :=
  GmailClient.mkImap
    (match connectError s with None => true | Some _ => false end)
    (match listing s with Some l => l | None => [] end)
    (fun q => match searches s q with Some r => r | None => None end)
    (downloads s) (parses s).

(** The three search attempts, lines 170-211, each of which may
    reject: the UIDs kept or the rejection, and the queries sent. *)
Definition searchUidsFull (s : Session) (now : Z) (unread : bool)
    (sinceMs : option Z)
  : (SessionError + list N) * list GmailClient.SearchQuery :=
  let seenField := if unread then Some false else None in
  let sinceDate :=
    match sinceMs with
    | Some ms => if ms =? 0 then None else Some (now - ms)
    | None => None
    end in
  let q1 := GmailClient.mkQuery seenField sinceDate in
  let q2 := GmailClient.mkQuery seenField None in
  let q3 := GmailClient.mkQuery None None in
  match searches s q1 with
  | None => (inl (SearchRejected q1), [q1])
  | Some r1 =>
      let uids1 := GmailClient.asArray r1 in
      let second :=
        if GmailClient.isEmpty uids1 && GmailClient.isDate sinceDate then
          match searches s q2 with
          | None => (inl (SearchRejected q2), [q1; q2])
          | Some r2 =>
              let retryArr := GmailClient.asArray r2 in
              (inr (if negb (GmailClient.isEmpty retryArr) then retryArr
                    else uids1), [q1; q2])
          end
        else (inr uids1, [q1]) in
      match second with
      | (inl err, log2) => (inl err, log2)
      | (inr uids2, log2) =>
          if GmailClient.isEmpty uids2 && unread then
            match searches s q3 with
            | None => (inl (SearchRejected q3), log2 ++ [q3])
            | Some r3 =>
                let retryAllArr := GmailClient.asArray r3 in
                (inr (if negb (GmailClient.isEmpty retryAllArr)
                      then retryAllArr else uids2), log2 ++ [q3])
            end
          else (inr uids2, log2)
      end
  end.

(** The UIDs the loop of a call takes up, in its order, after the cut
    of line 216; none when a search rejects. *)
Definition orderedUids (s : Session) (now : Z) (f : GmailClient.EmailFilter)
  : list N :=
  match fst (searchUidsFull s now (unreadOf f) (GmailClient.sinceMs f)) with
  | inr uids =>
      GmailClient.slice0 (Z.max (limitOf f * 3) (limitOf f))
        (if newestFirstOf f then rev uids else uids)
  | inl _ => []
  end.

(** [fetchEmails], lines 134-298 of the client, with its rejections:
    the outcome, and the search queries sent. *)
Definition fetchEmailsFull (s : Session) (now : Z)
    (f : GmailClient.EmailFilter)
  : Outcome2 * list GmailClient.SearchQuery :=
  match assertEnv (env s) with
  | Some message => (Aborted (MissingEnv message), [])
  | None =>
      match connectError s with
      | Some message => (Aborted (ConnectRejected message), [])
      | None =>
          match listing s with
          | None => (Aborted ListRejected, [])
          | Some available =>
              if negb (existsb (eqb_str (mailboxOf f)) available)
              then (Aborted (NoSuchMailbox (mailboxOf f) available), [])
              else if negb (opens s (mailboxOf f))
              then (Aborted (OpenRejected (mailboxOf f)), [])
              else
                match searchUidsFull s now (unreadOf f)
                        (GmailClient.sinceMs f) with
                | (inl err, log) => (Aborted err, log)
                | (inr uids, log) =>
                    (Answer
                       (GmailClient.collect (storeOf s) f (limitOf f) []
                          (GmailClient.slice0
                             (Z.max (limitOf f * 3) (limitOf f))
                             (if newestFirstOf f then rev uids else uids))),
                     log)
                end
          end
      end
  end.

(** A session with other messages: the same environment, store and
    searches, another [download] and another parser. *)
Definition withMessages (s : Session) (d : N -> GmailClient.Download)
    (p : list N -> option GmailClient.Parsed) : Session :=
  mkSession (env s) (connectError s) (listing s) (opens s) (searches s) d p.

(* ================================================================== *)
(** * Facts about JavaScript strings *)

Unset Implicit Arguments.

Module StringFacts.

Lemma eqb_str_true (a b : jsstring) : eqb_str a b = true <-> a = b.
Proof.
  unfold eqb_str. destruct (list_eq_dec N.eq_dec a b); split; congruence.
Qed.

Lemma eqb_str_refl (a : jsstring) : eqb_str a a = true.
Proof. now apply eqb_str_true. Qed.

Lemma is_space_spec (c : N) :
  is_space c = true <->
  (9 <= c <= 13 \/ c = 32 \/ c = 160 \/ c = 5760 \/ 8192 <= c <= 8202
   \/ c = 8232 \/ c = 8233 \/ c = 8239 \/ c = 8287 \/ c = 12288
   \/ c = 65279)%N.
Proof.
  unfold is_space.
  rewrite !orb_true_iff, !andb_true_iff, !N.leb_le, !N.eqb_eq. tauto.
Qed.

Lemma lower_cu_cases (c : N) :
  ((65 <= c <= 90)%N /\ lower_cu c = (c + 32)%N)
  \/ (~ (65 <= c <= 90)%N /\ lower_cu c = c).
Proof.
  unfold lower_cu.
  destruct ((65 <=? c) && (c <=? 90))%N eqn:E.
  - left. apply andb_true_iff in E. rewrite !N.leb_le in E. tauto.
  - right. split; [|reflexivity]. intros [H1 H2].
    apply N.leb_le in H1, H2. rewrite H1, H2 in E. discriminate.
Qed.

Lemma lower_cu_idem (c : N) : lower_cu (lower_cu c) = lower_cu c.
Proof.
  destruct (lower_cu_cases c) as [[R E] | [R E]]; rewrite E.
  - destruct (lower_cu_cases (c + 32)) as [[R' _] | [_ E']]; [lia | exact E'].
  - exact E.
Qed.

Lemma is_space_lower (c : N) : is_space (lower_cu c) = is_space c.
Proof.
  apply eq_true_iff_eq. rewrite !is_space_spec.
  destruct (lower_cu_cases c) as [[R E] | [R E]]; rewrite E; [lia | tauto].
Qed.

Lemma toLowerCase_idem (s : jsstring) :
  toLowerCase (toLowerCase s) = toLowerCase s.
Proof.
  unfold toLowerCase. rewrite map_map. apply map_ext, lower_cu_idem.
Qed.

Lemma toLowerCase_app (s t : jsstring) :
  toLowerCase (s ++ t) = toLowerCase s ++ toLowerCase t.
Proof. apply map_app. Qed.

Lemma lowered_toLowerCase (s : jsstring) : lowered (toLowerCase s).
Proof.
  unfold lowered, toLowerCase. apply Forall_map, Forall_forall.
  intros c _. apply lower_cu_idem.
Qed.

Lemma lowered_fix (s : jsstring) : lowered s -> toLowerCase s = s.
Proof.
  unfold lowered, toLowerCase.
  induction 1 as [|c s H _ IH]; simpl; [reflexivity|]. now rewrite H, IH.
Qed.

Lemma lowered_app (s t : jsstring) :
  lowered (s ++ t) <-> lowered s /\ lowered t.
Proof. apply Forall_app. Qed.

Lemma dropWhile_lower (s : jsstring) :
  toLowerCase (dropWhile is_space s) = dropWhile is_space (toLowerCase s).
Proof.
  induction s as [|c s IH]; simpl; [reflexivity|].
  rewrite is_space_lower. destruct (is_space c); [exact IH | reflexivity].
Qed.

Lemma trim_lower (s : jsstring) :
  toLowerCase (trim s) = trim (toLowerCase s).
Proof.
  unfold trim, dropWhileEnd, toLowerCase.
  rewrite map_rev. fold (toLowerCase (dropWhile is_space (rev (dropWhile is_space s)))).
  rewrite dropWhile_lower. unfold toLowerCase at 1. rewrite map_rev.
  fold (toLowerCase (dropWhile is_space s)). now rewrite dropWhile_lower.
Qed.

Lemma dropWhile_headFails p s : headFails p (dropWhile p s).
Proof.
  induction s as [|c s IH]; simpl; [exact I|].
  destruct (p c) eqn:E; [exact IH | exact E].
Qed.

Lemma dropWhile_fix p s : headFails p s -> dropWhile p s = s.
Proof. destruct s as [|c s]; simpl; [reflexivity|]. now intros ->. Qed.

Lemma dropWhile_snoc p s c :
  p c = false -> dropWhile p (s ++ [c]) = dropWhile p s ++ [c].
Proof.
  intros H. induction s as [|d s IH]; simpl.
  - now rewrite H.
  - destruct (p d); [exact IH | reflexivity].
Qed.

Lemma dropWhileEnd_cons p c s :
  p c = false -> dropWhileEnd p (c :: s) = c :: dropWhileEnd p s.
Proof.
  intros H. unfold dropWhileEnd. simpl.
  rewrite dropWhile_snoc by exact H. now rewrite rev_app_distr.
Qed.

Lemma dropWhileEnd_snoc p s c :
  p c = false -> dropWhileEnd p (s ++ [c]) = s ++ [c].
Proof.
  intros H. unfold dropWhileEnd. rewrite rev_app_distr. simpl.
  rewrite H. simpl. now rewrite rev_involutive.
Qed.

Lemma dropWhileEnd_idem p s :
  dropWhileEnd p (dropWhileEnd p s) = dropWhileEnd p s.
Proof.
  unfold dropWhileEnd. rewrite rev_involutive.
  now rewrite dropWhile_fix by apply dropWhile_headFails.
Qed.

Lemma dropWhileEnd_headFails p s :
  headFails p s -> headFails p (dropWhileEnd p s).
Proof.
  destruct s as [|c s]; simpl; intros H; [exact I|].
  rewrite dropWhileEnd_cons by exact H. exact H.
Qed.

Lemma trim_headFails s : headFails is_space (trim s).
Proof. apply dropWhileEnd_headFails, dropWhile_headFails. Qed.

Lemma trim_idem (s : jsstring) : trim (trim s) = trim s.
Proof.
  unfold trim at 1.
  rewrite dropWhile_fix by apply trim_headFails.
  unfold trim. apply dropWhileEnd_idem.
Qed.

Lemma headFails_lower s :
  headFails is_space s -> headFails is_space (toLowerCase s).
Proof. destruct s; simpl; [easy|]. now rewrite is_space_lower. Qed.

Lemma headFails_takeWhile p q s :
  headFails p s -> headFails p (takeWhile q s).
Proof.
  destruct s as [|c s]; simpl; [easy|]. destruct (q c); simpl; easy.
Qed.

Lemma takeWhile_dropWhile p s : takeWhile p s ++ dropWhile p s = s.
Proof.
  induction s as [|c s IH]; simpl; [reflexivity|].
  destruct (p c); simpl; [now rewrite IH | reflexivity].
Qed.

Lemma takeWhile_all p s : Forall (fun c => p c = true) (takeWhile p s).
Proof.
  induction s as [|c s IH]; simpl; [constructor|].
  destruct (p c) eqn:E; constructor; assumption.
Qed.

Lemma takeWhile_fix p s :
  Forall (fun c => p c = true) s -> takeWhile p s = s.
Proof.
  induction 1 as [|c s H _ IH]; simpl; [reflexivity|].
  now rewrite H, IH.
Qed.

Lemma takeWhile_app_stop p l c r :
  Forall (fun c => p c = true) l -> p c = false ->
  takeWhile p (l ++ c :: r) = l.
Proof.
  induction 1 as [|d l H _ IH]; simpl; intros Hc.
  - now rewrite Hc.
  - now rewrite H, IH.
Qed.

(** ** [includes] *)

Lemma prefixb_app (n s : jsstring) : prefixb n (n ++ s) = true.
Proof.
  induction n as [|a n IH]; simpl; [reflexivity|].
  now rewrite N.eqb_refl, IH.
Qed.

Lemma prefixb_spec (n s : jsstring) :
  prefixb n s = true <-> exists r, s = n ++ r.
Proof.
  revert s. induction n as [|a n IH]; intros s; simpl.
  - split; [now exists s | reflexivity].
  - destruct s as [|b s]; simpl.
    + split; [discriminate | intros [r H]; discriminate].
    + rewrite andb_true_iff, N.eqb_eq, IH. split.
      * intros [-> [r ->]]. now exists r.
      * intros [r H]. injection H as -> ->. split; [reflexivity | now exists r].
Qed.

Lemma includes_spec (s n : jsstring) :
  includes s n = true <-> exists a b, s = a ++ n ++ b.
Proof.
  induction s as [|c s IH]; simpl.
  - rewrite orb_false_r, prefixb_spec. split.
    + intros [r H]. now exists [], r.
    + intros [a [b H]]. destruct a; simpl in H; [now exists b|discriminate].
  - rewrite orb_true_iff, prefixb_spec, IH. split.
    + intros [[r H] | [a [b H]]].
      * now exists [], r.
      * exists (c :: a), b. simpl. now rewrite H.
    + intros [a [b H]]. destruct a as [|d a]; simpl in H.
      * left. now exists b.
      * right. injection H as _ H. now exists a, b.
Qed.

Lemma includes_mid (a n b : jsstring) : includes (a ++ n ++ b) n = true.
Proof. apply includes_spec. now exists a, b. Qed.

Lemma includes_unit (s : jsstring) (c : N) :
  includes s [c] = true <-> In c s.
Proof.
  rewrite includes_spec. split.
  - intros [a [b ->]]. apply in_or_app. right. now left.
  - intros H. apply in_split in H. destruct H as [a [b ->]]. now exists a, b.
Qed.

(** ** [split] *)

Lemma isnt_all (sep : N) (l : jsstring) :
  Forall (fun c => isnt sep c = true) l <-> ~ In sep l.
Proof.
  rewrite Forall_forall. unfold isnt. split.
  - intros H Hin. specialize (H _ Hin). now rewrite N.eqb_refl in H.
  - intros H c Hc. apply negb_true_iff, N.eqb_neq. intros ->. now apply H.
Qed.

Lemma split_nonempty sep s : split sep s <> [].
Proof.
  induction s as [|c s IH]; simpl; [discriminate|].
  destruct (c =? sep)%N; [discriminate|].
  destruct (split sep s); [contradiction | discriminate].
Qed.

Lemma split_none sep l : ~ In sep l -> split sep l = [l].
Proof.
  induction l as [|c l IH]; simpl; intros H; [reflexivity|].
  destruct (N.eqb_spec c sep) as [->|_]; [tauto|].
  rewrite IH by tauto. reflexivity.
Qed.

Lemma split_first sep l r :
  ~ In sep l -> split sep (l ++ sep :: r) = l :: split sep r.
Proof.
  induction l as [|c l IH]; simpl; intros H.
  - now rewrite N.eqb_refl.
  - destruct (N.eqb_spec c sep) as [->|_]; [tauto|].
    rewrite IH by tauto. reflexivity.
Qed.

Lemma split_hd sep s : hd [] (split sep s) = takeWhile (isnt sep) s.
Proof.
  induction s as [|c s IH]; simpl; [reflexivity|]. unfold isnt at 1.
  destruct (c =? sep)%N; simpl; [reflexivity|].
  rewrite <- IH. pose proof (split_nonempty sep s).
  destruct (split sep s); [contradiction | reflexivity].
Qed.

Lemma first_sep (sep : N) (s : jsstring) :
  In sep s -> exists l r, s = l ++ sep :: r /\ ~ In sep l.
Proof.
  induction s as [|c s IH]; simpl; [tauto|]. intros H.
  destruct (N.eq_dec c sep) as [->|Hne].
  - exists [], s. simpl. tauto.
  - destruct H as [H|H]; [contradiction|].
    destruct (IH H) as [l [r [-> Hl]]]. exists (c :: l), r. simpl.
    split; [reflexivity | tauto].
Qed.

End StringFacts.
Import StringFacts.

(* ================================================================== *)
(** * The address normalizer *)

Section Normalizer.

Variable a : jsstring.

Lemma lower_canonical :
  toLowerCase (trim (toLowerCase (trim a))) = toLowerCase (trim a).
Proof.
  rewrite trim_lower, toLowerCase_idem, <- trim_lower.
  now rewrite trim_idem.
Qed.

Lemma lower_lowered : lowered (toLowerCase (trim a)).
Proof. apply lowered_toLowerCase. Qed.

Lemma lower_headFails : headFails is_space (toLowerCase (trim a)).
Proof. apply headFails_lower, trim_headFails. Qed.

(** The result only depends on the trimmed, lowercased input. *)
Lemma normalize_of_lower :
  normalizeGmail (toLowerCase (trim a)) = normalizeGmail a.
Proof. unfold normalizeGmail. now rewrite lower_canonical. Qed.

(** The pieces that the destructuring of line 8 binds. *)
Lemma split_at_decomposed (l d r : jsstring) :
  ~ In c_at l -> ~ In c_at d -> (r = [] \/ exists r', r = c_at :: r') ->
  exists rest, split c_at (l ++ [c_at] ++ d ++ r) = l :: d :: rest.
Proof.
  intros Hl Hd Hr. simpl. rewrite split_first by exact Hl.
  destruct Hr as [-> | [r' ->]].
  - rewrite app_nil_r, split_none by exact Hd. now exists [].
  - rewrite split_first by exact Hd. now eexists.
Qed.

Lemma normalize_decomposed (l d r : jsstring) :
  toLowerCase (trim a) = l ++ [c_at] ++ d ++ r ->
  ~ In c_at l -> ~ In c_at d -> (r = [] \/ exists r', r = c_at :: r') ->
  normalizeGmail a =
    if eqb_str d gmail_com || eqb_str d googlemail_com
    then takeWhile (isnt c_plus) l ++ [c_at] ++ d
    else toLowerCase (trim a).
Proof.
  intros E Hl Hd Hr. unfold normalizeGmail.
  assert (Hin : includes (toLowerCase (trim a)) [c_at] = true).
  { rewrite E. apply includes_mid. }
  rewrite Hin. simpl negb. cbv iota.
  destruct (split_at_decomposed l d r Hl Hd Hr) as [rest Hs].
  rewrite E at 1. rewrite Hs, split_hd. reflexivity.
Qed.

(** Every input with an at sign decomposes this way. *)
Lemma lower_decomposes :
  In c_at (toLowerCase (trim a)) ->
  exists l d r, toLowerCase (trim a) = l ++ [c_at] ++ d ++ r /\ ~ In c_at l /\ ~ In c_at d
                /\ (r = [] \/ exists r', r = c_at :: r').
Proof.
  intros H. destruct (first_sep _ _ H) as [l [t [E Hl]]].
  exists l, (takeWhile (isnt c_at) t), (dropWhile (isnt c_at) t).
  split; [|split; [exact Hl | split]].
  - simpl. now rewrite takeWhile_dropWhile.
  - apply isnt_all, takeWhile_all.
  - pose proof (dropWhile_headFails (isnt c_at) t) as Hh.
    destruct (dropWhile (isnt c_at) t) as [|c r']; [now left | right].
    simpl in Hh. apply negb_false_iff, N.eqb_eq in Hh. subst c. now exists r'.
Qed.

End Normalizer.

(** An address made of a plus-free, at-free local part in lower case
    and one of the two personal-mail domains is left as it is. *)
Lemma normalize_canonical (l d : jsstring) :
  lowered l -> headFails is_space l -> ~ In c_at l -> ~ In c_plus l ->
  d = gmail_com \/ d = googlemail_com ->
  normalizeGmail (l ++ [c_at] ++ d) = l ++ [c_at] ++ d.
Proof.
  intros Hlow Hhead Hat Hplus Hd.
  assert (Hdlow : lowered d) by (destruct Hd; subst d; repeat constructor).
  assert (Hdat : ~ In c_at d).
  { destruct Hd; subst d; intros H; vm_compute in H; intuition discriminate. }
  assert (Hcanon : toLowerCase (trim (l ++ [c_at] ++ d)) = l ++ [c_at] ++ d).
  { assert (Htrim : trim (l ++ [c_at] ++ d) = l ++ [c_at] ++ d).
    { unfold trim. rewrite dropWhile_fix.
      - destruct Hd; subst d;
          [change (l ++ [c_at] ++ gmail_com)
             with (l ++ (c_at :: str "gmail.co") ++ [109%N])
          |change (l ++ [c_at] ++ googlemail_com)
             with (l ++ (c_at :: str "googlemail.co") ++ [109%N])];
          rewrite app_assoc; now apply dropWhileEnd_snoc.
      - destruct l; simpl; [reflexivity | exact Hhead]. }
    rewrite Htrim. apply lowered_fix.
    apply lowered_app; split; [exact Hlow|].
    apply lowered_app; split; [repeat constructor | exact Hdlow]. }
  rewrite (normalize_decomposed (l ++ [c_at] ++ d) l d []).
  - assert (Hg : eqb_str d gmail_com || eqb_str d googlemail_com = true).
    { destruct Hd; subst d; reflexivity. }
    rewrite Hg. rewrite takeWhile_fix; [reflexivity|].
    now apply isnt_all.
  - now rewrite Hcanon, app_nil_r.
  - exact Hat.
  - exact Hdat.
  - now left.
Qed.

(* ================================================================== *)
(** * The URL extractor *)

Module LinkFacts.

Lemma filter_twice (A : Type) (p q : A -> bool) (l : list A) :
  filter p (filter q l) = filter (fun y => q y && p y) l.
Proof.
  induction l as [|x l IH]; simpl; [reflexivity|].
  destruct (q x); simpl; [destruct (p x)|]; now rewrite IH.
Qed.

Lemma existsb_eqb_In (u : jsstring) (l : list jsstring) :
  existsb (eqb_str u) l = true <-> In u l.
Proof.
  rewrite existsb_exists. split.
  - intros [x [Hx E]]. apply eqb_str_true in E. now subst.
  - intros H. exists u. split; [exact H | apply eqb_str_refl].
Qed.

Lemma firstOccurrences_In (u : jsstring) (l : list jsstring) :
  In u (firstOccurrences l) <-> In u l.
Proof.
  induction l as [|x l IH]; simpl; [tauto|].
  rewrite filter_In, IH, negb_true_iff. split.
  - tauto.
  - intros [H|H]; [now left|].
    destruct (eqb_str x u) eqn:E; [left; now apply eqb_str_true | now right].
Qed.

Lemma firstOccurrences_NoDup (l : list jsstring) : NoDup (firstOccurrences l).
Proof.
  induction l as [|x l IH]; simpl; constructor.
  - rewrite filter_In, eqb_str_refl. intros [_ H]. discriminate.
  - now apply NoDup_filter.
Qed.

(** The insertion-ordered set built by the loop is the list of first
    occurrences. *)
Lemma setAdd_fold (l acc : list jsstring) :
  fold_left setAdd l acc
  = acc ++ filter (fun y => negb (existsb (eqb_str y) acc)) (firstOccurrences l).
Proof.
  revert acc. induction l as [|x l IH]; intros acc; simpl.
  - now rewrite app_nil_r.
  - rewrite IH. unfold setAdd. rewrite filter_twice.
    destruct (existsb (eqb_str x) acc) eqn:E; simpl.
    + f_equal. apply filter_ext. intros y.
      destruct (eqb_str x y) eqn:Exy; simpl; [|reflexivity].
      apply eqb_str_true in Exy. subst y. now rewrite E.
    + rewrite <- app_assoc. simpl. do 2 f_equal. apply filter_ext. intros y.
      rewrite existsb_app. simpl. rewrite orb_false_r, negb_orb.
      rewrite andb_comm. f_equal. f_equal.
      destruct (eqb_str y x) eqn:A; destruct (eqb_str x y) eqn:B;
        try reflexivity.
      * apply eqb_str_true in A. subst. now rewrite eqb_str_refl in B.
      * apply eqb_str_true in B. subst. now rewrite eqb_str_refl in A.
Qed.

Lemma fold_left_pre (A B C : Type) (f : A -> C -> A) (g : B -> C)
    (l : list B) (acc : A) :
  fold_left (fun x m => f x (g m)) l acc = fold_left f (map g l) acc.
Proof. revert acc. induction l; simpl; intros; [reflexivity | apply IHl]. Qed.

Lemma extractLinks_firstOccurrences (src : jsstring) :
  extractLinks src
  = firstOccurrences (map stripTrailing (execAll 0 None src)).
Proof.
  unfold extractLinks. rewrite fold_left_pre, setAdd_fold. simpl.
  induction (firstOccurrences _) as [|x l IH]; simpl; [reflexivity|].
  now rewrite IH.
Qed.

(** ** The matcher *)

Lemma matchRest_shape (r x : jsstring) :
  matchRest r = Some x ->
  exists body,
    r = str "://" ++ body
    /\ x = str "://" ++ takeWhile url_char body
    /\ takeWhile url_char body <> [].
Proof.
  unfold matchRest.
  destruct r as [|c1 [|c2 [|c3 body]]]; try discriminate.
  destruct ((c1 =? 58) && (c2 =? 47) && (c3 =? 47))%N eqn:E; [|discriminate].
  rewrite !andb_true_iff, !N.eqb_eq in E. destruct E as [[-> ->] ->].
  intros H. exists body. split; [reflexivity|].
  destruct (takeWhile url_char body) eqn:Et; [discriminate|].
  injection H as <-. split; [reflexivity | discriminate].
Qed.

Lemma scheme_plain (h t1 t2 p : N) (r m : jsstring) :
  (ci 104 h && ci 116 t1 && ci 116 t2 && ci 112 p)%N = true ->
  option_map (app [h; t1; t2; p]) (matchRest r) = Some m ->
  exists rest, h :: t1 :: t2 :: p :: r = m ++ rest
               /\ isUrlToken m /\ headFails url_char rest.
Proof.
  intros Hs H. unfold ci in Hs. rewrite !andb_true_iff, !N.eqb_eq in Hs.
  destruct Hs as [[[Hh Ht1] Ht2] Hp].
  destruct (matchRest r) as [x|] eqn:E; [|discriminate].
  injection H as <-.
  destruct (matchRest_shape _ _ E) as [body [-> [-> Hne]]].
  exists (dropWhile url_char body). split; [|split].
  - simpl. now rewrite takeWhile_dropWhile.
  - exists [h; t1; t2; p], (takeWhile url_char body).
    split; [reflexivity|]. split; [|split].
    + left. simpl. now rewrite Hh, Ht1, Ht2, Hp.
    + exact Hne.
    + apply takeWhile_all.
  - apply dropWhile_headFails.
Qed.

(** A successful attempt takes a URL token off the front of the input,
    and as long a one as the URL class allows. *)
Lemma matchAt_shape (prev : option N) (s m : jsstring) :
  matchAt prev s = Some m ->
  exists rest, s = m ++ rest /\ isUrlToken m /\ headFails url_char rest.
Proof.
  unfold matchAt. destruct (wordBoundary prev s); [|discriminate].
  destruct s as [|h [|t1 [|t2 [|p r]]]]; try discriminate.
  destruct (ci 104 h && ci 116 t1 && ci 116 t2 && ci 112 p)%N eqn:Hs;
    [|discriminate].
  destruct r as [|c r']; [apply scheme_plain; exact Hs|].
  destruct (ci 115 c) eqn:Hc; [|apply scheme_plain; exact Hs].
  destruct (matchRest r') as [x|] eqn:E; [|apply scheme_plain; exact Hs].
  intros H. injection H as <-.
  destruct (matchRest_shape _ _ E) as [body [-> [-> Hne]]].
  unfold ci in Hs, Hc. rewrite !andb_true_iff, !N.eqb_eq in Hs.
  apply N.eqb_eq in Hc. destruct Hs as [[[Hh Ht1] Ht2] Hp].
  exists (dropWhile url_char body). split; [|split].
  - simpl. now rewrite takeWhile_dropWhile.
  - exists [h; t1; t2; p; c], (takeWhile url_char body).
    split; [reflexivity|]. split; [|split].
    + right. simpl. now rewrite Hh, Ht1, Ht2, Hp, Hc.
    + exact Hne.
    + apply takeWhile_all.
  - apply dropWhile_headFails.
Qed.

(** Every match of the loop is a URL token that occurs in the input. *)
Lemma execAll_tokens (s : jsstring) :
  forall k prev m, In m (execAll k prev s) ->
                   isUrlToken m /\ exists a b, s = a ++ m ++ b.
Proof.
  induction s as [|c s IH]; intros k prev m; simpl; [tauto|].
  assert (Hlater : forall k' prev', In m (execAll k' prev' s) ->
                     isUrlToken m /\ exists a b, c :: s = a ++ m ++ b).
  { intros k' prev' H. destruct (IH _ _ _ H) as [Ht [a [b ->]]].
    split; [exact Ht|]. now exists (c :: a), b. }
  destruct k as [|k]; [|apply Hlater].
  destruct (matchAt prev (c :: s)) as [m0|] eqn:E; [|apply Hlater].
  intros [<- | H]; [|eapply Hlater; exact H].
  destruct (matchAt_shape _ _ _ E) as [rest [Es [Ht _]]].
  split; [exact Ht|]. exists [], rest. exact Es.
Qed.

(** ** The trailing characters *)

Lemma is_trail_spec (c : N) :
  is_trail c = true <->
  (c = 41 \/ c = 44 \/ c = 46 \/ c = 59 \/ c = 93 \/ c = 62 \/ c = 34
   \/ c = 39)%N.
Proof.
  unfold is_trail, c_rparen, c_comma, c_dot, c_semi, c_rbrack, c_gt,
    c_dquote, c_squote.
  rewrite !orb_true_iff, !N.eqb_eq. tauto.
Qed.

Lemma stripTrailing_split (m : jsstring) :
  exists t, m = stripTrailing m ++ t
            /\ Forall (fun c => is_trail c = true) t
            /\ lastFails is_trail (stripTrailing m).
Proof.
  exists (rev (takeWhile is_trail (rev m))). split; [|split].
  - unfold stripTrailing, dropWhileEnd. rewrite <- rev_app_distr.
    now rewrite takeWhile_dropWhile, rev_involutive.
  - apply Forall_rev, takeWhile_all.
  - unfold lastFails, stripTrailing, dropWhileEnd. rewrite rev_involutive.
    apply dropWhile_headFails.
Qed.

Lemma scheme_letter_kept (h : N) :
  lower_cu h = 104%N -> is_trail h = false.
Proof.
  intros H. apply not_true_is_false. rewrite is_trail_spec.
  destruct (lower_cu_cases h) as [[R E] | [R E]]; rewrite E in H; lia.
Qed.

(** Stripping leaves the scheme of a URL token in place. *)
Lemma stripTrailing_token (m : jsstring) :
  isUrlToken m ->
  exists h rest, stripTrailing m = h :: rest /\ lower_cu h = 104%N.
Proof.
  intros [scheme [body [-> [Hs _]]]].
  assert (Hh : exists h tl, scheme = h :: tl /\ lower_cu h = 104%N).
  { destruct scheme as [|h tl];
      [destruct Hs; discriminate|].
    exists h, tl. split; [reflexivity|].
    destruct Hs as [Hs|Hs]; simpl in Hs; now injection Hs. }
  destruct Hh as [h [tl [-> Hh]]]. simpl.
  unfold stripTrailing. rewrite dropWhileEnd_cons
    by (apply scheme_letter_kept; exact Hh).
  now eexists _, _.
Qed.

Lemma extractLinks_In (src u : jsstring) :
  In u (extractLinks src) <->
  exists m, In m (execAll 0 None src) /\ u = stripTrailing m.
Proof.
  rewrite extractLinks_firstOccurrences, firstOccurrences_In, in_map_iff.
  split; intros [m [H1 H2]]; exists m; split; auto.
Qed.

(** No extracted link is the empty string. *)
Lemma extractLinks_nonempty (src u : jsstring) :
  In u (extractLinks src) -> u <> [].
Proof.
  intros H. apply extractLinks_In in H. destruct H as [m [Hm ->]].
  apply execAll_tokens in Hm. destruct Hm as [Ht _].
  destruct (stripTrailing_token _ Ht) as [h [rest [-> _]]]. discriminate.
Qed.

End LinkFacts.
Import LinkFacts.

(** ** The scanner and the pattern *)

Lemma takeWhile_app_exact (p : N -> bool) (l r : jsstring) :
  Forall (fun c => p c = true) l -> headFails p r ->
  takeWhile p (l ++ r) = l.
Proof.
  intros Hl Hr. destruct r as [|c r].
  - rewrite app_nil_r. now apply takeWhile_fix.
  - now apply takeWhile_app_stop.
Qed.

Lemma matchRest_complete (body rest : jsstring) :
  body <> [] -> Forall (fun c => url_char c = true) body ->
  headFails url_char rest ->
  matchRest (str "://" ++ body ++ rest) = Some (str "://" ++ body).
Proof.
  intros Hne Hb Hr. simpl. rewrite (takeWhile_app_exact _ _ _ Hb Hr).
  destruct body; [contradiction | reflexivity].
Qed.

Lemma scheme_letter_word (h : N) : lower_cu h = 104%N -> is_word h = true.
Proof.
  intros H. unfold is_word.
  destruct (lower_cu_cases h) as [[R E] | [R E]]; rewrite E in H.
  - assert (h = 72%N) by lia. now subst.
  - now subst.
Qed.

Lemma boundary_before_scheme (prev : option N) (h : N) (s : jsstring) :
  lower_cu h = 104%N ->
  wordBoundary prev (h :: s)
  = match prev with Some c => negb (is_word c) | None => true end.
Proof.
  intros H. unfold wordBoundary. rewrite (scheme_letter_word _ H).
  destruct prev as [c|]; [|reflexivity]. now destruct (is_word c).
Qed.

(** An attempt of the pattern succeeds with [m] exactly when [m] is a
    match in the sense of [IsUrlMatch]. *)
Lemma matchAt_iff (prev : option N) (s m : jsstring) :
  matchAt prev s = Some m <-> IsUrlMatch prev s m.
Proof.
  split.
  - intros H. destruct (matchAt_shape _ _ _ H) as [rest [Es [Ht Hr]]].
    split; [|split; [exact Ht | now exists rest]].
    destruct prev as [c|]; [|exact I].
    unfold matchAt in H.
    destruct (wordBoundary (Some c) s) eqn:Hb; [|discriminate].
    destruct s as [|h [|t1 [|t2 [|p r]]]]; try discriminate.
    destruct (ci 104 h && ci 116 t1 && ci 116 t2 && ci 112 p)%N eqn:Hs;
      [|discriminate].
    unfold ci in Hs. rewrite !andb_true_iff, !N.eqb_eq in Hs.
    destruct Hs as [[[Hh _] _] _].
    rewrite (boundary_before_scheme _ _ _ Hh) in Hb.
    now apply negb_true_iff.
  - intros [Hp [[scheme [body [-> [Hs [Hne Hb]]]]] [rest [-> Hr]]]].
    destruct Hs as [Hs | Hs].
    + destruct scheme as [|h [|t1 [|t2 [|p [|x scheme]]]]]; try discriminate.
      simpl in Hs. injection Hs as Hh Ht1 Ht2 Hp'.
      unfold matchAt. cbn [app]. rewrite (boundary_before_scheme _ _ _ Hh).
      replace (match prev with Some c => negb (is_word c) | None => true end)
        with true by (destruct prev; [now rewrite Hp | reflexivity]).
      unfold ci. rewrite Hh, Ht1, Ht2, Hp'. cbn [N.eqb Pos.eqb andb].
      simpl. now rewrite (takeWhile_app_exact _ _ _ Hb Hr); destruct body.
    + destruct scheme as [|h [|t1 [|t2 [|p [|x [|y scheme]]]]]];
        try discriminate.
      simpl in Hs. injection Hs as Hh Ht1 Ht2 Hp' Hx.
      unfold matchAt. cbn [app]. rewrite (boundary_before_scheme _ _ _ Hh).
      replace (match prev with Some c => negb (is_word c) | None => true end)
        with true by (destruct prev; [now rewrite Hp | reflexivity]).
      unfold ci. rewrite Hh, Ht1, Ht2, Hp', Hx. cbn [N.eqb Pos.eqb andb].
      simpl. now rewrite (takeWhile_app_exact _ _ _ Hb Hr); destruct body.
Qed.

Lemma IsUrlMatch_unique (prev : option N) (s m1 m2 : jsstring) :
  IsUrlMatch prev s m1 -> IsUrlMatch prev s m2 -> m1 = m2.
Proof.
  intros H1 H2. apply matchAt_iff in H1, H2. congruence.
Qed.

Lemma IsUrlMatch_nonempty (prev : option N) (s m : jsstring) :
  IsUrlMatch prev s m -> m <> [].
Proof.
  intros [_ [[scheme [body [-> [Hs _]]]] _]].
  destruct scheme; [destruct Hs; discriminate | discriminate].
Qed.

Lemma lastUnit_cons (c : N) (m : jsstring) :
  lastUnit (c :: m)
  = match lastUnit m with Some x => Some x | None => Some c end.
Proof.
  unfold lastUnit. simpl. destruct (rev m); reflexivity.
Qed.

Lemma lastUnit_app (a b : jsstring) :
  lastUnit (a ++ b)
  = match lastUnit b with Some x => Some x | None => lastUnit a end.
Proof.
  unfold lastUnit. rewrite rev_app_distr. destruct (rev b); reflexivity.
Qed.

(** Passing over a match: the scan goes on after it, the last code
    unit of the match before the position. *)
Lemma execAll_skip_over (m rest : jsstring) :
  forall prev,
    execAll (List.length m) prev (m ++ rest)
    = execAll 0 (match lastUnit m with Some x => Some x | None => prev end)
              rest.
Proof.
  induction m as [|c m IH]; intros prev; [reflexivity|].
  cbn [List.length app execAll]. rewrite IH, lastUnit_cons.
  now destruct (lastUnit m).
Qed.

Lemma execAll_match (prev : option N) (m rest : jsstring) :
  IsUrlMatch prev (m ++ rest) m ->
  execAll 0 prev (m ++ rest) = m :: execAll 0 (lastUnit m) rest.
Proof.
  intros H. pose proof (IsUrlMatch_nonempty _ _ _ H) as Hne.
  apply matchAt_iff in H. destruct m as [|c m]; [contradiction|].
  cbn [app execAll]. cbn [app] in H. rewrite H. f_equal.
  cbn [List.length]. rewrite Nat.sub_succ, Nat.sub_0_r.
  rewrite execAll_skip_over, lastUnit_cons. now destruct (lastUnit m).
Qed.

Lemma execAll_no_match (prev : option N) (c : N) (s : jsstring) :
  (forall m, ~ IsUrlMatch prev (c :: s) m) ->
  execAll 0 prev (c :: s) = execAll 0 (Some c) s.
Proof.
  intros H. cbn [execAll].
  destruct (matchAt prev (c :: s)) as [m|] eqn:E; [|reflexivity].
  apply matchAt_iff in E. now apply H in E.
Qed.

(** The loop finds the matches of the pattern, left to right. *)
Lemma execAll_scanned (s : jsstring) :
  forall prev, Scanned prev s (execAll 0 prev s).
Proof.
  assert (H : forall n s, (List.length s <= n)%nat ->
                          forall prev, Scanned prev s (execAll 0 prev s)).
  { clear s. induction n as [|n IH]; intros s Hn prev.
    - destruct s; [constructor | simpl in Hn; lia].
    - destruct s as [|c s]; [constructor|].
      destruct (matchAt prev (c :: s)) as [m|] eqn:E.
      + apply matchAt_iff in E.
        destruct E as [Hp [Ht [rest [Es Hr]]]].
        assert (Hm : IsUrlMatch prev (m ++ rest) m)
          by (split; [exact Hp | split; [exact Ht | now exists rest]]).
        rewrite Es, (execAll_match _ _ _ Hm). constructor; [exact Hm|].
        apply IH. pose proof (IsUrlMatch_nonempty _ _ _ Hm) as Hne.
        apply (f_equal (@List.length N)) in Es.
        rewrite length_app in Es. simpl in Es, Hn.
        destruct m; [contradiction | simpl in Es; lia].
      + rewrite execAll_no_match.
        * constructor; [|apply IH; simpl in Hn; lia].
          intros m Hm. apply matchAt_iff in Hm. congruence.
        * intros m Hm. apply matchAt_iff in Hm. congruence. }
  now apply (H (List.length s)).
Qed.

(** ... and nothing else is such a list of matches. *)
Lemma scanned_unique (prev : option N) (s : jsstring) (ms : list jsstring) :
  Scanned prev s ms -> ms = execAll 0 prev s.
Proof.
  induction 1 as [prev | prev c s ms Hno _ IH | prev m rest ms Hm _ IH].
  - reflexivity.
  - now rewrite execAll_no_match.
  - now rewrite (execAll_match _ _ _ Hm), IH.
Qed.

Lemma app_eq_prefix (a b x r : jsstring) :
  a ++ b = x ++ r -> (List.length x <= List.length a)%nat ->
  exists a', a = x ++ a' /\ r = a' ++ b.
Proof.
  revert a. induction x as [|y x IH]; intros a E Hl.
  - exists a. now split.
  - destruct a as [|c a]; [simpl in Hl; lia|].
    simpl in E. injection E as -> E. simpl in Hl.
    destruct (IH a E ltac:(lia)) as [a' [-> ->]]. now exists a'.
Qed.

(** A place where the pattern matches is found by the loop, unless it
    lies inside a match that begins before it, which is then found. *)
Lemma execAll_complete (m rest : jsstring) :
  forall pre prev,
    IsUrlMatch (match lastUnit pre with Some x => Some x | None => prev end)
               (m ++ rest) m ->
    In m (execAll 0 prev (pre ++ m ++ rest))
    \/ exists a b x,
         pre = a ++ b /\ b <> [] /\ (List.length b < List.length x)%nat
         /\ IsUrlMatch (match lastUnit a with Some c => Some c | None => prev end)
                       (b ++ m ++ rest) x
         /\ In x (execAll 0 prev (pre ++ m ++ rest)).
Proof.
  assert (H : forall n pre, (List.length pre <= n)%nat -> forall prev,
    IsUrlMatch (match lastUnit pre with Some x => Some x | None => prev end)
               (m ++ rest) m ->
    In m (execAll 0 prev (pre ++ m ++ rest))
    \/ exists a b x,
         pre = a ++ b /\ b <> [] /\ (List.length b < List.length x)%nat
         /\ IsUrlMatch (match lastUnit a with Some c => Some c | None => prev end)
                       (b ++ m ++ rest) x
         /\ In x (execAll 0 prev (pre ++ m ++ rest))).
  { induction n as [|n IH]; intros pre Hn prev Hm.
    - destruct pre; [|simpl in Hn; lia]. left. simpl in *.
      rewrite (execAll_match _ _ _ Hm). now left.
    - destruct pre as [|c pre].
      { left. simpl in *. rewrite (execAll_match _ _ _ Hm). now left. }
      simpl in Hn.
      destruct (matchAt prev ((c :: pre) ++ m ++ rest)) as [x|] eqn:E.
      + apply matchAt_iff in E.
        destruct (E) as [Hp [Ht [r [Es Hr]]]].
        assert (Hx : IsUrlMatch prev (x ++ r) x) by (now rewrite <- Es).
        pose proof (IsUrlMatch_nonempty _ _ _ Hx) as Hne.
        destruct (Nat.le_gt_cases (List.length x) (List.length (c :: pre)))
          as [Hle | Hgt].
        * (* the match ends inside the text before the place *)
          assert (Hsplit : exists pre', c :: pre = x ++ pre'
                                        /\ r = pre' ++ m ++ rest).
          { now apply app_eq_prefix. }
          destruct Hsplit as [pre' [Epre Er]].
          rewrite Es, (execAll_match _ _ _ Hx), Er.
          assert (Hlen : (List.length pre' <= n)%nat).
          { apply (f_equal (@List.length N)) in Epre.
            rewrite length_app in Epre. simpl in Epre.
            destruct x; [contradiction | simpl in Epre; lia]. }
          assert (Hm' : IsUrlMatch
                          (match lastUnit pre' with
                           | Some y => Some y | None => lastUnit x end)
                          (m ++ rest) m).
          { rewrite Epre, lastUnit_app in Hm.
            destruct (lastUnit pre'); [exact Hm|].
            destruct (lastUnit x) eqn:El; [exact Hm|].
            unfold lastUnit in El. destruct x; [contradiction|].
            simpl in El. destruct (rev x); discriminate. }
          destruct (IH pre' Hlen (lastUnit x) Hm')
            as [Hin | [a [b [y [Ea [Hb [Hl [Hy Hin]]]]]]]].
          -- left. now right.
          -- right. exists (x ++ a), b, y.
             split; [now rewrite Epre, Ea, app_assoc|].
             split; [exact Hb|]. split; [exact Hl|]. split; [|now right].
             rewrite lastUnit_app. destruct (lastUnit a); [exact Hy|].
             destruct (lastUnit x) eqn:El; [exact Hy|].
             unfold lastUnit in El. destruct x; [contradiction|].
             simpl in El. destruct (rev x); discriminate.
        * right. exists [], (c :: pre), x.
          split; [reflexivity|]. split; [discriminate|].
          split; [exact Hgt|]. split; [exact E|].
          rewrite Es, (execAll_match _ _ _ Hx). now left.
      + assert (Hno : forall y, ~ IsUrlMatch prev (c :: pre ++ m ++ rest) y).
        { intros y Hy. apply matchAt_iff in Hy. simpl in E. congruence. }
        cbn [app]. rewrite (execAll_no_match _ _ _ Hno).
        assert (Hm' : IsUrlMatch
                        (match lastUnit pre with
                         | Some y => Some y | None => Some c end)
                        (m ++ rest) m).
        { rewrite lastUnit_cons in Hm. now destruct (lastUnit pre). }
        destruct (IH pre ltac:(lia) (Some c) Hm')
          as [Hin | [a [b [y [Ea [Hb [Hl [Hy Hin]]]]]]]].
        -- now left.
        -- right. exists (c :: a), b, y.
           split; [now rewrite Ea|]. split; [exact Hb|].
           split; [exact Hl|]. split; [|exact Hin].
           rewrite lastUnit_cons. now destruct (lastUnit a). }
  intros pre. now apply (H (List.length pre)).
Qed.

(** C2, as the code has it.  An attempt of the pattern of line 18 at a
    place succeeds with [m] exactly when [m] is a match there: the
    place is not after a word character, [m] is http or https in any
    letter case, a colon, two slashes and one or more code units of
    the URL class, and [m] is as long as the URL class allows.  The
    loop finds the matches left to right, each search starting after
    the match before, and no other list is one of such matches.  The
    result is that list with the trailing run of closing parenthesis,
    comma, period, semicolon, closing bracket, closing angle bracket
    and straight double or single quote removed from each, each kept
    at its first place only: it has no duplicates, holds exactly the
    stripped matches, every match is a URL token of the input, and no
    result ends in one of the eight characters.  Every place of the
    input where the pattern matches gives a result, unless it lies
    inside a match that begins before it, which then gives one.  The
    example of the specification yields the one URL. *)
Theorem extractLinks_distinct_stripped :
  (forall prev s m, matchAt prev s = Some m <-> IsUrlMatch prev s m)
  /\ (forall src,
      Scanned None src (execAll 0 None src)
      /\ (forall ms, Scanned None src ms ->
                     extractLinks src
                     = firstOccurrences (map stripTrailing ms))
      /\ extractLinks src
         = firstOccurrences (map stripTrailing (execAll 0 None src))
      /\ NoDup (extractLinks src)
      /\ (forall u, In u (extractLinks src) <->
                    exists m, In m (execAll 0 None src) /\ u = stripTrailing m)
      /\ (forall m, In m (execAll 0 None src) ->
                    isUrlToken m /\ includes src m = true)
      /\ (forall u, In u (extractLinks src) -> lastFails is_trail u))
  /\ (forall pre m rest,
         IsUrlMatch (lastUnit pre) (m ++ rest) m ->
         In (stripTrailing m) (extractLinks (pre ++ m ++ rest))
         \/ exists a b x,
              pre = a ++ b /\ b <> []
              /\ (List.length b < List.length x)%nat
              /\ IsUrlMatch (lastUnit a) (b ++ m ++ rest) x
              /\ In (stripTrailing x) (extractLinks (pre ++ m ++ rest)))
  /\ (forall m, exists t,
         m = stripTrailing m ++ t
         /\ Forall (fun c => c = 41 \/ c = 44 \/ c = 46 \/ c = 59 \/ c = 93
                             \/ c = 62 \/ c = 34 \/ c = 39)%N t
         /\ lastFails is_trail (stripTrailing m))
  /\ extractLinks (str "Visit http://x.com/a), and http://x.com/a.")
     = [str "http://x.com/a"]
  /\ extractLinks (str "Go to HTTPS://Example.COM/Verify?x=1, or (hTTp://b.io/c).")
     = [str "HTTPS://Example.COM/Verify?x=1"; str "hTTp://b.io/c"]
  /\ extractLinks (str "xhttp://a.io _https://a.io http:/b.io https:// ftp://c.io")
     = []
  /\ extractLinks (str "see http://a.io/?next=http://b.io.")
     = [str "http://a.io/?next=http://b.io"].
Proof.
  split; [exact matchAt_iff|].
  split; [|split; [|split; [|repeat split; reflexivity]]].
  - intros src. split; [apply execAll_scanned|].
    split; [intros ms Hms; rewrite (scanned_unique _ _ _ Hms);
            apply extractLinks_firstOccurrences|].
    split; [apply extractLinks_firstOccurrences|].
    split; [rewrite extractLinks_firstOccurrences;
            apply firstOccurrences_NoDup|].
    split; [intros u; apply extractLinks_In|]. split.
    + intros m Hm. destruct (execAll_tokens _ _ _ _ Hm) as [Ht [a [b E]]].
      split; [exact Ht|]. apply includes_spec. now exists a, b.
    + intros u Hu. apply extractLinks_In in Hu. destruct Hu as [m [_ ->]].
      destruct (stripTrailing_split m) as [t [_ [_ H]]]. exact H.
  - intros pre m rest Hm.
    assert (Hm' : IsUrlMatch (match lastUnit pre with
                              | Some x => Some x | None => None end)
                             (m ++ rest) m) by (now destruct (lastUnit pre)).
    destruct (execAll_complete m rest pre None Hm')
      as [Hin | [a [b [x [Ea [Hb [Hl [Hx Hin]]]]]]]].
    + left. apply extractLinks_In. now exists m.
    + right. exists a, b, x. split; [exact Ea|]. split; [exact Hb|].
      split; [exact Hl|]. split; [now destruct (lastUnit a)|].
      apply extractLinks_In. now exists x.
  - intros m. destruct (stripTrailing_split m) as [t [E [Ht Hl]]].
    exists t. split; [exact E|]. split; [|exact Hl].
    eapply Forall_impl; [|exact Ht]. intros c. apply is_trail_spec.
Qed.

Lemma extractLinks_distinct_stripped_witness :
  In (stripTrailing (str "http://x.com/a."))
     (extractLinks (str "Visit http://x.com/a), and " ++ str "http://x.com/a."
                    ++ str " Bye"))
  /\ isUrlToken (str "http://x.com/a.")
  /\ includes (str "Visit http://x.com/a), and http://x.com/a.")
              (str "http://x.com/a.") = true.
Proof.
  destruct extractLinks_distinct_stripped as [Hiff [H [Hc _]]]. split.
  - assert (Hm : IsUrlMatch (lastUnit (str "Visit http://x.com/a), and "))
                            (str "http://x.com/a." ++ str " Bye")
                            (str "http://x.com/a."))
      by (apply Hiff; reflexivity).
    destruct (Hc _ _ _ Hm) as [Hin | [a [b [x [_ [_ [_ [_ Hin]]]]]]]].
    + exact Hin.
    + vm_compute. now left.
  - destruct (H (str "Visit http://x.com/a), and http://x.com/a."))
      as [_ [_ [_ [_ [_ [Hm _]]]]]].
    apply Hm. vm_compute. right. left. reflexivity.
Defined.

(** C2 as stated fails on a curly quote: a right double quotation mark
    (U+201D) after a URL is matched as part of it and is not stripped. *)
Lemma extractLinks_keeps_curly_quote :
  extractLinks (str "see http://x.com/a" ++ [8221%N])
  = [str "http://x.com/a" ++ [8221%N]]
  /\ extractLinks (str "see http://x.com/a" ++ [8221%N])
     <> [str "http://x.com/a"].
Proof. split; [reflexivity | discriminate]. Qed.

(* ================================================================== *)
(** * The candidate filter *)

Lemma splitRuns_pieces (p : N -> bool) (s : jsstring) :
  forall inrun cur x,
    Forall (fun c => p c = false) cur ->
    In x (splitRuns p inrun cur s) ->
    Forall (fun c => p c = false) x.
Proof.
  induction s as [|c s IH]; intros inrun cur x Hcur; simpl.
  - intros [<- | []]. now apply Forall_rev.
  - destruct (p c) eqn:E.
    + destruct inrun.
      * now apply IH.
      * intros [<- | H]; [now apply Forall_rev|].
        eapply IH; [|exact H]. constructor.
    + apply IH. now constructor.
Qed.

(** C5, as the code has it: a summary qualifies exactly when its
    lowercased subject contains the subject needle and the target is
    among the normalized addresses or occurs in the lowercased raw
    header, where the addresses are the parsed recipient list when that
    is not empty and otherwise the pieces of the raw header between
    runs of commas and white space. *)
Theorem qualifies_iff (target needle : jsstring) (e : Email) :
  (qualifies target needle e = true <->
   includes (toLowerCase (orEmpty (subject e))) needle = true
   /\ (In target (map normalizeGmail (toAddrs e))
       \/ includes (toLowerCase (orEmpty (to e))) target = true))
  /\ (forall a l, toAddresses e = Some (a :: l) ->
                  toAddrs e = recipientAddresses e)
  /\ (toAddresses e = None \/ toAddresses e = Some [] ->
      toAddrs e = match to e with
                  | Some t => splitRuns is_addr_sep false [] t
                  | None => []
                  end
      /\ forall x, In x (toAddrs e) ->
                   Forall (fun c => is_addr_sep c = false) x).
Proof.
  split; [|split].
  - unfold qualifies.
    rewrite andb_true_iff, orb_true_iff, existsb_eqb_In. reflexivity.
  - intros a l H. unfold toAddrs, recipientAddresses. now rewrite H.
  - intros H.
    assert (E : toAddrs e = match to e with
                            | Some t => splitRuns is_addr_sep false [] t
                            | None => []
                            end).
    { unfold toAddrs. destruct H as [-> | ->]; reflexivity. }
    split; [exact E|]. rewrite E. intros x Hx.
    destruct (to e) as [t|]; [|contradiction].
    eapply splitRuns_pieces; [|exact Hx]. constructor.
Qed.

Lemma qualifies_iff_witness :
  let e := mkEmail 1 None None None (Some (str "Jane <jane@gmail.com>"))
                   (Some [str "jane@gmail.com"]) (Some (str "Please verify"))
                   None None in
  toAddrs e = recipientAddresses e
  /\ qualifies (str "jane@gmail.com") (str "verify") e = true.
Proof.
  intros e.
  destruct (qualifies_iff (str "jane@gmail.com") (str "verify") e)
    as [Hq [Hl _]].
  split.
  - apply (Hl (str "jane@gmail.com") []). reflexivity.
  - apply Hq. split; [reflexivity|]. left. vm_compute. now left.
Defined.

(** C5 as stated fails when the parsed recipient list is empty: the
    message below qualifies through a piece of its raw header, though
    its own address list is empty and the lowercased header does not
    contain the target. *)
Lemma qualifies_by_header_piece :
  let e := mkEmail 1 None None None (Some (str "User+tag@gmail.com"))
                   (Some []) (Some (str "Please verify")) None None in
  let target := normalizeGmail (str "user@gmail.com") in
  let needle := str "verify" in
  qualifies target needle e = true
  /\ ~ (includes (toLowerCase (orEmpty (subject e))) needle = true
        /\ (In target (map normalizeGmail (recipientAddresses e))
            \/ includes (toLowerCase (orEmpty (to e))) target = true)).
Proof.
  split; [reflexivity|]. intros [_ [H | H]]; [exact H | discriminate H].
Qed.

(* ================================================================== *)
(** * The selector *)

Lemma byReceived_le (x y : Email) :
  byReceived x y <= 0 <-> ranksAtMost y x.
Proof.
  unfold byReceived, ranksAtMost, ranksBelow.
  fold (primaryKey x) (primaryKey y) (secondaryKey x) (secondaryKey y).
  destruct (Z.eqb_spec (primaryKey y) (primaryKey x)); simpl; lia.
Qed.

(** The model of [sort] is the stable sort: a permutation, in the
    order of the callback, that keeps messages of equal rank in their
    input order. *)
Lemma insertBy_perm (cmp : Email -> Email -> Z) (x : Email) (l : list Email) :
  Permutation (x :: l) (insertBy cmp x l).
Proof.
  induction l as [|y l IH]; simpl; [reflexivity|].
  destruct (cmp x y <=? 0); [reflexivity|].
  rewrite perm_swap. now constructor.
Qed.

Lemma sortBy_perm (cmp : Email -> Email -> Z) (l : list Email) :
  Permutation l (sortBy cmp l).
Proof.
  induction l as [|x l IH]; simpl; [constructor|].
  rewrite <- insertBy_perm. now constructor.
Qed.

Lemma byReceived_total (x y : Email) :
  0 < byReceived x y -> byReceived y x <= 0.
Proof.
  intros H. apply byReceived_le.
  assert (Hn : ~ ranksAtMost y x) by (rewrite <- byReceived_le; lia).
  unfold ranksAtMost, ranksBelow in *. lia.
Qed.

Lemma insertBy_sorted (x : Email) (l : list Email) :
  Sorted (fun a b => byReceived a b <= 0) l ->
  Sorted (fun a b => byReceived a b <= 0) (insertBy byReceived x l).
Proof.
  induction 1 as [|y l Hs IH Hhd]; simpl; [repeat constructor|].
  destruct (Z.leb_spec (byReceived x y) 0) as [Hle|Hgt].
  - repeat constructor; assumption.
  - constructor; [exact IH|].
    destruct l as [|z l]; simpl.
    + constructor. now apply byReceived_total.
    + inversion Hhd; subst.
      destruct (byReceived x z <=? 0); constructor;
        [now apply byReceived_total | assumption].
Qed.

Lemma sortBy_sorted (l : list Email) :
  Sorted (fun a b => byReceived a b <= 0) (sortBy byReceived l).
Proof.
  induction l as [|x l IH]; simpl; [constructor | now apply insertBy_sorted].
Qed.

Lemma insertBy_stable (k x : Email) (l : list Email) :
  filter (sameRank k) (insertBy byReceived x l)
  = filter (sameRank k) (x :: l).
Proof.
  induction l as [|y l IH]; [reflexivity|]. simpl insertBy.
  destruct (Z.leb_spec (byReceived x y) 0) as [Hle|Hgt]; [reflexivity|].
  change (filter (sameRank k) (y :: insertBy byReceived x l))
    with (if sameRank k y then y :: filter (sameRank k) (insertBy byReceived x l)
          else filter (sameRank k) (insertBy byReceived x l)).
  rewrite IH. simpl.
  destruct (sameRank k x) eqn:Ex; destruct (sameRank k y) eqn:Ey;
    try reflexivity.
  exfalso. unfold sameRank in Ex, Ey.
  rewrite andb_true_iff, !Z.eqb_eq in Ex, Ey.
  assert (H : ranksAtMost y x) by (unfold ranksAtMost; lia).
  apply byReceived_le in H. lia.
Qed.

Lemma sortBy_stable (k : Email) (l : list Email) :
  filter (sameRank k) (sortBy byReceived l) = filter (sameRank k) l.
Proof.
  induction l as [|x l IH]; [reflexivity|]. simpl sortBy.
  rewrite insertBy_stable. simpl. now rewrite IH.
Qed.

Lemma hd_insertBy (cmp : Email -> Email -> Z) (x : Email) (l : list Email) :
  hd_error (insertBy cmp x l)
  = match hd_error l with
    | None => Some x
    | Some y => if cmp x y <=? 0 then Some x else Some y
    end.
Proof. destruct l as [|y l]; simpl; [reflexivity|]. now destruct (cmp x y <=? 0). Qed.

Lemma latestOf_cons (x : Email) (l : list Email) :
  latestOf (x :: l)
  = match latestOf l with
    | None => Some x
    | Some y => if byReceived x y <=? 0 then Some x else Some y
    end.
Proof. unfold latestOf. simpl. apply hd_insertBy. Qed.

Lemma latestOf_none (l : list Email) : latestOf l = None -> l = [].
Proof.
  destruct l as [|x l]; [reflexivity|]. rewrite latestOf_cons.
  destruct (latestOf l); [destruct (byReceived x e <=? 0)|]; discriminate.
Qed.

(** The selected message is the first one of the greatest rank. *)
Lemma latestOf_first_greatest (cs : list Email) :
  cs <> [] ->
  exists m before after,
    latestOf cs = Some m
    /\ cs = before ++ m :: after
    /\ Forall (fun x => ranksBelow x m) before
    /\ Forall (fun x => ranksAtMost x m) after.
Proof.
  induction cs as [|x l IH]; [congruence|]. intros _.
  rewrite latestOf_cons. destruct (latestOf l) as [y|] eqn:Ely.
  - destruct l as [|x' l']; [discriminate|].
    destruct IH as [m [before [after [Hm [E [Hb Ha]]]]]]; [discriminate|].
    injection Hm as <-.
    destruct (Z.leb_spec (byReceived x y) 0) as [Hle|Hgt].
    + apply byReceived_le in Hle.
      exists x, [], (x' :: l'). repeat split; [constructor|].
      rewrite E. apply Forall_app. split; [|constructor].
      * eapply Forall_impl; [|exact Hb]. intros z Hz.
        unfold ranksAtMost, ranksBelow in *. lia.
      * exact Hle.
      * eapply Forall_impl; [|exact Ha]. intros z Hz.
        unfold ranksAtMost, ranksBelow in *. lia.
    + assert (Hlt : ranksBelow x y).
      { assert (H : ~ ranksAtMost y x) by (rewrite <- byReceived_le; lia).
        unfold ranksAtMost, ranksBelow in *. lia. }
      exists y, (x :: before), after. repeat split.
      * rewrite E. reflexivity.
      * now constructor.
      * exact Ha.
  - apply latestOf_none in Ely. subst l.
    exists x, [], []. repeat split; constructor.
Qed.

(** C1, as the code has it: among the candidates the engine takes the
    first one of those that are greatest in the order that compares
    [internalDateMs] (zero when absent) first and the time of [date]
    (zero when absent) second; every earlier candidate ranks strictly
    below it and no later one ranks above it.  With no candidates there
    is none.  When no candidate carries an [internalDateMs], which is
    what the gateway returns, this is the greatest effective timestamp
    with ties going to the earlier candidate. *)
Theorem latestOf_selects (cs : list Email) :
  (cs = [] -> latestOf cs = None)
  /\ (cs <> [] ->
      exists m before after,
        latestOf cs = Some m
        /\ cs = before ++ m :: after
        /\ Forall (fun x => ranksBelow x m) before
        /\ Forall (fun x => ranksAtMost x m) after
        /\ (Forall (fun x => internalDateMs x = None) cs ->
            Forall (fun x => effectiveTimestamp x < effectiveTimestamp m) before
            /\ Forall (fun x => effectiveTimestamp x <= effectiveTimestamp m)
                      after)).
Proof.
  split; [now intros ->|]. intros Hne.
  destruct (latestOf_first_greatest cs Hne)
    as [m [before [after [Hm [E [Hb Ha]]]]]].
  exists m, before, after.
  split; [exact Hm|]. split; [exact E|]. split; [exact Hb|].
  split; [exact Ha|]. intros Hall.
  subst cs. apply Forall_app in Hall. destruct Hall as [Hpre Hrest].
  inversion Hrest as [|? ? Hmn Hpost]; subst.
  rewrite Forall_forall in Hb, Ha, Hpre, Hpost.
  split; apply Forall_forall; intros z Hz.
  - specialize (Hb z Hz). specialize (Hpre z Hz).
    unfold effectiveTimestamp, ranksBelow, primaryKey in *.
    rewrite Hpre, Hmn in *. lia.
  - specialize (Ha z Hz). specialize (Hpost z Hz).
    unfold effectiveTimestamp, ranksAtMost, ranksBelow, primaryKey in *.
    rewrite Hpost, Hmn in *. lia.
Qed.

Lemma latestOf_selects_witness :
  let a := mkEmail 1 None (Some 10) None None None None None None in
  let b := mkEmail 2 None (Some 20) None None None None None None in
  let c := mkEmail 3 None (Some 20) None None None None None None in
  exists m before after,
    latestOf [a; b; c] = Some m
    /\ [a; b; c] = before ++ m :: after
    /\ Forall (fun x => ranksBelow x m) before
    /\ Forall (fun x => ranksAtMost x m) after
    /\ (Forall (fun x => internalDateMs x = None) [a; b; c] ->
        Forall (fun x => effectiveTimestamp x < effectiveTimestamp m) before
        /\ Forall (fun x => effectiveTimestamp x <= effectiveTimestamp m)
                  after).
Proof.
  intros a b c. apply (proj2 (latestOf_selects [a; b; c])). discriminate.
Defined.

(** C1 as stated fails: of two candidates with the same nonzero
    [internalDateMs], hence the same effective timestamp, the engine
    takes the later one of the list when its [date] is later; and a
    candidate with only a [date] loses to one with an older
    [internalDateMs]. *)
Lemma latestOf_not_by_effective_timestamp :
  let a := mkEmail 1 (Some 5) (Some 1) None None None None None None in
  let b := mkEmail 2 (Some 5) (Some 2) None None None None None None in
  let c := mkEmail 3 None (Some 1000) None None None None None None in
  let d := mkEmail 4 (Some 5) None None None None None None None in
  (effectiveTimestamp a = effectiveTimestamp b /\ latestOf [a; b] = Some b)
  /\ (effectiveTimestamp d < effectiveTimestamp c /\ latestOf [c; d] = Some d).
Proof. repeat split. Qed.

(* ================================================================== *)
(** * The poll cycle and the poll loop *)

Lemma find_first (A : Type) (p : A -> bool) (l : list A) (u : A) :
  find p l = Some u <->
  exists pre post,
    l = pre ++ u :: post /\ p u = true /\ Forall (fun x => p x = false) pre.
Proof.
  induction l as [|x l IH]; simpl.
  - split; [discriminate|]. intros [pre [post [E _]]].
    destruct pre; discriminate.
  - destruct (p x) eqn:Ex.
    + split.
      * intros H. injection H as <-. exists [], l. repeat split; auto.
      * intros [pre [post [E [Hu Hpre]]]]. destruct pre as [|y pre].
        -- simpl in E. now injection E as ->.
        -- simpl in E. injection E as <- _. inversion Hpre; congruence.
    + rewrite IH. split.
      * intros [pre [post [-> [Hu Hpre]]]]. exists (x :: pre), post.
        repeat split; auto.
      * intros [pre [post [E [Hu Hpre]]]]. destruct pre as [|y pre].
        -- simpl in E. injection E as -> _. congruence.
        -- simpl in E. injection E as <- ->. inversion Hpre; subst.
           now exists pre, post.
Qed.

(** The truthiness test of line 100 never turns a found link down. *)
Lemma pollCycle_spec (target sneedle uneedle : jsstring) (emails : list Email) :
  pollCycle target sneedle uneedle emails
  = match latestOf (filter (qualifies target sneedle) emails) with
    | Some latest =>
        find (fun u => includes (toLowerCase u) uneedle)
             (extractLinks (pickBody latest))
    | None => None
    end.
Proof.
  unfold pollCycle.
  destruct (filter (qualifies target sneedle) emails) as [|c cs];
    [reflexivity|].
  destruct (latestOf (c :: cs)) as [latest|]; [|reflexivity].
  destruct (find _ _) as [m|] eqn:E; [|reflexivity].
  apply find_some in E. destruct E as [Hin _].
  apply extractLinks_nonempty in Hin. now destruct m.
Qed.

Lemma pollLoop_resolved (rq : PollRequest) (deadline : Z) (clock : list Z) :
  forall replies tr url tr',
    pollLoop rq deadline clock replies tr = (Resolved url, tr') ->
    exists emails,
      In (GmailClient.Emails emails) replies /\ cycleOf rq emails = Some url.
Proof.
  induction clock as [|now clock IH]; intros replies tr url tr'; simpl;
    [discriminate|].
  destruct (now <? deadline); [|discriminate].
  destruct replies as [|[emails|err] replies]; try discriminate.
  fold (cycleOf rq emails).
  destruct (cycleOf rq emails) as [u|] eqn:E.
  - intros H. injection H as <- _. exists emails. split; [now left | exact E].
  - intros H. apply IH in H. destruct H as [emails' [Hin Hc]].
    exists emails'. split; [now right | exact Hc].
Qed.

(** Unsuccessful turns up to a clock value at or past the deadline end
    in the timeout. *)
Lemma pollLoop_times_out (rq : PollRequest) (deadline : Z) (early : list Z) :
  forall quiet now rest more tr,
    List.length early = List.length quiet ->
    Forall (fun t => t < deadline) early ->
    Forall (quietReply rq) quiet ->
    deadline <= now ->
    pollLoop rq deadline (early ++ now :: rest) (quiet ++ more) tr
    = (Rejected (TimeoutError (timeoutMessage rq)),
       tr ++ flat_map (fun _ => turnEvents rq) early).
Proof.
  induction early as [|t early IH]; intros quiet now rest more tr Hlen He Hq Hd.
  - simpl. destruct (Z.ltb_spec now deadline); [lia|]. now rewrite app_nil_r.
  - destruct quiet as [|r quiet]; [discriminate|].
    inversion He as [|? ? Ht He']; subst. inversion Hq as [|? ? Hr Hq']; subst.
    destruct Hr as [emails [-> Hc]]. simpl.
    destruct (Z.ltb_spec t deadline); [|lia].
    fold (cycleOf rq emails). rewrite Hc.
    rewrite IH; auto. now rewrite <- !app_assoc.
Qed.

(** C4: the body is the HTML-as-text when present and not empty, else
    the plain text when present and not empty, else the empty string;
    with a candidate selected, the cycle yields a URL exactly when it is
    the first link extracted from that body whose lowercased form
    contains the URL needle, and yields none without a candidate; a
    call resolves only with the URL such a cycle yields on one of the
    gateway answers, and does resolve when a cycle before the deadline
    yields one; the match ignores case and is by substring. *)
Theorem pollCycle_first_matching_url :
  (forall e h, htmlAsText e = Some h -> h <> [] -> pickBody e = h)
  /\ (forall e t, htmlAsText e = None \/ htmlAsText e = Some [] ->
                  text e = Some t -> t <> [] -> pickBody e = t)
  /\ (forall e, htmlAsText e = None \/ htmlAsText e = Some [] ->
                text e = None \/ text e = Some [] -> pickBody e = [])
  /\ (forall target sneedle uneedle emails latest url,
         latestOf (filter (qualifies target sneedle) emails) = Some latest ->
         (pollCycle target sneedle uneedle emails = Some url <->
          exists pre post,
            extractLinks (pickBody latest) = pre ++ url :: post
            /\ includes (toLowerCase url) uneedle = true
            /\ Forall (fun u => includes (toLowerCase u) uneedle = false) pre))
  /\ (forall target sneedle uneedle emails,
         latestOf (filter (qualifies target sneedle) emails) = None ->
         pollCycle target sneedle uneedle emails = None)
  /\ (forall rq clock replies url tr,
         waitAndExtractUrlByRecipient rq clock replies = (Resolved url, tr) ->
         exists emails,
           In (GmailClient.Emails emails) replies
           /\ cycleOf rq emails = Some url)
  /\ (forall rq start now clock emails replies url,
         now < start + timeoutSeconds rq * 1000 ->
         cycleOf rq emails = Some url ->
         waitAndExtractUrlByRecipient rq (start :: now :: clock)
           (GmailClient.Emails emails :: replies)
         = (Resolved url, [FetchEmails (filterOf rq)]))
  /\ includes (toLowerCase (str "https://EXAMPLE.com/verify?x=1"))
              (toLowerCase (str "verify")) = true.
Proof.
  repeat apply conj.
  - intros e h H Hne. unfold pickBody. rewrite H. now destruct h.
  - intros e t Hh Ht Hne. unfold pickBody. rewrite Ht.
    destruct Hh as [-> | ->]; now destruct t.
  - intros e Hh Ht. unfold pickBody.
    destruct Hh as [-> | ->]; destruct Ht as [-> | ->]; reflexivity.
  - intros target sneedle uneedle emails latest url H.
    rewrite pollCycle_spec, H.
    apply (find_first _ (fun u => includes (toLowerCase u) uneedle)).
  - intros target sneedle uneedle emails H. now rewrite pollCycle_spec, H.
  - intros rq clock replies url tr. unfold waitAndExtractUrlByRecipient.
    destruct clock as [|start clock]; [discriminate|].
    apply pollLoop_resolved.
  - intros rq start now clock emails replies url Hnow Hc.
    unfold waitAndExtractUrlByRecipient. simpl.
    destruct (Z.ltb_spec now (start + timeoutSeconds rq * 1000)); [|lia].
    fold (cycleOf rq emails). now rewrite Hc.
  - reflexivity.
Qed.

Lemma pollCycle_first_matching_url_witness :
  let rq := mkRequest (str "Jane+test@gmail.com") (str "verify") (str "verify")
                      (Some 60) (Some 3000) None in
  let msg := mkEmail 1 None (Some 1700000000000) (Some (str "noreply@example.com"))
               (Some (str "jane@gmail.com")) (Some [str "jane@gmail.com"])
               (Some (str "Please verify"))
               (Some (str "confirm here: https://example.com/verify/abc123."))
               None in
  waitAndExtractUrlByRecipient rq [0; 10] [GmailClient.Emails [msg]]
  = (Resolved (str "https://example.com/verify/abc123"),
     [FetchEmails (filterOf rq)]).
Proof.
  intros rq msg.
  destruct pollCycle_first_matching_url as [_ [_ [_ [_ [_ [_ [H _]]]]]]].
  apply H.
  - vm_compute. reflexivity.
  - vm_compute. reflexivity.
Defined.

(** ** The timeout *)

(** C3, as the code has it: when a clock value at or past the deadline
    follows turns without success, the call rejects with the timeout
    error; a timeout error of a call always carries the message of
    lines 106-108, which contains the recipient, the subject keyword,
    the URL keyword and the configured [timeoutSeconds]. *)
Theorem timeout_carries_context (rq : PollRequest) :
  (forall start early quiet now rest more,
      List.length early = List.length quiet ->
      Forall (fun t => t < start + timeoutSeconds rq * 1000) early ->
      Forall (quietReply rq) quiet ->
      start + timeoutSeconds rq * 1000 <= now ->
      waitAndExtractUrlByRecipient rq (start :: early ++ now :: rest)
        (quiet ++ more)
      = (Rejected (TimeoutError (timeoutMessage rq)),
         flat_map (fun _ => turnEvents rq) early))
  /\ (forall clock replies message tr,
         waitAndExtractUrlByRecipient rq clock replies
         = (Rejected (TimeoutError message), tr) ->
         message = timeoutMessage rq)
  /\ includes (timeoutMessage rq) (recipientEmail rq) = true
  /\ includes (timeoutMessage rq) (subjectKeyword rq) = true
  /\ includes (timeoutMessage rq) (urlKeyword rq) = true
  /\ includes (timeoutMessage rq) (showZ (timeoutSeconds rq)) = true.
Proof.
  repeat apply conj.
  - intros start early quiet now rest more Hlen He Hq Hd.
    unfold waitAndExtractUrlByRecipient.
    now rewrite pollLoop_times_out.
  - intros clock replies message tr. unfold waitAndExtractUrlByRecipient.
    destruct clock as [|start clock]; [discriminate|].
    generalize (start + timeoutSeconds rq * 1000) as deadline.
    generalize (@nil Event) as tr0. intros tr0 deadline. revert replies tr0.
    induction clock as [|now clock IH]; intros replies tr0; simpl;
      [discriminate|].
    destruct (now <? deadline); [|congruence].
    destruct replies as [|[emails|err] replies]; try discriminate.
    destruct (pollCycle _ _ _ emails); [discriminate | apply IH].
  - apply includes_spec.
    exists (str "Timed out after " ++ showZ (timeoutSeconds rq)
            ++ str "s: no URL containing " ++ [c_dquote] ++ urlKeyword rq
            ++ [c_dquote] ++ str " found for " ++ [c_dquote]),
           ([c_dquote] ++ str " with subject containing " ++ [c_dquote]
            ++ subjectKeyword rq ++ [c_dquote] ++ str ".").
    unfold timeoutMessage. now rewrite <- !app_assoc.
  - apply includes_spec.
    exists (str "Timed out after " ++ showZ (timeoutSeconds rq)
            ++ str "s: no URL containing " ++ [c_dquote] ++ urlKeyword rq
            ++ [c_dquote] ++ str " found for " ++ [c_dquote]
            ++ recipientEmail rq ++ [c_dquote]
            ++ str " with subject containing " ++ [c_dquote]),
           ([c_dquote] ++ str ".").
    unfold timeoutMessage. now rewrite <- !app_assoc.
  - apply includes_spec.
    exists (str "Timed out after " ++ showZ (timeoutSeconds rq)
            ++ str "s: no URL containing " ++ [c_dquote]),
           ([c_dquote] ++ str " found for " ++ [c_dquote]
            ++ recipientEmail rq ++ [c_dquote]
            ++ str " with subject containing " ++ [c_dquote]
            ++ subjectKeyword rq ++ [c_dquote] ++ str ".").
    unfold timeoutMessage. now rewrite <- !app_assoc.
  - unfold timeoutMessage. apply includes_mid.
Qed.

Lemma timeout_carries_context_witness :
  let rq := mkRequest (str "jane@gmail.com") (str "verify") (str "verify")
                      (Some 1) (Some 500) None in
  waitAndExtractUrlByRecipient rq [0; 0; 500; 1000]
    [GmailClient.Emails []; GmailClient.Emails []]
  = (Rejected (TimeoutError (timeoutMessage rq)),
     turnEvents rq ++ turnEvents rq).
Proof.
  intros rq.
  destruct (timeout_carries_context rq) as [H _].
  apply (H 0 [0; 500] [GmailClient.Emails []; GmailClient.Emails []] 1000 [] []).
  - reflexivity.
  - repeat constructor.
  - repeat constructor; exists []; split; reflexivity.
  - vm_compute. discriminate.
Defined.

(** C3 as stated fails on the mailbox and on the elapsed time: this
    call on the mailbox INBOX times out after five seconds on the clock
    with a configured timeout of one second, and its message names
    neither the mailbox nor the five seconds. *)
Lemma timeout_omits_mailbox_and_elapsed :
  let rq := mkRequest (str "jane@gmail.com") (str "verify") (str "verify")
                      (Some 1) (Some 500)
                      (Some (mkOptions None None None (Some (str "INBOX")))) in
  waitAndExtractUrlByRecipient rq [0; 0; 5000] [GmailClient.Emails []]
  = (Rejected (TimeoutError (timeoutMessage rq)), turnEvents rq)
  /\ includes (timeoutMessage rq) (str "INBOX") = false
  /\ includes (timeoutMessage rq) (showZ ((5000 - 0) / 1000)) = false.
Proof. repeat split. Qed.

(** C10, as the code has it: with [timeoutSeconds] at most zero, and
    the second reading of the clock (line 54) not before the first
    (line 49), the call rejects with the timeout error at once: no
    gateway call and no wait is made. *)
Theorem nonpositive_timeout_never_polls (rq : PollRequest) (start now : Z)
    (clock : list Z) (replies : list GmailClient.Fetched) :
  timeoutSeconds rq <= 0 ->
  start <= now ->
  waitAndExtractUrlByRecipient rq (start :: now :: clock) replies
  = (Rejected (TimeoutError (timeoutMessage rq)), []).
Proof.
  intros Hts Hclock. unfold waitAndExtractUrlByRecipient. simpl.
  destruct (Z.ltb_spec now (start + timeoutSeconds rq * 1000)); [lia|].
  reflexivity.
Qed.

Lemma nonpositive_timeout_never_polls_witness :
  let rq := mkRequest (str "jane@gmail.com") (str "verify") (str "verify")
                      (Some (-3)) None None in
  waitAndExtractUrlByRecipient rq [1000; 1000; 4000]
    [GmailClient.Emails []]
  = (Rejected (TimeoutError (timeoutMessage rq)), []).
Proof.
  intros rq. apply nonpositive_timeout_never_polls.
  - vm_compute. discriminate.
  - lia.
Defined.

(** C10 as stated fails when the clock runs backwards between the two
    readings of lines 49 and 54: with [timeoutSeconds] zero and the
    readings 1000 and then 999 the loop body runs, the gateway is
    called and the poll interval is waited, before the timeout. *)
Lemma backward_clock_polls :
  let rq := mkRequest (str "jane@gmail.com") (str "verify") (str "verify")
                      (Some 0) (Some 500) None in
  timeoutSeconds rq <= 0
  /\ waitAndExtractUrlByRecipient rq [1000; 999; 1000] [GmailClient.Emails []]
     = (Rejected (TimeoutError (timeoutMessage rq)),
        [FetchEmails (filterOf rq); Wait 500]).
Proof. split; [discriminate | reflexivity]. Qed.

(** Every gateway call of the engine carries the one configured filter:
    the engine never alters the time window or the unread flag. *)
Lemma pollLoop_filter (rq : PollRequest) (deadline : Z) (clock : list Z) :
  forall replies tr f,
    In (FetchEmails f) (snd (pollLoop rq deadline clock replies tr)) ->
    In (FetchEmails f) tr \/ f = filterOf rq.
Proof.
  induction clock as [|now clock IH]; intros replies tr f; simpl; [tauto|].
  assert (Hstep : In (FetchEmails f) (tr ++ [FetchEmails (filterOf rq)]) ->
                  In (FetchEmails f) tr \/ f = filterOf rq).
  { intros H. apply in_app_or in H. destruct H as [H | [H | []]];
      [now left | right; congruence]. }
  destruct (now <? deadline); [|simpl; tauto].
  destruct replies as [|[emails|err] replies]; simpl; try exact Hstep.
  destruct (pollCycle _ _ _ emails); simpl; [exact Hstep|].
  intros H. apply IH in H. destruct H as [H | H]; [|now right].
  apply in_app_or in H. destruct H as [H | [H | []]];
    [now apply Hstep | discriminate].
Qed.

(* ================================================================== *)
(** * The gateway *)

Section Gateway.

Import GmailClient.

Variable w : Imap.
Variable f : EmailFilter.
Variable lim : Z.

Lemma collect_skips_throwing (ordered : list N) :
  forall results,
    collect w f lim results ordered
    = collect w f lim results
        (filter (fun uid => negb (throwsOn w f uid)) ordered).
Proof.
  induction ordered as [|uid rest IH]; intros results; simpl; [reflexivity|].
  unfold throwsOn at 1. destruct (processMessage w f uid) eqn:E; simpl.
  - apply IH.
  - rewrite E. apply IH.
  - rewrite E. destruct (_ >=? lim); [reflexivity | apply IH].
Qed.

Lemma collect_drops_one (pre : list N) (bad : N) (post : list N) :
  processMessage w f bad = Throws ->
  forall results,
    collect w f lim results (pre ++ bad :: post)
    = collect w f lim results (pre ++ post).
Proof.
  intros Hbad. induction pre as [|uid pre IH]; intros results; simpl.
  - now rewrite Hbad.
  - destruct (processMessage w f uid); try apply IH.
    destruct (_ >=? lim); [reflexivity | apply IH].
Qed.

Lemma collect_below_limit (ordered : list N) :
  forall results,
    Z.of_nat (List.length results + List.length ordered) < lim ->
    collect w f lim results ordered = results ++ pushedBy w f ordered.
Proof.
  induction ordered as [|uid rest IH]; intros results Hlen; simpl.
  - now rewrite app_nil_r.
  - simpl in Hlen. destruct (processMessage w f uid) as [| |e]; simpl.
    + apply IH. lia.
    + apply IH. lia.
    + rewrite length_app. simpl.
      destruct (Z.geb_spec (Z.of_nat (List.length results + 1)) lim); [lia|].
      rewrite IH; [now rewrite <- app_assoc|].
      rewrite length_app. simpl. lia.
Qed.

End Gateway.

(** C8: the first search is the one requested.  When it finds nothing
    and a nonzero [sinceMs] was given, the gateway searches again
    without the time window, keeping the unread constraint; when there
    is still nothing and unread-only was set, it searches once more
    without any constraint.  A search that finds something is not
    retried.  The queries of [fetchEmails] are these, and every gateway
    call of the engine carries the same configured filter: the
    retries are the gateway's, not the engine's. *)
Theorem search_retries_in_gateway (w : GmailClient.Imap) (now : Z) :
  (forall unread ms,
      ms <> 0 ->
      GmailClient.asArray (GmailClient.search w (asRequested now unread ms)) = [] ->
      exists later,
        snd (GmailClient.searchUids w now unread (Some ms))
        = asRequested now unread ms :: withoutWindow unread :: later)
  /\ (forall ms,
         ms <> 0 ->
         GmailClient.asArray (GmailClient.search w (asRequested now true ms)) = [] ->
         GmailClient.asArray (GmailClient.search w (withoutWindow true)) = [] ->
         GmailClient.searchUids w now true (Some ms)
         = (GmailClient.asArray (GmailClient.search w unconstrained),
            [asRequested now true ms; withoutWindow true; unconstrained]))
  /\ (forall sinceMs,
         sinceMs = None \/ sinceMs = Some 0 ->
         GmailClient.asArray (GmailClient.search w (withoutWindow true)) = [] ->
         GmailClient.searchUids w now true sinceMs
         = (GmailClient.asArray (GmailClient.search w unconstrained),
            [withoutWindow true; unconstrained]))
  /\ (forall unread ms,
         ms <> 0 ->
         GmailClient.asArray (GmailClient.search w (asRequested now unread ms)) <> [] ->
         GmailClient.searchUids w now unread (Some ms)
         = (GmailClient.asArray (GmailClient.search w (asRequested now unread ms)),
            [asRequested now unread ms]))
  /\ (forall unread ms,
         ms <> 0 ->
         GmailClient.asArray (GmailClient.search w (asRequested now unread ms)) = [] ->
         GmailClient.asArray (GmailClient.search w (withoutWindow unread)) <> [] ->
         GmailClient.searchUids w now unread (Some ms)
         = (GmailClient.asArray (GmailClient.search w (withoutWindow unread)),
            [asRequested now unread ms; withoutWindow unread]))
  /\ (forall f,
         GmailClient.connects w = true ->
         existsb (eqb_str (match GmailClient.mailbox f with
                           | Some m => m
                           | None => GmailClient.INBOX
                           end)) (GmailClient.paths w) = true ->
         snd (GmailClient.fetchEmails w now f)
         = snd (GmailClient.searchUids w now
                  (match GmailClient.unreadOnly f with
                   | Some b => b
                   | None => false
                   end) (GmailClient.sinceMs f)))
  /\ (forall rq clock replies f,
         In (FetchEmails f)
            (snd (waitAndExtractUrlByRecipient rq clock replies)) ->
         f = filterOf rq).
Proof.
  repeat apply conj.
  - intros unread ms Hms H1.
    unfold asRequested, withoutWindow, seenField in *.
    unfold GmailClient.searchUids.
    destruct (Z.eqb_spec ms 0) as [|_]; [contradiction|].
    rewrite H1. simpl.
    destruct (GmailClient.isEmpty _ && unread); simpl; now eexists.
  - intros ms Hms H1 H2.
    unfold asRequested, withoutWindow, unconstrained, seenField in *.
    unfold GmailClient.searchUids.
    destruct (Z.eqb_spec ms 0) as [|_]; [contradiction|].
    rewrite H1. simpl. rewrite H2. simpl.
    destruct (GmailClient.asArray
                (GmailClient.search w (GmailClient.mkQuery None None)));
      reflexivity.
  - intros sinceMs Hs H2.
    unfold withoutWindow, unconstrained, seenField in *.
    unfold GmailClient.searchUids.
    destruct Hs as [-> | ->]; simpl; rewrite H2; simpl;
      destruct (GmailClient.asArray
                  (GmailClient.search w (GmailClient.mkQuery None None)));
      reflexivity.
  - intros unread ms Hms H1.
    unfold asRequested, seenField in *.
    unfold GmailClient.searchUids.
    destruct (Z.eqb_spec ms 0) as [|_]; [contradiction|].
    destruct (GmailClient.asArray _) as [|u us]; [contradiction|].
    simpl. reflexivity.
  - intros unread ms Hms H1 H2.
    unfold asRequested, withoutWindow, seenField in *.
    unfold GmailClient.searchUids.
    destruct (Z.eqb_spec ms 0) as [|_]; [contradiction|].
    rewrite H1. simpl.
    destruct (GmailClient.asArray
                (GmailClient.search w
                   (GmailClient.mkQuery (if unread then Some false else None)
                                        None))) as [|u us];
      [contradiction | reflexivity].
  - intros f Hc Hm. unfold GmailClient.fetchEmails. rewrite Hc, Hm. simpl.
    destruct (GmailClient.searchUids _ _ _ _) as [uids log]. reflexivity.
  - intros rq clock replies f. unfold waitAndExtractUrlByRecipient.
    destruct clock as [|start clock]; simpl; [tauto|].
    intros H. apply pollLoop_filter in H. destruct H as [[] | H]. exact H.
Qed.

Lemma search_retries_in_gateway_witness :
  let w := GmailClient.mkImap true [str "INBOX"]
             (fun q => match GmailClient.since q with
                       | Some _ => Some []
                       | None => Some [7; 8]%N
                       end)
             (fun _ => GmailClient.NoContent)
             (fun _ => None) in
  GmailClient.searchUids w 1700000000000 false (Some 86400000)
  = ([7; 8]%N, [asRequested 1700000000000 false 86400000; withoutWindow false]).
Proof.
  intros w.
  destruct (search_retries_in_gateway w 1700000000000)
    as [_ [_ [_ [_ [H _]]]]].
  apply H.
  - discriminate.
  - reflexivity.
  - discriminate.
Defined.

(* ================================================================== *)
(** * Scenarios of the specification *)

(** First cycle without a qualifying message, second cycle with one:
    the call resolves after one wait. *)
Example no_match_then_match :
  let rq := mkRequest (str "Jane+test@gmail.com") (str "verify") (str "verify")
                      (Some 60) (Some 3000) None in
  let other := mkEmail 1 None (Some 1700000000000) None
                 (Some (str "bob@example.com")) (Some [str "bob@example.com"])
                 (Some (str "Please verify"))
                 (Some (str "https://example.com/verify/other")) None in
  let mine := mkEmail 2 None (Some 1700000003000) None
                (Some (str "jane@gmail.com")) (Some [str "jane@gmail.com"])
                (Some (str "Please verify"))
                (Some (str "confirm here: https://example.com/verify/abc123."))
                None in
  waitAndExtractUrlByRecipient rq [0; 10; 3020]
    [GmailClient.Emails [other]; GmailClient.Emails [other; mine]]
  = (Resolved (str "https://example.com/verify/abc123"),
     turnEvents rq ++ [FetchEmails (filterOf rq)]).
Proof. reflexivity. Qed.

(** A message that qualifies but holds no matching link does not end
    the call: polling goes on until the deadline. *)
Example matched_message_without_link :
  let rq := mkRequest (str "jane@gmail.com") (str "verify") (str "verify")
                      (Some 1) (Some 500) None in
  let mine := mkEmail 2 None (Some 1700000003000) None
                (Some (str "jane@gmail.com")) (Some [str "jane@gmail.com"])
                (Some (str "Please verify"))
                (Some (str "see https://example.com/welcome")) None in
  waitAndExtractUrlByRecipient rq [0; 0; 1000] [GmailClient.Emails [mine]]
  = (Rejected (TimeoutError (timeoutMessage rq)), turnEvents rq).
Proof. reflexivity. Qed.

(** The gateway on a store whose windowed search finds nothing: the
    retry without the window finds three messages, the download of one
    throws, the other two come back newest first, without
    [internalDateMs]. *)
Example fetchEmails_run :
  let parsed := GmailClient.mkParsed
                  (Some (str "noreply@example.com")) (Some (str "Please verify"))
                  (Some (str "see https://example.com/verify/1")) None
                  (Some (str "jane@gmail.com")) (Some [Some (str " jane@gmail.com ")])
                  (Some 1700000000000) in
  let w := GmailClient.mkImap true [str "INBOX"]
             (fun q => match GmailClient.since q with
                       | Some _ => None
                       | None => Some [1; 2; 3]%N
                       end)
             (fun uid => if (uid =? 2)%N then GmailClient.DownloadThrows
                         else GmailClient.Content [uid])
             (fun _ => Some parsed) in
  let rq := mkRequest (str "jane@gmail.com") (str "verify") (str "verify")
                      None None None in
  exists e3 e1,
    GmailClient.fetchEmails w 1700000000000 (filterOf rq)
    = (GmailClient.Emails [e3; e1],
       [asRequested 1700000000000 false 86400000; withoutWindow false])
    /\ uid e3 = 3%N /\ uid e1 = 1%N
    /\ internalDateMs e3 = None
    /\ toAddresses e3 = Some [str "jane@gmail.com"].
Proof. intros parsed w rq. eexists _, _. repeat split. Qed.

(* ================================================================== *)
(** * More on the address normalizer *)

Lemma lower_cu_nonletter (k c : N) :
  ~ (65 <= k <= 90)%N -> ~ (97 <= k <= 122)%N ->
  (lower_cu c = k <-> c = k).
Proof.
  intros Hu Hl.
  destruct (lower_cu_cases c) as [[R E] | [R E]]; rewrite E; lia.
Qed.

Lemma In_lower (k : N) (s : jsstring) :
  ~ (65 <= k <= 90)%N -> ~ (97 <= k <= 122)%N ->
  (In k (toLowerCase s) <-> In k s).
Proof.
  intros Hu Hl. unfold toLowerCase. rewrite in_map_iff. split.
  - intros [c [E Hc]]. apply (lower_cu_nonletter k c Hu Hl) in E. now subst.
  - intros H. exists k. split; [|exact H]. now apply lower_cu_nonletter.
Qed.

Lemma In_lower_inv (k : N) (s : jsstring) :
  ~ (65 <= k <= 90)%N -> ~ (97 <= k <= 122)%N ->
  In k (toLowerCase s) -> In k s.
Proof. intros Hu Hl. now apply In_lower. Qed.

Lemma In_dropWhile (p : N -> bool) (k : N) (s : jsstring) :
  In k (dropWhile p s) -> In k s.
Proof.
  induction s as [|c s IH]; simpl; [tauto|].
  destruct (p c); [intros H; right; now apply IH | tauto].
Qed.

Lemma dropWhile_app_keep (p : N -> bool) (a : jsstring) (c : N) (b : jsstring) :
  p c = false -> dropWhile p (a ++ c :: b) = dropWhile p a ++ c :: b.
Proof.
  intros H. induction a as [|d a IH]; simpl.
  - now rewrite H.
  - destruct (p d); [exact IH | reflexivity].
Qed.

Lemma dropWhileEnd_app_keep (p : N -> bool) (a : jsstring) (c : N)
    (b : jsstring) :
  p c = false -> dropWhileEnd p (a ++ c :: b) = a ++ c :: dropWhileEnd p b.
Proof.
  intros H. unfold dropWhileEnd. rewrite rev_app_distr. simpl.
  rewrite <- app_assoc. simpl. rewrite dropWhile_app_keep by exact H.
  rewrite rev_app_distr. simpl. rewrite rev_involutive.
  now rewrite <- app_assoc.
Qed.

Lemma dropWhile_all (p : N -> bool) (a b : jsstring) :
  Forall (fun c => p c = true) a -> dropWhile p (a ++ b) = dropWhile p b.
Proof. induction 1 as [|c a H _ IH]; simpl; [reflexivity|]. now rewrite H. Qed.

Lemma dropWhileEnd_all (p : N -> bool) (a b : jsstring) :
  Forall (fun c => p c = true) b -> dropWhileEnd p (a ++ b) = dropWhileEnd p a.
Proof.
  intros H. unfold dropWhileEnd. rewrite rev_app_distr.
  rewrite dropWhile_all; [reflexivity | now apply Forall_rev].
Qed.

Lemma dropWhile_app_cases (p : N -> bool) (a b : jsstring) :
  (Forall (fun c => p c = true) a /\ dropWhile p a = [])
  \/ dropWhile p (a ++ b) = dropWhile p a ++ b.
Proof.
  induction a as [|c a IH]; simpl.
  - left. split; constructor.
  - destruct (p c) eqn:E; [|now right].
    destruct IH as [[H1 H2] | H]; [left | now right].
    split; [now constructor | exact H2].
Qed.

(** White space around an address does not count. *)
Lemma trim_padding (pre a post : jsstring) :
  Forall (fun c => is_space c = true) pre ->
  Forall (fun c => is_space c = true) post ->
  trim (pre ++ a ++ post) = trim a.
Proof.
  intros Hpre Hpost. unfold trim. rewrite dropWhile_all by exact Hpre.
  destruct (dropWhile_app_cases is_space a post) as [[Ha E] | E].
  - rewrite E, (dropWhile_all is_space a post Ha).
    rewrite <- (app_nil_r post).
    now rewrite (dropWhile_all is_space post [] Hpost).
  - rewrite E. now apply dropWhileEnd_all.
Qed.

Lemma lower_trimmed (a : jsstring) :
  trim (toLowerCase (trim a)) = toLowerCase (trim a).
Proof. now rewrite <- trim_lower, trim_idem. Qed.

(** The written form of a personal-mail address is lowered and
    trimmed. *)
Lemma personal_form (l d : jsstring) :
  lowered l -> headFails is_space l ->
  d = gmail_com \/ d = googlemail_com ->
  toLowerCase (l ++ [c_at] ++ d) = l ++ [c_at] ++ d
  /\ trim (l ++ [c_at] ++ d) = l ++ [c_at] ++ d.
Proof.
  intros Hlow Hhead Hd. split.
  - apply lowered_fix. apply lowered_app. split; [exact Hlow|].
    destruct Hd; subst d; repeat constructor.
  - unfold trim. rewrite dropWhile_fix.
    + destruct Hd; subst d;
        [change (l ++ [c_at] ++ gmail_com)
           with (l ++ (c_at :: str "gmail.co") ++ [109%N])
        |change (l ++ [c_at] ++ googlemail_com)
           with (l ++ (c_at :: str "googlemail.co") ++ [109%N])];
        rewrite app_assoc; now apply dropWhileEnd_snoc.
    + destruct l; simpl; [reflexivity | exact Hhead].
Qed.

Lemma lowered_domain_shape (d : jsstring) :
  toLowerCase d = gmail_com \/ toLowerCase d = googlemail_com ->
  ~ In c_at d /\ exists d0 c, d = d0 ++ [c] /\ is_space c = false.
Proof.
  intros Hd. split.
  - intros H.
    assert (H' : In c_at (toLowerCase d))
      by (apply In_lower; [unfold c_at; lia .. | exact H]).
    destruct Hd as [E | E]; rewrite E in H'; vm_compute in H';
      intuition discriminate.
  - assert (E : exists x, toLowerCase d = x ++ [109%N]).
    { destruct Hd as [-> | ->];
        [now exists (str "gmail.co") | now exists (str "googlemail.co")]. }
    destruct E as [x E]. unfold toLowerCase in E.
    apply map_eq_app in E. destruct E as [d0 [t [-> [_ Ht]]]].
    destruct t as [|c [|c' t]]; try discriminate.
    exists d0, c. split; [reflexivity|].
    injection Ht as Hc. rewrite <- is_space_lower, Hc. reflexivity.
Qed.

(** The normalizer on a local part, an at sign and a personal-mail
    domain in any letter case, with or without a plus tag. *)
Lemma normalize_personal (l tagged d : jsstring) :
  ~ In c_at l -> ~ In c_plus l -> ~ In c_at tagged ->
  (tagged = [] \/ exists tag, tagged = c_plus :: tag) ->
  toLowerCase d = gmail_com \/ toLowerCase d = googlemail_com ->
  normalizeGmail (l ++ tagged ++ [c_at] ++ d)
  = toLowerCase (dropWhile is_space l) ++ [c_at] ++ toLowerCase d.
Proof.
  intros Hat Hplus Htag Hshape Hd.
  destruct (lowered_domain_shape d Hd) as [Hdat [d0 [c [Ed Hc]]]].
  assert (Htrim : trim (l ++ tagged ++ [c_at] ++ d)
                  = dropWhile is_space l ++ tagged ++ [c_at] ++ d).
  { unfold trim.
    assert (E1 : dropWhile is_space (l ++ tagged ++ [c_at] ++ d)
                 = dropWhile is_space l ++ tagged ++ [c_at] ++ d).
    { destruct Hshape as [-> | [tag ->]]; simpl;
        now apply dropWhile_app_keep. }
    rewrite E1, Ed.
    replace (dropWhile is_space l ++ tagged ++ [c_at] ++ d0 ++ [c])
      with ((dropWhile is_space l ++ tagged ++ [c_at] ++ d0) ++ [c])
      by (now rewrite <- !app_assoc).
    now apply dropWhileEnd_snoc. }
  rewrite (normalize_decomposed (l ++ tagged ++ [c_at] ++ d)
             (toLowerCase (dropWhile is_space l) ++ toLowerCase tagged)
             (toLowerCase d) []).
  - replace (eqb_str (toLowerCase d) gmail_com
             || eqb_str (toLowerCase d) googlemail_com) with true
      by (destruct Hd as [-> | ->]; reflexivity).
    f_equal. destruct Hshape as [-> | [tag ->]].
    + simpl. rewrite app_nil_r. apply takeWhile_fix, isnt_all.
      intros H. apply In_lower_inv in H; [|unfold c_plus; lia ..].
      now apply In_dropWhile in H.
    + simpl. apply takeWhile_app_stop; [|reflexivity].
      apply isnt_all. intros H. apply In_lower_inv in H; [|unfold c_plus; lia ..].
      now apply In_dropWhile in H.
  - rewrite Htrim, !toLowerCase_app, app_nil_r.
    now rewrite <- !app_assoc.
  - intros H. apply in_app_or in H. destruct H as [H | H];
      (apply In_lower_inv in H; [|unfold c_at; lia ..]).
    + now apply In_dropWhile in H.
    + contradiction.
  - intros H. apply In_lower_inv in H; [|unfold c_at; lia ..]. contradiction.
  - now left.
Qed.

(* ================================================================== *)
(** * More on the URL extractor *)

Lemma token_occurrence (src a m b : jsstring) :
  src = a ++ m ++ b -> isUrlToken m -> includes src (str "://") = true.
Proof.
  intros -> [scheme [body [-> _]]]. apply includes_spec.
  exists (a ++ scheme), (body ++ b). now rewrite <- !app_assoc.
Qed.

(** X4: a text in which a colon followed by two slashes does not occur
    holds no link; the empty text in particular. *)
Theorem extractLinks_needs_scheme_mark (src : jsstring) :
  includes src (str "://") = false -> extractLinks src = [].
Proof.
  intros H. unfold extractLinks.
  destruct (execAll 0 None src) as [|m ms] eqn:E; [reflexivity|].
  exfalso.
  destruct (execAll_tokens src 0%nat None m) as [Ht [a [b Es]]];
    [rewrite E; now left|].
  rewrite (token_occurrence src a m b Es Ht) in H. discriminate.
Qed.

Lemma extractLinks_needs_scheme_mark_witness :
  extractLinks (str "Your code is 123456. Ask support@example.com: no links here.")
  = [].
Proof. apply extractLinks_needs_scheme_mark. reflexivity. Defined.

Lemma stripTrailing_token_form (scheme body : jsstring) :
  stripTrailing (scheme ++ str "://" ++ body)
  = scheme ++ str "://" ++ stripTrailing body.
Proof.
  unfold stripTrailing.
  change (scheme ++ str "://" ++ body)
    with (scheme ++ [58%N; 47%N] ++ 47%N :: body).
  rewrite app_assoc, dropWhileEnd_app_keep by reflexivity.
  now rewrite <- app_assoc.
Qed.

(** The shape of an extracted link. *)
Lemma extractLinks_link_form (src u : jsstring) :
  In u (extractLinks src) ->
  exists scheme rest,
    u = scheme ++ str "://" ++ rest
    /\ (toLowerCase scheme = str "http" \/ toLowerCase scheme = str "https")
    /\ Forall (fun c => url_char c = true) rest
    /\ includes src u = true.
Proof.
  intros H. apply extractLinks_In in H. destruct H as [m [Hm ->]].
  destruct (execAll_tokens _ _ _ _ Hm) as [Ht [a [b Es]]].
  destruct Ht as [scheme [body [Em [Hs [_ Hb]]]]].
  exists scheme, (stripTrailing body). split; [|split; [exact Hs | split]].
  - rewrite Em. apply stripTrailing_token_form.
  - destruct (stripTrailing_split body) as [t [E _]].
    rewrite E in Hb. now apply Forall_app in Hb.
  - destruct (stripTrailing_split m) as [t [E _]].
    apply includes_spec. exists a, (t ++ b). rewrite Es, E at 1.
    now rewrite <- !app_assoc.
Qed.

(** X5: every extracted link occurs in the text as it stands, begins
    with http or https in some letter case, a colon and two slashes,
    goes on with code units of the URL class only (no white space,
    angle bracket, straight quote or closing parenthesis), and does not
    end in one of the stripped characters.  What follows the slashes
    may be empty. *)
Theorem extractLinks_links_wellformed :
  (forall src u,
      In u (extractLinks src) ->
      exists scheme rest,
        u = scheme ++ str "://" ++ rest
        /\ (toLowerCase scheme = str "http"
            \/ toLowerCase scheme = str "https")
        /\ Forall (fun c => url_char c = true) rest
        /\ lastFails is_trail u
        /\ includes src u = true)
  /\ extractLinks (str "see http://. and more") = [str "http://"].
Proof.
  split; [|reflexivity]. intros src u H.
  destruct (extractLinks_link_form src u H) as [scheme [rest [E [Hs [Hr Hi]]]]].
  exists scheme, rest. repeat (split; [assumption|]). split; [|exact Hi].
  apply extractLinks_In in H. destruct H as [m [_ ->]].
  destruct (stripTrailing_split m) as [t [_ [_ Hl]]]. exact Hl.
Qed.

Lemma extractLinks_links_wellformed_witness :
  exists scheme rest,
    str "HTTPS://Example.com/Verify?x=1" = scheme ++ str "://" ++ rest
    /\ (toLowerCase scheme = str "http" \/ toLowerCase scheme = str "https")
    /\ Forall (fun c => url_char c = true) rest
    /\ lastFails is_trail (str "HTTPS://Example.com/Verify?x=1")
    /\ includes (str "Go to <HTTPS://Example.com/Verify?x=1>.")
                (str "HTTPS://Example.com/Verify?x=1") = true.
Proof.
  destruct extractLinks_links_wellformed as [H _].
  apply (H (str "Go to <HTTPS://Example.com/Verify?x=1>.")).
  vm_compute. now left.
Defined.

Lemma token_nonempty (m : jsstring) : isUrlToken m -> m <> [].
Proof.
  intros [scheme [body [-> [Hs _]]]] H.
  apply app_eq_nil in H. destruct H as [-> _].
  destruct Hs; discriminate.
Qed.

Lemma skipn_app_exact (m rest : jsstring) :
  skipn (List.length m) (m ++ rest) = rest.
Proof. induction m; simpl; [reflexivity | assumption]. Qed.

Lemma execAll_tiled (s : jsstring) :
  forall k prev, Tiled (skipn k s) (execAll k prev s).
Proof.
  induction s as [|c s IH]; intros k prev.
  - simpl. destruct k; constructor.
  - destruct k as [|k]; simpl; [|apply IH].
    destruct (matchAt prev (c :: s)) as [m|] eqn:E.
    + destruct (matchAt_shape _ _ _ E) as [rest [Es [Ht Hrest]]].
      rewrite Es. constructor; [exact Ht | exact Hrest |].
      pose proof (token_nonempty m Ht) as Hne.
      destruct m as [|c' m']; [contradiction|].
      simpl in Es. injection Es as <- ->.
      specialize (IH (List.length m') (Some c)).
      rewrite skipn_app_exact in IH.
      simpl. now rewrite Nat.sub_0_r.
    + constructor. apply (IH 0%nat).
Qed.

Lemma tiled_length (s : jsstring) (ms : list jsstring) :
  Tiled s ms -> (List.length (List.concat ms) <= List.length s)%nat.
Proof.
  induction 1; simpl.
  - lia.
  - lia.
  - rewrite !length_app. lia.
Qed.

(** X6: the matches of the scan lie in the text in their order and
    apart from each other, and each one runs on to the end of the text
    or to a code unit outside the URL class; so the matches together
    are no longer than the text. *)
Theorem execAll_matches_tiled (src : jsstring) :
  Tiled src (execAll 0 None src)
  /\ (List.length (List.concat (execAll 0 None src)) <= List.length src)%nat.
Proof.
  assert (H : Tiled src (execAll 0 None src)) by apply (execAll_tiled src 0%nat).
  split; [exact H | now apply tiled_length].
Qed.

(* ================================================================== *)
(** * More on the candidate filter and the selector *)

Lemma includes_empty (s : jsstring) : includes s [] = true.
Proof. destruct s; reflexivity. Qed.

Lemma normalizeGmail_blank (r : jsstring) : trim r = [] -> normalizeGmail r = [].
Proof. intros H. unfold normalizeGmail. now rewrite H. Qed.

Lemma find_always (l : list jsstring) :
  find (fun u => includes (toLowerCase u) []) l = hd_error l.
Proof. destruct l as [|u l]; simpl; [reflexivity|]. now rewrite includes_empty. Qed.

(** X7: a blank keyword matches everything.  With a recipient that is
    empty or white space only, every message passes the recipient test
    and the subject alone decides; with an empty subject keyword the
    recipient alone decides; with an empty URL keyword the cycle yields
    the first link of the chosen message. *)
Theorem blank_keywords_match_everything :
  (forall r needle e,
      trim r = [] ->
      qualifies (normalizeGmail r) needle e
      = includes (toLowerCase (orEmpty (subject e))) needle)
  /\ (forall target e,
         qualifies target [] e
         = (existsb (eqb_str target) (map normalizeGmail (toAddrs e))
            || includes (toLowerCase (orEmpty (to e))) target))
  /\ (forall target sneedle emails,
         pollCycle target sneedle [] emails
         = match latestOf (filter (qualifies target sneedle) emails) with
           | Some latest => hd_error (extractLinks (pickBody latest))
           | None => None
           end).
Proof.
  repeat apply conj.
  - intros r needle e H. unfold qualifies.
    rewrite (normalizeGmail_blank r H), includes_empty.
    now rewrite orb_true_r, andb_true_r.
  - intros target e. unfold qualifies. now rewrite includes_empty.
  - intros target sneedle emails. rewrite pollCycle_spec.
    destruct (latestOf _); [apply find_always | reflexivity].
Qed.

Lemma blank_keywords_match_everything_witness :
  let e := mkEmail 7 None None None (Some (str "bob@example.com"))
                   (Some [str "bob@example.com"]) (Some (str "Please verify"))
                   None None in
  qualifies (normalizeGmail (str "   ")) (str "verify") e = true.
Proof.
  intros e. destruct blank_keywords_match_everything as [H _].
  rewrite H; reflexivity.
Defined.

Lemma splitRuns_concat (p : N -> bool) (s : jsstring) :
  forall inrun cur,
    List.concat (splitRuns p inrun cur s)
    = rev cur ++ filter (fun c => negb (p c)) s.
Proof.
  induction s as [|c s IH]; intros inrun cur; simpl.
  - reflexivity.
  - destruct (p c) eqn:E; simpl.
    + destruct inrun; [apply IH|]. simpl. now rewrite IH.
    + rewrite IH. simpl. now rewrite <- app_assoc.
Qed.

Lemma splitRuns_whole (p : N -> bool) (s : jsstring) :
  Forall (fun c => p c = false) s ->
  forall inrun cur, splitRuns p inrun cur s = [rev cur ++ s].
Proof.
  induction 1 as [|c s H _ IH]; intros inrun cur; simpl.
  - now rewrite app_nil_r.
  - rewrite H, IH. simpl. now rewrite <- app_assoc.
Qed.

Lemma splitRuns_nonempty (p : N -> bool) (s : jsstring) :
  forall inrun cur, splitRuns p inrun cur s <> [].
Proof.
  induction s as [|c s IH]; intros inrun cur; simpl; [discriminate|].
  destruct (p c); [destruct inrun|]; [apply IH | discriminate | apply IH].
Qed.

(** X8: when a message has no parsed recipient addresses, the address
    list taken from its raw header loses nothing but the separators:
    the pieces put together are the header without commas and white
    space; a header without any separator is one piece, itself (the
    empty header gives one empty address); and without a header there
    is no address. *)
Theorem toAddrs_from_header (e : Email) :
  toAddresses e = None \/ toAddresses e = Some [] ->
  (forall t, to e = Some t ->
             List.concat (toAddrs e)
             = filter (fun c => negb (is_addr_sep c)) t
             /\ toAddrs e <> []
             /\ (Forall (fun c => is_addr_sep c = false) t ->
                 toAddrs e = [t]))
  /\ (to e = None -> toAddrs e = []).
Proof.
  intros H.
  assert (E : toAddrs e = match to e with
                          | Some t => splitRuns is_addr_sep false [] t
                          | None => []
                          end).
  { unfold toAddrs. destruct H as [-> | ->]; reflexivity. }
  rewrite E. split.
  - intros t ->. split; [apply splitRuns_concat|].
    split; [apply splitRuns_nonempty|].
    intros Hn. now rewrite splitRuns_whole.
  - now intros ->.
Qed.

Lemma toAddrs_from_header_witness :
  let e := mkEmail 7 None None None (Some (str "jane@gmail.com"))
                   None (Some (str "Please verify")) None None in
  toAddrs e = [str "jane@gmail.com"].
Proof.
  intros e. destruct (toAddrs_from_header e) as [H _]; [now left|].
  destruct (H (str "jane@gmail.com") eq_refl) as [_ [_ Hw]].
  apply Hw. vm_compute. repeat constructor.
Defined.

(** X9: the sort callback is a consistent comparator: zero on a
    message and itself, antisymmetric, transitive, and zero exactly on
    messages with the same two keys. *)
Theorem byReceived_consistent :
  (forall a, byReceived a a = 0)
  /\ (forall a b, byReceived b a = - byReceived a b)
  /\ (forall a b c, byReceived a b <= 0 -> byReceived b c <= 0 ->
                    byReceived a c <= 0)
  /\ (forall a b, byReceived a b = 0 <->
                  primaryKey a = primaryKey b
                  /\ secondaryKey a = secondaryKey b).
Proof.
  repeat apply conj.
  - intros a. unfold byReceived. rewrite Z.eqb_refl. simpl. lia.
  - intros a b. unfold byReceived.
    fold (primaryKey a) (primaryKey b) (secondaryKey a) (secondaryKey b).
    destruct (Z.eqb_spec (primaryKey b) (primaryKey a));
      destruct (Z.eqb_spec (primaryKey a) (primaryKey b)); simpl; lia.
  - intros a b c. rewrite !byReceived_le.
    unfold ranksAtMost, ranksBelow. lia.
  - intros a b. unfold byReceived.
    fold (primaryKey a) (primaryKey b) (secondaryKey a) (secondaryKey b).
    destruct (Z.eqb_spec (primaryKey b) (primaryKey a)); simpl; lia.
Qed.

Lemma byReceived_consistent_witness :
  let a := mkEmail 1 None (Some 30) None None None None None None in
  let b := mkEmail 2 None (Some 20) None None None None None None in
  let c := mkEmail 3 None (Some 10) None None None None None None in
  byReceived a c <= 0.
Proof.
  intros a b c. destruct byReceived_consistent as [_ [_ [H _]]].
  apply (H a b c); vm_compute; discriminate.
Defined.

(** X10: sorting the candidates rearranges them, loses and adds none,
    puts them in the order of the callback, and keeps messages with
    the same two keys in the order they came in. *)
Theorem candidates_sort_stable (candidates : list Email) :
  Permutation candidates (sortBy byReceived candidates)
  /\ Sorted (fun a b => byReceived a b <= 0) (sortBy byReceived candidates)
  /\ (forall k, filter (sameRank k) (sortBy byReceived candidates)
                = filter (sameRank k) candidates).
Proof.
  split; [apply sortBy_perm|]. split; [apply sortBy_sorted|].
  intros k. apply sortBy_stable.
Qed.

(* ================================================================== *)
(** * More on the poll loop *)

(** Turns on which the loop body finds nothing to return leave the
    loop where it was, two events later each. *)
Lemma pollLoop_quiet_prefix (rq : PollRequest) (deadline : Z) (early : list Z) :
  forall quiet clock replies tr,
    List.length early = List.length quiet ->
    Forall (fun t => t < deadline) early ->
    Forall (quietReply rq) quiet ->
    pollLoop rq deadline (early ++ clock) (quiet ++ replies) tr
    = pollLoop rq deadline clock replies
        (tr ++ flat_map (fun _ => turnEvents rq) early).
Proof.
  induction early as [|t early IH]; intros quiet clock replies tr Hlen He Hq.
  - destruct quiet; [|discriminate]. simpl. now rewrite app_nil_r.
  - destruct quiet as [|r quiet]; [discriminate|].
    inversion He as [|? ? Ht He']; subst. inversion Hq as [|? ? Hr Hq']; subst.
    destruct Hr as [emails [-> Hc]]. simpl.
    destruct (Z.ltb_spec t deadline); [|lia].
    fold (cycleOf rq emails). rewrite Hc.
    rewrite IH; auto. now rewrite <- !app_assoc.
Qed.

(** X11: a failure of the gateway ends the call at once.  After any
    number of turns without success, a gateway call that fails before
    the deadline makes the call reject with that failure; the call is
    not repeated and no wait follows. *)
Theorem gateway_failure_ends_poll (rq : PollRequest) (start : Z)
    (early : list Z) (quiet : list GmailClient.Fetched) (now : Z)
    (rest : list Z) (err : GmailClient.GatewayError)
    (more : list GmailClient.Fetched) :
  List.length early = List.length quiet ->
  Forall (fun t => t < start + timeoutSeconds rq * 1000) early ->
  Forall (quietReply rq) quiet ->
  now < start + timeoutSeconds rq * 1000 ->
  waitAndExtractUrlByRecipient rq (start :: early ++ now :: rest)
    (quiet ++ GmailClient.Failed err :: more)
  = (Rejected (Gateway err),
     flat_map (fun _ => turnEvents rq) early ++ [FetchEmails (filterOf rq)]).
Proof.
  intros Hlen He Hq Hnow. unfold waitAndExtractUrlByRecipient.
  rewrite pollLoop_quiet_prefix by assumption. simpl.
  destruct (Z.ltb_spec now (start + timeoutSeconds rq * 1000)); [|lia].
  reflexivity.
Qed.

Lemma gateway_failure_ends_poll_witness :
  let rq := mkRequest (str "jane@gmail.com") (str "verify") (str "verify")
                      (Some 60) (Some 3000) None in
  waitAndExtractUrlByRecipient rq [0; 5; 3010; 6020]
    [GmailClient.Emails []; GmailClient.Failed GmailClient.ConnectFailed;
     GmailClient.Emails []]
  = (Rejected (Gateway GmailClient.ConnectFailed),
     turnEvents rq ++ [FetchEmails (filterOf rq)]).
Proof.
  intros rq.
  apply (gateway_failure_ends_poll rq 0 [5] [GmailClient.Emails []] 3010
           [6020] GmailClient.ConnectFailed [GmailClient.Emails []]).
  - reflexivity.
  - repeat constructor.
  - repeat constructor. exists []. split; reflexivity.
  - reflexivity.
Defined.

(** X12: the call resolves on the first cycle that yields a URL.
    After any number of turns without success, a gateway answer before
    the deadline on which the cycle yields a URL makes the call resolve
    with it, one wait per earlier turn and none after. *)
Theorem first_success_resolves (rq : PollRequest) (start : Z)
    (early : list Z) (quiet : list GmailClient.Fetched) (now : Z)
    (rest : list Z) (emails : list Email) (url : jsstring)
    (more : list GmailClient.Fetched) :
  List.length early = List.length quiet ->
  Forall (fun t => t < start + timeoutSeconds rq * 1000) early ->
  Forall (quietReply rq) quiet ->
  now < start + timeoutSeconds rq * 1000 ->
  cycleOf rq emails = Some url ->
  waitAndExtractUrlByRecipient rq (start :: early ++ now :: rest)
    (quiet ++ GmailClient.Emails emails :: more)
  = (Resolved url,
     flat_map (fun _ => turnEvents rq) early ++ [FetchEmails (filterOf rq)]).
Proof.
  intros Hlen He Hq Hnow Hc. unfold waitAndExtractUrlByRecipient.
  rewrite pollLoop_quiet_prefix by assumption. simpl.
  destruct (Z.ltb_spec now (start + timeoutSeconds rq * 1000)); [|lia].
  fold (cycleOf rq emails). now rewrite Hc.
Qed.

Lemma first_success_resolves_witness :
  let rq := mkRequest (str "Jane+test@gmail.com") (str "verify") (str "verify")
                      (Some 60) (Some 3000) None in
  let mine := mkEmail 2 None (Some 1700000003000) None
                (Some (str "jane@gmail.com")) (Some [str "jane@gmail.com"])
                (Some (str "Please verify"))
                (Some (str "confirm here: https://example.com/verify/abc123."))
                None in
  waitAndExtractUrlByRecipient rq [0; 10; 3020; 6030]
    [GmailClient.Emails []; GmailClient.Emails []; GmailClient.Emails [mine]]
  = (Resolved (str "https://example.com/verify/abc123"),
     turnEvents rq ++ turnEvents rq ++ [FetchEmails (filterOf rq)]).
Proof.
  intros rq mine.
  apply (first_success_resolves rq 0 [10; 3020]
           [GmailClient.Emails []; GmailClient.Emails []] 6030 [] [mine]
           (str "https://example.com/verify/abc123") []).
  - reflexivity.
  - repeat constructor.
  - repeat constructor; exists []; split; reflexivity.
  - reflexivity.
  - reflexivity.
Defined.

Lemma pollLoop_trace (rq : PollRequest) (deadline : Z) (clock : list Z) :
  forall replies tr,
  exists n tail,
    snd (pollLoop rq deadline clock replies tr)
    = tr ++ List.concat (repeat (turnEvents rq) n) ++ tail
    /\ (tail = [] \/ tail = [FetchEmails (filterOf rq)])
    /\ (n + List.length tail
        <= List.length (filter (fun t => (t <? deadline)%Z) clock))%nat
    /\ (n <= List.length replies)%nat
    /\ match fst (pollLoop rq deadline clock replies tr) with
       | Resolved _ => tail = [FetchEmails (filterOf rq)]
       | Rejected (Gateway _) => tail = [FetchEmails (filterOf rq)]
       | Rejected (TimeoutError _) => tail = []
       | Unfinished => True
       end.
Proof.
  induction clock as [|now clock IH]; intros replies tr; simpl.
  - exists 0%nat, []. simpl. rewrite app_nil_r. repeat split; auto; lia.
  - destruct (now <? deadline) eqn:Hnow.
    + destruct replies as [|[emails|err] replies].
      * exists 0%nat, [FetchEmails (filterOf rq)]. simpl.
        repeat split; auto; lia.
      * destruct (pollCycle _ _ _ emails) as [url|] eqn:Hc.
        -- exists 0%nat, [FetchEmails (filterOf rq)]. simpl.
           repeat split; auto; lia.
        -- destruct (IH replies
                       ((tr ++ [FetchEmails (filterOf rq)])
                        ++ [Wait (pollIntervalMs rq)]))
             as [n [tail [E [Ht [Hn [Hr Ho]]]]]].
           exists (S n), tail. rewrite E. simpl.
           split; [now rewrite <- !app_assoc|].
           repeat split; auto; lia.
      * exists 0%nat, [FetchEmails (filterOf rq)]. simpl.
        repeat split; auto; lia.
    + exists 0%nat, []. simpl. rewrite app_nil_r. repeat split; auto; lia.
Qed.

(** X13: what a call does to the outside is a number of unsuccessful
    turns, each one gateway call with the configured filter followed by
    one wait of the poll interval, and then at most one more gateway
    call; that last call is there when the call resolves or the
    gateway fails and is not there on a timeout.  There are no more
    gateway calls than clock values below the deadline and no more
    waits than gateway answers. *)
Theorem poll_trace_shape (rq : PollRequest) (start : Z) (clock : list Z)
    (replies : list GmailClient.Fetched) :
  exists n tail,
    snd (waitAndExtractUrlByRecipient rq (start :: clock) replies)
    = List.concat (repeat (turnEvents rq) n) ++ tail
    /\ (tail = [] \/ tail = [FetchEmails (filterOf rq)])
    /\ (n + List.length tail
        <= List.length
             (filter (fun t => (t <? start + timeoutSeconds rq * 1000)%Z)
                     clock))%nat
    /\ (n <= List.length replies)%nat
    /\ match fst (waitAndExtractUrlByRecipient rq (start :: clock) replies) with
       | Resolved _ => tail = [FetchEmails (filterOf rq)]
       | Rejected (Gateway _) => tail = [FetchEmails (filterOf rq)]
       | Rejected (TimeoutError _) => tail = []
       | Unfinished => True
       end.
Proof.
  unfold waitAndExtractUrlByRecipient.
  destruct (pollLoop_trace rq (start + timeoutSeconds rq * 1000) clock
              replies []) as [n [tail H]].
  exists n, tail. exact H.
Qed.

Lemma latestOf_member (cs : list Email) (m : Email) :
  latestOf cs = Some m -> In m cs.
Proof.
  intros H. destruct cs as [|c cs]; [discriminate|].
  destruct (latestOf_first_greatest (c :: cs)) as [m' [b [a [Hm [E _]]]]];
    [discriminate|].
  rewrite H in Hm. injection Hm as <-. rewrite E.
  apply in_or_app. right. now left.
Qed.

(** X14: the URL a call resolves with comes from the message chosen on
    one of the gateway answers: that message is in the answer and
    qualifies, the URL is one of the links of its body and occurs in
    the body as it stands, begins with http or https in some letter
    case, a colon and two slashes, and its lowercased form contains
    the lowercased URL keyword. *)
Theorem resolved_url_origin (rq : PollRequest) (clock : list Z)
    (replies : list GmailClient.Fetched) (url : jsstring) (tr : list Event) :
  waitAndExtractUrlByRecipient rq clock replies = (Resolved url, tr) ->
  exists emails latest,
    In (GmailClient.Emails emails) replies
    /\ In latest emails
    /\ qualifies (normalizeGmail (recipientEmail rq))
                 (toLowerCase (subjectKeyword rq)) latest = true
    /\ In url (extractLinks (pickBody latest))
    /\ includes (pickBody latest) url = true
    /\ includes (toLowerCase url) (toLowerCase (urlKeyword rq)) = true
    /\ exists scheme rest,
         url = scheme ++ str "://" ++ rest
         /\ (toLowerCase scheme = str "http"
             \/ toLowerCase scheme = str "https").
Proof.
  unfold waitAndExtractUrlByRecipient.
  destruct clock as [|start clock]; [discriminate|]. intros H.
  apply pollLoop_resolved in H. destruct H as [emails [Hin Hc]].
  unfold cycleOf in Hc. rewrite pollCycle_spec in Hc.
  destruct (latestOf _) as [latest|] eqn:El; [|discriminate].
  apply latestOf_member in El. apply filter_In in El. destruct El as [Hl Hq].
  apply find_some in Hc. destruct Hc as [Hu Hk].
  destruct (extractLinks_link_form _ _ Hu) as [scheme [rest [E [Hs [_ Hi]]]]].
  exists emails, latest. repeat (split; [assumption|]).
  now exists scheme, rest.
Qed.

Lemma resolved_url_origin_witness :
  let rq := mkRequest (str "Jane+test@gmail.com") (str "Verify") (str "VERIFY")
                      (Some 60) (Some 3000) None in
  let mine := mkEmail 2 None (Some 1700000003000) None
                (Some (str "jane@gmail.com")) (Some [str "jane@gmail.com"])
                (Some (str "Please verify"))
                (Some (str "confirm here: https://example.com/verify/abc123."))
                None in
  exists emails latest,
    In (GmailClient.Emails emails) [GmailClient.Emails [mine]]
    /\ In latest emails
    /\ qualifies (normalizeGmail (recipientEmail rq))
                 (toLowerCase (subjectKeyword rq)) latest = true
    /\ In (str "https://example.com/verify/abc123")
          (extractLinks (pickBody latest))
    /\ includes (pickBody latest) (str "https://example.com/verify/abc123")
       = true
    /\ includes (toLowerCase (str "https://example.com/verify/abc123"))
                (toLowerCase (urlKeyword rq)) = true
    /\ exists scheme rest,
         str "https://example.com/verify/abc123" = scheme ++ str "://" ++ rest
         /\ (toLowerCase scheme = str "http"
             \/ toLowerCase scheme = str "https").
Proof.
  intros rq mine.
  apply (resolved_url_origin rq [0; 10] [GmailClient.Emails [mine]]
           (str "https://example.com/verify/abc123")
           [FetchEmails (filterOf rq)]).
  reflexivity.
Defined.

(* ================================================================== *)
(** * More on the gateway *)

Section GatewayResults.

Import GmailClient.

Variable w : Imap.
Variable f : EmailFilter.

Lemma processMessage_pushes (u : N) (e : Email) :
  processMessage w f u = Pushes e -> wellFormedResult f u e.
Proof.
  unfold processMessage.
  destruct (download w u) as [| |raw]; try discriminate.
  destruct (simpleParser w raw) as [parsed|]; [|discriminate].
  destruct (passes (fromContains f) _) eqn:Hf; [|discriminate].
  destruct (passes (subjectContains f) _) eqn:Hs; [|discriminate].
  destruct (passes (bodyIncludes f) _) eqn:Hb; [|discriminate].
  simpl. intros H. injection H as <-. unfold wellFormedResult. simpl.
  split; [reflexivity|]. split; [reflexivity|].
  split; [now eexists|]. split; [now eexists|]. split; [now eexists|].
  split; [exact Hb|]. eexists. split; [reflexivity|].
  destruct (p_to_value parsed) as [vs|]; [|constructor].
  apply Forall_forall. intros a Ha. apply filter_In in Ha.
  destruct Ha as [Ha Hne]. split; [now destruct a|].
  apply in_map_iff in Ha. destruct Ha as [v [<- _]]. apply trim_idem.
Qed.

Lemma pushedBy_In (l : list N) (e : Email) :
  In e (pushedBy w f l) <->
  exists u, In u l /\ processMessage w f u = Pushes e.
Proof.
  unfold pushedBy. rewrite in_flat_map. split.
  - intros [u [Hu He]]. exists u. split; [exact Hu|].
    destruct (processMessage w f u) as [| |e']; try contradiction.
    destruct He as [-> | []]. reflexivity.
  - intros [u [Hu He]]. exists u. split; [exact Hu|]. rewrite He. now left.
Qed.

Lemma pushedBy_uids (l : list N) :
  map uid (pushedBy w f l) = filter (pushesOn w f) l.
Proof.
  induction l as [|u l IH]; simpl; [reflexivity|].
  unfold pushesOn at 1. destruct (processMessage w f u) as [| |e] eqn:E;
    simpl; try exact IH.
  apply processMessage_pushes in E. destruct E as [-> _]. now rewrite IH.
Qed.

(** The loop returns the results of a front part of the UID list. *)
Lemma collect_prefix (lim : Z) (ordered : list N) :
  forall results,
  exists n,
    (n <= List.length ordered)%nat
    /\ collect w f lim results ordered
       = results ++ pushedBy w f (firstn n ordered).
Proof.
  induction ordered as [|u rest IH]; intros results; simpl.
  - exists 0%nat. simpl. now rewrite app_nil_r.
  - destruct (processMessage w f u) as [| |e] eqn:E.
    + destruct (IH results) as [n [Hn Hc]]. exists (S n). simpl.
      rewrite E. simpl. split; [lia | exact Hc].
    + destruct (IH results) as [n [Hn Hc]]. exists (S n). simpl.
      rewrite E. simpl. split; [lia | exact Hc].
    + destruct (_ >=? lim).
      * exists 1%nat. simpl. rewrite E. simpl. split; [lia | reflexivity].
      * destruct (IH (results ++ [e])) as [n [Hn Hc]]. exists (S n). simpl.
        rewrite E. simpl. split; [lia|]. now rewrite Hc, <- app_assoc.
Qed.

Lemma collect_cap (lim : Z) (ordered : list N) :
  forall results,
    Z.of_nat (List.length (collect w f lim results ordered))
    <= Z.max lim (Z.of_nat (List.length results) + 1).
Proof.
  induction ordered as [|u rest IH]; intros results; simpl; [lia|].
  destruct (processMessage w f u) as [| |e]; try apply IH.
  destruct (Z.geb_spec (Z.of_nat (List.length (results ++ [e]))) lim)
    as [Hge|Hlt].
  - rewrite length_app. simpl. lia.
  - specialize (IH (results ++ [e])). rewrite length_app in *. simpl in *.
    lia.
Qed.

Variable now : Z.

(** What a successful call has gone through. *)
Lemma fetched_results (es : list Email) (log : list SearchQuery) :
  fetchEmails w now f = (Emails es, log) ->
  connects w = true
  /\ In (mailboxOf f) (paths w)
  /\ es = collect w f (limitOf f) []
            (slice0 (Z.max (limitOf f * 3) (limitOf f)) (uidOrder w now f))
  /\ log = snd (searchUids w now (unreadOf f) (sinceMs f)).
Proof.
  unfold fetchEmails, uidOrder.
  fold (mailboxOf f) (unreadOf f) (limitOf f) (newestFirstOf f).
  destruct (connects w); [|discriminate]. simpl.
  destruct (existsb (eqb_str (mailboxOf f)) (paths w)) eqn:Hm; [|discriminate].
  simpl. destruct (searchUids w now (unreadOf f) (sinceMs f)) as [uids lg].
  simpl. intros H. injection H as <- <-.
  split; [reflexivity|]. split; [now apply existsb_eqb_In|].
  split; reflexivity.
Qed.

Lemma slice0_firstn (k : Z) (l : list N) :
  exists n, slice0 k l = firstn n l /\ (0 <= k -> Z.of_nat n <= k).
Proof.
  unfold slice0. eexists. split; [reflexivity|].
  destruct (Z.ltb_spec k 0); lia.
Qed.

Lemma fetched_prefix (es : list Email) (log : list SearchQuery) :
  fetchEmails w now f = (Emails es, log) ->
  exists n,
    es = pushedBy w f (firstn n (uidOrder w now f))
    /\ (0 <= limitOf f -> Z.of_nat n <= 3 * limitOf f).
Proof.
  intros H. apply fetched_results in H. destruct H as [_ [_ [-> _]]].
  destruct (slice0_firstn (Z.max (limitOf f * 3) (limitOf f))
              (uidOrder w now f)) as [k [-> Hk]].
  destruct (collect_prefix (limitOf f) (firstn k (uidOrder w now f)) [])
    as [n [Hn ->]].
  exists (Nat.min n k). rewrite firstn_firstn. split; [reflexivity|].
  intros Hl. lia.
Qed.

Lemma fetched_wellFormed (es : list Email) (log : list SearchQuery) :
  fetchEmails w now f = (Emails es, log) ->
  Forall (fun e => wellFormedResult f (uid e) e
                   /\ In (uid e) (uidOrder w now f)) es.
Proof.
  intros H. destruct (fetched_prefix es log H) as [n [-> _]].
  apply Forall_forall. intros e He. apply pushedBy_In in He.
  destruct He as [u [Hu Hp]]. apply processMessage_pushes in Hp.
  assert (Eu : uid e = u) by apply Hp. rewrite Eu.
  split; [exact Hp|].
  rewrite <- (firstn_skipn n (uidOrder w now f)). apply in_or_app. now left.
Qed.

End GatewayResults.

(** X15: every message a successful gateway call returns carries the
    UID it was read under, which is one the search found, and no
    [internalDateMs]; its subject, sender and raw recipient header are
    strings, and subject, sender and body passed the filter of the
    call; its recipient addresses are trimmed and none is empty. *)
Theorem gateway_results_wellformed (w : GmailClient.Imap) (now : Z)
    (f : GmailClient.EmailFilter) (es : list Email)
    (log : list GmailClient.SearchQuery) :
  GmailClient.fetchEmails w now f = (GmailClient.Emails es, log) ->
  Forall (fun e => wellFormedResult f (uid e) e
                   /\ In (uid e) (uidOrder w now f)) es.
Proof. apply fetched_wellFormed. Qed.

(** X16: a successful gateway call returns at most [limit] messages
    when the limit is positive, none when it is zero, and at most one
    when it is negative. *)
Theorem gateway_limit_cap (w : GmailClient.Imap) (now : Z)
    (f : GmailClient.EmailFilter) (es : list Email)
    (log : list GmailClient.SearchQuery) :
  GmailClient.fetchEmails w now f = (GmailClient.Emails es, log) ->
  Z.of_nat (List.length es) <= Z.max (limitOf f) 1
  /\ (limitOf f = 0 -> es = []).
Proof.
  intros H. apply fetched_results in H. destruct H as [_ [_ [-> _]]]. split.
  - apply (collect_cap w f (limitOf f) _ []).
  - intros ->. unfold GmailClient.slice0. simpl.
    rewrite Z.min_l by lia. reflexivity.
Qed.

(** X17: the messages of a successful gateway call are, in order, the
    results of a front part of the UIDs found, taken newest first
    unless the call says otherwise; UIDs that throw or are filtered out
    leave no trace; and with a limit that is not negative that front
    part has at most three times the limit UIDs. *)
Theorem gateway_results_in_order (w : GmailClient.Imap) (now : Z)
    (f : GmailClient.EmailFilter) (es : list Email)
    (log : list GmailClient.SearchQuery) :
  GmailClient.fetchEmails w now f = (GmailClient.Emails es, log) ->
  exists n,
    es = pushedBy w f (firstn n (uidOrder w now f))
    /\ map uid es = filter (pushesOn w f) (firstn n (uidOrder w now f))
    /\ (0 <= limitOf f -> Z.of_nat n <= 3 * limitOf f).
Proof.
  intros H. destruct (fetched_prefix w f now es log H) as [n [-> Hn]].
  exists n. split; [reflexivity|]. split; [apply pushedBy_uids | exact Hn].
Qed.

(** X19: the gateway sends between one and three searches, and the
    UIDs it goes on with are those of the first search sent that found
    something, none if no search did. *)
Theorem search_takes_first_finding (w : GmailClient.Imap) (now : Z)
    (unread : bool) (sinceMs : option Z) :
  (1 <= List.length (snd (GmailClient.searchUids w now unread sinceMs)) <= 3)%nat
  /\ fst (GmailClient.searchUids w now unread sinceMs)
     = match find (finds w)
                  (snd (GmailClient.searchUids w now unread sinceMs)) with
       | Some q => GmailClient.asArray (GmailClient.search w q)
       | None => []
       end.
Proof.
  unfold GmailClient.searchUids, finds.
  destruct sinceMs as [ms|]; [destruct (ms =? 0)|]; destruct unread;
    repeat (simpl;
            match goal with
            | H : GmailClient.asArray (GmailClient.search w ?q) = _
              |- context [GmailClient.asArray (GmailClient.search w ?q)] =>
                rewrite H
            | |- context [GmailClient.asArray (GmailClient.search w ?q)] =>
                destruct (GmailClient.asArray (GmailClient.search w q)) eqn:?
            end);
    simpl; split; try lia; reflexivity.
Qed.

Lemma gateway_results_wellformed_witness :
  let parsed := GmailClient.mkParsed
                  (Some (str "noreply@example.com")) (Some (str "Please verify"))
                  (Some (str "see https://example.com/verify/1")) None
                  (Some (str "jane@gmail.com"))
                  (Some [Some (str " jane@gmail.com "); None])
                  (Some 1700000000000) in
  let w := GmailClient.mkImap true [str "INBOX"]
             (fun _ => Some [1; 2; 3]%N)
             (fun uid => if (uid =? 2)%N then GmailClient.DownloadThrows
                         else GmailClient.Content [uid])
             (fun _ => Some parsed) in
  let f := GmailClient.mkFilter None None None (Some (str "VERIFY")) None None
             None None None None in
  match GmailClient.fetchEmails w 1700000000000 f with
  | (GmailClient.Emails es, _) =>
      Forall (fun e => wellFormedResult f (uid e) e
                       /\ In (uid e) (uidOrder w 1700000000000 f)) es
  | _ => False
  end.
Proof.
  intros parsed w f.
  remember (GmailClient.fetchEmails w 1700000000000 f) as r eqn:E.
  destruct r as [[es|err] log].
  - apply (gateway_results_wellformed w 1700000000000 f es log).
    now symmetry.
  - vm_compute in E. discriminate.
Defined.

Lemma gateway_limit_cap_witness :
  let parsed := GmailClient.mkParsed
                  (Some (str "noreply@example.com")) (Some (str "Please verify"))
                  (Some (str "see https://example.com/verify/1")) None
                  (Some (str "jane@gmail.com")) (Some [Some (str "jane@gmail.com")])
                  (Some 1700000000000) in
  let w := GmailClient.mkImap true [str "INBOX"]
             (fun _ => Some [1; 2; 3; 4; 5]%N)
             (fun uid => GmailClient.Content [uid])
             (fun _ => Some parsed) in
  let f := GmailClient.mkFilter None None None None None None
             (Some 2) None None None in
  match GmailClient.fetchEmails w 1700000000000 f with
  | (GmailClient.Emails es, _) =>
      Z.of_nat (List.length es) <= Z.max (limitOf f) 1
      /\ (limitOf f = 0 -> es = [])
  | _ => False
  end.
Proof.
  intros parsed w f.
  remember (GmailClient.fetchEmails w 1700000000000 f) as r eqn:E.
  destruct r as [[es|err] log].
  - apply (gateway_limit_cap w 1700000000000 f es log). now symmetry.
  - vm_compute in E. discriminate.
Defined.

Lemma gateway_results_in_order_witness :
  let parsed := GmailClient.mkParsed
                  (Some (str "noreply@example.com")) (Some (str "Please verify"))
                  (Some (str "see https://example.com/verify/1")) None
                  (Some (str "jane@gmail.com")) (Some [Some (str "jane@gmail.com")])
                  (Some 1700000000000) in
  let w := GmailClient.mkImap true [str "INBOX"]
             (fun _ => Some [1; 2; 3; 4; 5]%N)
             (fun uid => if (uid =? 4)%N then GmailClient.DownloadThrows
                         else GmailClient.Content [uid])
             (fun _ => Some parsed) in
  let f := GmailClient.mkFilter None None None None None None
             (Some 2) None None None in
  match GmailClient.fetchEmails w 1700000000000 f with
  | (GmailClient.Emails es, _) =>
      exists n,
        es = pushedBy w f (firstn n (uidOrder w 1700000000000 f))
        /\ map uid es
           = filter (pushesOn w f) (firstn n (uidOrder w 1700000000000 f))
        /\ (0 <= limitOf f -> Z.of_nat n <= 3 * limitOf f)
  | _ => False
  end.
Proof.
  intros parsed w f.
  remember (GmailClient.fetchEmails w 1700000000000 f) as r eqn:E.
  destruct r as [[es|err] log].
  - apply (gateway_results_in_order w 1700000000000 f es log). now symmetry.
  - vm_compute in E. discriminate.
Defined.

(** X20: on every answer of the gateway to the filter the engine
    sends, the subject test of the engine holds already: each message
    has a subject whose lowercased form contains the lowercased subject
    keyword, so whether it qualifies is decided by the recipient
    alone. *)
Theorem engine_subject_test_implied (w : GmailClient.Imap) (now : Z)
    (rq : PollRequest) (es : list Email) (log : list GmailClient.SearchQuery) :
  GmailClient.fetchEmails w now (filterOf rq) = (GmailClient.Emails es, log) ->
  Forall (fun e =>
            includes (toLowerCase (orEmpty (subject e)))
                     (toLowerCase (subjectKeyword rq)) = true
            /\ forall target,
                 qualifies target (toLowerCase (subjectKeyword rq)) e
                 = (existsb (eqb_str target) (map normalizeGmail (toAddrs e))
                    || includes (toLowerCase (orEmpty (to e))) target)) es.
Proof.
  intros H. apply fetched_wellFormed in H.
  eapply Forall_impl; [|exact H]. intros e [Hw _].
  destruct Hw as [_ [_ [[s [Es Hs]] _]]].
  assert (Hsub : includes (toLowerCase (orEmpty (subject e)))
                          (toLowerCase (subjectKeyword rq)) = true).
  { rewrite Es. simpl. unfold GmailClient.passes in Hs. simpl in Hs.
    destruct (subjectKeyword rq) as [|c kw]; [apply includes_empty|].
    exact Hs. }
  split; [exact Hsub|]. intros target. unfold qualifies. now rewrite Hsub.
Qed.

Lemma engine_subject_test_implied_witness :
  let parsed := GmailClient.mkParsed
                  (Some (str "noreply@example.com")) (Some (str "Please Verify"))
                  (Some (str "see https://example.com/verify/1")) None
                  (Some (str "jane@gmail.com")) (Some [Some (str "jane@gmail.com")])
                  (Some 1700000000000) in
  let w := GmailClient.mkImap true [str "INBOX"]
             (fun _ => Some [1; 2; 3]%N)
             (fun uid => GmailClient.Content [uid])
             (fun _ => Some parsed) in
  let rq := mkRequest (str "jane@gmail.com") (str "VERIFY") (str "verify")
                      None None None in
  match GmailClient.fetchEmails w 1700000000000 (filterOf rq) with
  | (GmailClient.Emails es, _) =>
      Forall (fun e =>
                includes (toLowerCase (orEmpty (subject e)))
                         (toLowerCase (subjectKeyword rq)) = true
                /\ forall target,
                     qualifies target (toLowerCase (subjectKeyword rq)) e
                     = (existsb (eqb_str target)
                                (map normalizeGmail (toAddrs e))
                        || includes (toLowerCase (orEmpty (to e))) target)) es
  | _ => False
  end.
Proof.
  intros parsed w rq.
  remember (GmailClient.fetchEmails w 1700000000000 (filterOf rq)) as r eqn:E.
  destruct r as [[es|err] log].
  - apply (engine_subject_test_implied w 1700000000000 rq es log).
    now symmetry.
  - vm_compute in E. discriminate.
Defined.

(** X21: on an answer of the gateway the engine chooses by [date]
    alone, since no message of the gateway carries [internalDateMs]:
    of the qualifying messages it takes the first one with the latest
    date, a missing date counting as the oldest. *)
Theorem gateway_answer_selected_by_date (w : GmailClient.Imap) (now : Z)
    (f : GmailClient.EmailFilter) (es : list Email)
    (log : list GmailClient.SearchQuery) (target needle : jsstring) :
  GmailClient.fetchEmails w now f = (GmailClient.Emails es, log) ->
  filter (qualifies target needle) es <> [] ->
  exists m before after,
    latestOf (filter (qualifies target needle) es) = Some m
    /\ filter (qualifies target needle) es = before ++ m :: after
    /\ Forall (fun x => secondaryKey x < secondaryKey m) before
    /\ Forall (fun x => secondaryKey x <= secondaryKey m) after.
Proof.
  intros H Hne. apply fetched_wellFormed in H.
  assert (Hkey : forall x, In x (filter (qualifies target needle) es) ->
                           primaryKey x = 0).
  { intros x Hx. apply filter_In in Hx. destruct Hx as [Hx _].
    rewrite Forall_forall in H. destruct (H x Hx) as [[_ [Hi _]] _].
    unfold primaryKey. now rewrite Hi. }
  destruct (latestOf_first_greatest _ Hne) as [m [before [after [Hm [E [Hb Ha]]]]]].
  exists m, before, after. split; [exact Hm|]. split; [exact E|].
  assert (Hm0 : primaryKey m = 0).
  { apply Hkey. rewrite E. apply in_or_app. right. now left. }
  split; apply Forall_forall; intros x Hx.
  - rewrite Forall_forall in Hb. specialize (Hb x Hx).
    assert (Hx0 : primaryKey x = 0).
    { apply Hkey. rewrite E. apply in_or_app. now left. }
    unfold ranksBelow in Hb. lia.
  - rewrite Forall_forall in Ha. specialize (Ha x Hx).
    assert (Hx0 : primaryKey x = 0).
    { apply Hkey. rewrite E. apply in_or_app. right. now right. }
    unfold ranksAtMost, ranksBelow in Ha. lia.
Qed.

Lemma gateway_answer_selected_by_date_witness :
  let w := GmailClient.mkImap true [str "INBOX"]
             (fun _ => Some [1; 2; 3]%N)
             (fun uid => GmailClient.Content [uid])
             (fun raw => Some (GmailClient.mkParsed
                                 (Some (str "noreply@example.com"))
                                 (Some (str "Please verify"))
                                 (Some (str "see https://example.com/verify/1"))
                                 None (Some (str "jane@gmail.com"))
                                 (Some [Some (str "jane@gmail.com")])
                                 (match raw with
                                  | [2%N] => Some 1700000009000
                                  | _ => Some 1700000000000
                                  end))) in
  let f := GmailClient.mkFilter None None None None None None
             None None None None in
  match GmailClient.fetchEmails w 1700000000000 f with
  | (GmailClient.Emails es, _) =>
      exists m before after,
        latestOf (filter (qualifies (str "jane@gmail.com") (str "verify")) es)
        = Some m
        /\ filter (qualifies (str "jane@gmail.com") (str "verify")) es
           = before ++ m :: after
        /\ Forall (fun x => secondaryKey x < secondaryKey m) before
        /\ Forall (fun x => secondaryKey x <= secondaryKey m) after
  | _ => False
  end.
Proof.
  intros w f.
  remember (GmailClient.fetchEmails w 1700000000000 f) as r eqn:E.
  destruct r as [[es|err] log].
  - apply (gateway_answer_selected_by_date w 1700000000000 f es log).
    + now symmetry.
    + vm_compute in E. injection E as -> _. vm_compute. discriminate.
  - vm_compute in E. discriminate.
Defined.

(* ================================================================== *)
(** * The helpers around the session *)

Lemma replaceRuns_drop (p : N -> bool) (s : jsstring) :
  forall inrun, replaceRuns p [] inrun s = filter (fun c => negb (p c)) s.
Proof.
  induction s as [|c s IH]; intros inrun; simpl; [reflexivity|].
  destruct (p c); simpl; [destruct inrun; apply IH | now rewrite IH].
Qed.

Lemma filter_idem (A : Type) (q : A -> bool) (l : list A) :
  filter q (filter q l) = filter q l.
Proof.
  induction l as [|x l IH]; simpl; [reflexivity|].
  destruct (q x) eqn:E; simpl; [now rewrite E, IH | exact IH].
Qed.

(** X22: the app password is taken with all its white space removed
    and nothing else changed: what is left are its other code units in
    their order; cleaning a cleaned password changes nothing, and two
    passwords that differ in white space only are cleaned to the same
    string. *)
Theorem normalizeAppPassword_strips_space :
  (forall p, normalizeAppPassword p = filter (fun c => negb (is_space c)) p)
  /\ (forall p, Forall (fun c => is_space c = false) (normalizeAppPassword p))
  /\ (forall p, normalizeAppPassword (normalizeAppPassword p)
                = normalizeAppPassword p)
  /\ (forall p q, normalizeAppPassword (p ++ q)
                  = normalizeAppPassword p ++ normalizeAppPassword q)
  /\ (forall p, Forall (fun c => is_space c = false) p ->
                normalizeAppPassword p = p).
Proof.
  assert (H : forall p, normalizeAppPassword p
                        = filter (fun c => negb (is_space c)) p)
    by (intros p; apply replaceRuns_drop).
  split; [exact H|]. repeat apply conj.
  - intros p. rewrite H. apply Forall_forall. intros c Hc.
    apply filter_In in Hc. now apply negb_true_iff.
  - intros p. rewrite !H. apply filter_idem.
  - intros p q. rewrite !H. apply filter_app.
  - intros p Hp. rewrite H. induction Hp as [|c p Hc _ IH]; simpl;
      [reflexivity|]. now rewrite Hc, IH.
Qed.

Lemma normalizeAppPassword_strips_space_witness :
  normalizeAppPassword (str "abcdefghijklmnop") = str "abcdefghijklmnop"
  /\ normalizeAppPassword (str "abcd efgh  ijkl mnop ")
     = str "abcdefghijklmnop".
Proof.
  destruct normalizeAppPassword_strips_space as [_ [_ [_ [_ H]]]].
  split; [|reflexivity]. apply H. vm_compute. repeat constructor.
Defined.

(** X23: the credentials check passes exactly when both variables are
    set to a string that is not empty; when it fails, its message
    names a variable exactly when that variable is missing. *)
Theorem assertEnv_names_missing (env : jsstring -> option jsstring) :
  (assertEnv env = None <->
   truthy (env GMAIL_USER) = true /\ truthy (env GMAIL_PASS) = true)
  /\ (forall message,
         assertEnv env = Some message ->
         (includes message GMAIL_USER = true <->
          truthy (env GMAIL_USER) = false)
         /\ (includes message GMAIL_PASS = true <->
             truthy (env GMAIL_PASS) = false)).
Proof.
  unfold assertEnv. cbn [filter].
  destruct (truthy (env GMAIL_USER)); destruct (truthy (env GMAIL_PASS));
    cbn [negb]; split.
  - split; [now intros _ | reflexivity].
  - intros message H. discriminate.
  - split; [discriminate | intros [_ H]; discriminate].
  - intros message H. injection H as <-.
    split; split; intros H; try reflexivity; try discriminate;
      try (vm_compute in H; discriminate).
  - split; [discriminate | intros [H _]; discriminate].
  - intros message H. injection H as <-.
    split; split; intros H; try reflexivity; try discriminate;
      try (vm_compute in H; discriminate).
  - split; [discriminate | intros [H _]; discriminate].
  - intros message H. injection H as <-.
    split; split; intros H; try reflexivity; discriminate.
Qed.

Lemma assertEnv_names_missing_witness :
  let env := fun k : jsstring =>
               if eqb_str k GMAIL_USER then Some (str "me@gmail.com")
               else if eqb_str k GMAIL_PASS then Some []
               else None in
  exists message,
    assertEnv env = Some message
    /\ includes message GMAIL_PASS = true
    /\ includes message GMAIL_USER = false.
Proof.
  intros env. eexists. split; [reflexivity|].
  destruct (assertEnv_names_missing env) as [_ H].
  destruct (H _ eq_refl) as [Hu Hp]. split.
  - apply Hp. reflexivity.
  - apply not_true_is_false. intros Hc. apply Hu in Hc. discriminate.
Defined.

Lemma singleSpaced_app (a b : jsstring) :
  singleSpaced (a ++ b) -> singleSpaced a /\ singleSpaced b.
Proof.
  induction a as [|x a IH]; simpl; [tauto|]. intros [Hx Ht].
  destruct (IH Ht) as [Ha Hb]. split; [|exact Hb]. split; [|exact Ha].
  destruct a as [|y a]; [exact I | exact Hx].
Qed.

Lemma dropWhileEnd_split (p : N -> bool) (s : jsstring) :
  exists t, s = dropWhileEnd p s ++ t.
Proof.
  exists (rev (takeWhile p (rev s))). unfold dropWhileEnd.
  rewrite <- rev_app_distr. now rewrite takeWhile_dropWhile, rev_involutive.
Qed.

Lemma headFails_firstn (p : N -> bool) (n : nat) (s : jsstring) :
  headFails p s -> headFails p (firstn n s).
Proof. destruct s, n; simpl; auto. Qed.

(** The replacement of white-space runs by one space each. *)
Lemma replaceRuns_spaced (s : jsstring) :
  forall inrun,
    singleSpaced (replaceRuns is_space [32%N] inrun s)
    /\ (inrun = true ->
        headFails is_space (replaceRuns is_space [32%N] inrun s))
    /\ Forall (fun c => is_space c = true -> c = 32%N)
              (replaceRuns is_space [32%N] inrun s).
Proof.
  induction s as [|c s IH]; intros inrun; simpl.
  - repeat split; auto.
  - destruct (is_space c) eqn:E.
    + destruct (IH true) as [H1 [H2 H3]]. specialize (H2 eq_refl).
      destruct inrun; [repeat split; auto|].
      simpl. split; [|split; [discriminate | now constructor]].
      split; [|exact H1].
      destruct (replaceRuns is_space [32%N] true s) as [|b r]; [exact I|].
      simpl in H2. simpl. now rewrite H2.
    + destruct (IH false) as [H1 [_ H3]].
      split; [|split; [intros _; exact E|]].
      * split; [|exact H1].
        destruct (replaceRuns is_space [32%N] false s); [exact I|].
        now rewrite E.
      * constructor; [|exact H3]. intros H. congruence.
Qed.

(** X24: the snippet of a message has at most 200 code units, does not
    begin with white space, holds no white space other than the space
    character, and never two spaces in a row. *)
Theorem snippet_form (bodyText : jsstring) :
  (List.length (snippetOf bodyText) <= 200)%nat
  /\ headFails is_space (snippetOf bodyText)
  /\ Forall (fun c => is_space c = true -> c = 32%N) (snippetOf bodyText)
  /\ singleSpaced (snippetOf bodyText).
Proof.
  unfold snippetOf.
  set (r := replaceRuns is_space [32%N] false bodyText).
  destruct (replaceRuns_spaced bodyText false) as [H1 [_ H3]]. fold r in H1, H3.
  assert (Ecut : exists a b, r = a ++ firstn 200 (trim r) ++ b).
  { unfold trim.
    destruct (dropWhileEnd_split is_space (dropWhile is_space r)) as [t Et].
    exists (takeWhile is_space r),
           (skipn 200 (dropWhileEnd is_space (dropWhile is_space r)) ++ t).
    rewrite app_assoc with (m := skipn _ _), firstn_skipn, <- Et.
    now rewrite takeWhile_dropWhile. }
  destruct Ecut as [a [b Ecut]].
  split; [apply firstn_le_length|].
  split; [apply headFails_firstn, trim_headFails|]. split.
  - rewrite Ecut in H3. apply Forall_app in H3. destruct H3 as [_ H3].
    now apply Forall_app in H3.
  - rewrite Ecut in H1. apply singleSpaced_app in H1. destruct H1 as [_ H1].
    now apply singleSpaced_app in H1.
Qed.

(* ================================================================== *)
(** * The address normalizer over any lowercasing *)

(** The Basic Latin map has what [Lowering] asks. *)
Lemma basic_latin_lowering : Lowering toLowerCase.
Proof.
  constructor.
  - apply toLowerCase_idem.
  - apply trim_lower.
  - intros x c y Hc. rewrite toLowerCase_app. simpl.
    destruct Hc as [-> | ->]; reflexivity.
  - intros c s Hc. apply In_lower_inv; destruct Hc as [-> | ->];
      unfold c_plus, c_at; lia.
  - reflexivity.
Qed.

(** [normalizeGmail] is the normalizer at the Basic Latin map. *)
Lemma normalizeGmail_instance (addr : jsstring) :
  normalizeGmail addr = normalizeGmailWith toLowerCase addr.
Proof. reflexivity. Qed.

Lemma pivot_unique (c : N) (x x' y y' : jsstring) :
  ~ In c x -> ~ In c x' -> x ++ c :: y = x' ++ c :: y' -> x = x' /\ y = y'.
Proof.
  revert x'. induction x as [|a x IH]; intros x' Hx Hx' E.
  - destruct x' as [|a' x']; simpl in E.
    + injection E as ->. now split.
    + injection E as <- _. exfalso. apply Hx'. now left.
  - destruct x' as [|a' x']; simpl in E.
    + injection E as -> _. exfalso. apply Hx. now left.
    + injection E as <- E. destruct (IH x') as [-> ->]; auto.
      * intros H. apply Hx. now right.
      * intros H. apply Hx'. now right.
Qed.

Lemma at_decomposes (L : jsstring) :
  In c_at L ->
  exists l d r, L = l ++ [c_at] ++ d ++ r /\ ~ In c_at l /\ ~ In c_at d
                /\ (r = [] \/ exists r', r = c_at :: r').
Proof.
  intros H. destruct (first_sep _ _ H) as [l [t [E Hl]]].
  exists l, (takeWhile (isnt c_at) t), (dropWhile (isnt c_at) t).
  split; [|split; [exact Hl | split]].
  - simpl. now rewrite takeWhile_dropWhile.
  - apply isnt_all, takeWhile_all.
  - pose proof (dropWhile_headFails (isnt c_at) t) as Hh.
    destruct (dropWhile (isnt c_at) t) as [|c r']; [now left | right].
    simpl in Hh. apply negb_false_iff, N.eqb_eq in Hh. subst c. now exists r'.
Qed.

(** A string that starts and ends with code units that are no white
    space is trimmed. *)
Lemma trim_fixed (x : jsstring) (c : N) :
  headFails is_space (x ++ [c]) -> is_space c = false ->
  trim (x ++ [c]) = x ++ [c].
Proof.
  intros Hh Hc. unfold trim. rewrite dropWhile_fix by exact Hh.
  now apply dropWhileEnd_snoc.
Qed.

Lemma personal_domain_end (d : jsstring) :
  d = gmail_com \/ d = googlemail_com ->
  exists d0, d = d0 ++ [109%N] /\ ~ In c_at d
             /\ Forall (fun c => (c < 128)%N) d /\ toLowerCase d = d.
Proof.
  intros [-> | ->];
    [exists (str "gmail.co") | exists (str "googlemail.co")];
    (split; [reflexivity|]); (split; [vm_compute; intuition discriminate|]);
    (split; [|reflexivity]); repeat constructor.
Qed.

Section AnyLowering.

Variable lower : jsstring -> jsstring.
Hypothesis HL : Lowering lower.

Lemma low_trimmed (a : jsstring) : trim (lower (trim a)) = lower (trim a).
Proof. now rewrite <- (lowering_trim HL), trim_idem. Qed.

Lemma low_canonical (a : jsstring) :
  lower (trim (lower (trim a))) = lower (trim a).
Proof. now rewrite low_trimmed, (lowering_idem HL). Qed.

Lemma low_headFails (a : jsstring) : headFails is_space (lower (trim a)).
Proof. rewrite <- low_trimmed. apply trim_headFails. Qed.

Lemma normalizeWith_of_low (a : jsstring) :
  normalizeGmailWith lower (lower (trim a)) = normalizeGmailWith lower a.
Proof. unfold normalizeGmailWith. now rewrite low_canonical. Qed.

(** What the destructuring of line 8 binds, and the result. *)
Lemma normalizeWith_decomposed (a l d r : jsstring) :
  lower (trim a) = l ++ [c_at] ++ d ++ r ->
  ~ In c_at l -> ~ In c_at d -> (r = [] \/ exists r', r = c_at :: r') ->
  normalizeGmailWith lower a =
    if eqb_str d gmail_com || eqb_str d googlemail_com
    then takeWhile (isnt c_plus) l ++ [c_at] ++ d
    else lower (trim a).
Proof.
  intros E Hl Hd Hr. unfold normalizeGmailWith.
  assert (Hin : includes (lower (trim a)) [c_at] = true).
  { rewrite E. apply includes_mid. }
  rewrite Hin. simpl negb. cbv iota.
  destruct (split_at_decomposed l d r Hl Hd Hr) as [rest Hs].
  rewrite E at 1. rewrite Hs, split_hd. reflexivity.
Qed.

Lemma normalizeWith_plain (a : jsstring) :
  ~ In c_at (lower (trim a)) -> normalizeGmailWith lower a = lower (trim a).
Proof.
  intros H. unfold normalizeGmailWith.
  destruct (includes (lower (trim a)) [c_at]) eqn:Hin; [|reflexivity].
  apply includes_unit in Hin. contradiction.
Qed.

(** In a lowered string, what stands before the first plus sign or at
    sign is lowered. *)
Lemma low_front_fixed (x : jsstring) (c : N) (y : jsstring) :
  c = c_plus \/ c = c_at -> ~ In c x ->
  lower (x ++ c :: y) = x ++ c :: y -> lower x = x.
Proof.
  intros Hc Hx E. rewrite (lowering_cut HL) in E by exact Hc.
  apply pivot_unique in E; [now destruct E | | exact Hx].
  intros H. apply Hx. now apply (@lowering_marks lower HL c x Hc).
Qed.

Lemma low_local_fixed (a l rest : jsstring) :
  lower (trim a) = l ++ c_at :: rest -> ~ In c_at l ->
  lower (takeWhile (isnt c_plus) l) = takeWhile (isnt c_plus) l.
Proof.
  intros E Hl.
  pose proof (lowering_idem HL (trim a)) as Hfix. rewrite E in Hfix.
  pose proof (takeWhile_dropWhile (isnt c_plus) l) as Hcut.
  pose proof (dropWhile_headFails (isnt c_plus) l) as Hh.
  assert (Hno : ~ In c_plus (takeWhile (isnt c_plus) l))
    by apply isnt_all, takeWhile_all.
  destruct (dropWhile (isnt c_plus) l) as [|c t] eqn:Ed.
  - rewrite app_nil_r in Hcut. rewrite Hcut.
    apply (low_front_fixed l c_at rest); [now right | exact Hl | exact Hfix].
  - simpl in Hh. apply negb_false_iff, N.eqb_eq in Hh. subst c.
    rewrite <- Hcut, <- app_assoc in Hfix. simpl in Hfix.
    apply (low_front_fixed _ c_plus _ (or_introl eq_refl) Hno Hfix).
Qed.

(** A lowered local part, an at sign and a personal-mail domain make
    a lowered and trimmed string. *)
Lemma low_personal (l0 d : jsstring) :
  lower l0 = l0 -> headFails is_space l0 ->
  d = gmail_com \/ d = googlemail_com ->
  lower (l0 ++ [c_at] ++ d) = l0 ++ [c_at] ++ d
  /\ trim (l0 ++ [c_at] ++ d) = l0 ++ [c_at] ++ d.
Proof.
  intros Hl Hh Hd.
  destruct (personal_domain_end d Hd) as [d0 [Ed [_ [Hascii Hfix]]]]. split.
  - simpl. rewrite (lowering_cut HL) by now right.
    now rewrite Hl, (@lowering_ascii lower HL d Hascii), Hfix.
  - rewrite Ed.
    replace (l0 ++ [c_at] ++ d0 ++ [109%N])
      with ((l0 ++ [c_at] ++ d0) ++ [109%N]) by (now rewrite <- !app_assoc).
    apply trim_fixed; [|reflexivity].
    rewrite <- app_assoc. destruct l0; simpl; [reflexivity | exact Hh].
Qed.

(** The result in its two forms: the lowered, trimmed argument, or a
    lowered local part without plus and at sign before a personal-mail
    domain. *)
Lemma normalizeWith_forms (a : jsstring) :
  normalizeGmailWith lower a = lower (trim a)
  \/ exists l0 d,
       normalizeGmailWith lower a = l0 ++ [c_at] ++ d
       /\ lower l0 = l0 /\ headFails is_space l0
       /\ ~ In c_at l0 /\ ~ In c_plus l0
       /\ (d = gmail_com \/ d = googlemail_com).
Proof.
  destruct (includes (lower (trim a)) [c_at]) eqn:Hin.
  - apply includes_unit in Hin.
    destruct (at_decomposes _ Hin) as [l [d [r [E [Hl [Hd Hr]]]]]].
    rewrite (normalizeWith_decomposed a l d r E Hl Hd Hr).
    destruct (eqb_str d gmail_com || eqb_str d googlemail_com) eqn:Hg;
      [right | now left].
    exists (takeWhile (isnt c_plus) l), d. split; [reflexivity|].
    split; [apply (low_local_fixed a l (d ++ r)); [exact E | exact Hl]|].
    split.
    { apply headFails_takeWhile. pose proof (low_headFails a) as Hh.
      rewrite E in Hh. destruct l; [exact I | exact Hh]. }
    split.
    { intros H. apply Hl. rewrite <- (takeWhile_dropWhile (isnt c_plus) l).
      apply in_or_app. now left. }
    split; [apply isnt_all, takeWhile_all|].
    apply orb_true_iff in Hg. rewrite !eqb_str_true in Hg. exact Hg.
  - left. apply normalizeWith_plain. intros H.
    apply includes_unit in H. congruence.
Qed.

Lemma normalizeWith_personal_fixed (l0 d : jsstring) :
  lower l0 = l0 -> headFails is_space l0 ->
  ~ In c_at l0 -> ~ In c_plus l0 ->
  d = gmail_com \/ d = googlemail_com ->
  normalizeGmailWith lower (l0 ++ [c_at] ++ d) = l0 ++ [c_at] ++ d.
Proof.
  intros Hl Hh Hat Hplus Hd.
  destruct (low_personal l0 d Hl Hh Hd) as [Hlow Htrim].
  destruct (personal_domain_end d Hd) as [_ [_ [Hdat _]]].
  rewrite (normalizeWith_decomposed (l0 ++ [c_at] ++ d) l0 d []).
  - replace (eqb_str d gmail_com || eqb_str d googlemail_com) with true
      by (destruct Hd; subst d; reflexivity).
    rewrite takeWhile_fix; [reflexivity | now apply isnt_all].
  - now rewrite Htrim, Hlow, app_nil_r.
  - exact Hat.
  - exact Hdat.
  - now left.
Qed.

Lemma normalizeWith_idempotent (a : jsstring) :
  normalizeGmailWith lower (normalizeGmailWith lower a)
  = normalizeGmailWith lower a.
Proof.
  destruct (normalizeWith_forms a) as [E | [l0 [d [E [Hl [Hh [Hat [Hp Hd]]]]]]]].
  - rewrite E at 1. rewrite normalizeWith_of_low. reflexivity.
  - rewrite E. now apply normalizeWith_personal_fixed.
Qed.

Lemma normalizeWith_lowered_trimmed (a : jsstring) :
  lower (normalizeGmailWith lower a) = normalizeGmailWith lower a
  /\ trim (normalizeGmailWith lower a) = normalizeGmailWith lower a.
Proof.
  destruct (normalizeWith_forms a) as [E | [l0 [d [E [Hl [Hh [_ [_ Hd]]]]]]]];
    rewrite E.
  - split; [apply (lowering_idem HL) | apply low_trimmed].
  - now apply low_personal.
Qed.

Lemma normalizeWith_same_low (a b : jsstring) :
  lower (trim a) = lower (trim b) ->
  normalizeGmailWith lower a = normalizeGmailWith lower b.
Proof. intros E. unfold normalizeGmailWith. now rewrite E. Qed.

(** The normalizer on a local part, a plus tag or none, an at sign and
    a domain that lowers to a personal-mail domain. *)
Lemma normalizeWith_personal (l tagged d : jsstring) :
  ~ In c_at l -> ~ In c_plus l -> ~ In c_at tagged ->
  (tagged = [] \/ exists tag, tagged = c_plus :: tag) ->
  lower d = gmail_com \/ lower d = googlemail_com ->
  normalizeGmailWith lower (l ++ tagged ++ [c_at] ++ d)
  = dropWhile is_space (lower l) ++ [c_at] ++ lower d.
Proof.
  intros Hat Hplus Htag Hshape Hd.
  destruct (personal_domain_end (lower d) Hd) as [d0 [Ed [Hdat _]]].
  assert (Hlat : ~ In c_at (lower l)).
  { intros H. apply Hat. apply (@lowering_marks lower HL c_at l); [now right | exact H]. }
  assert (Hlplus : ~ In c_plus (lower l)).
  { intros H. apply Hplus. apply (@lowering_marks lower HL c_plus l); [now left | exact H]. }
  assert (Hlow : exists tagged',
             lower (l ++ tagged ++ [c_at] ++ d)
             = lower l ++ tagged' ++ [c_at] ++ lower d
             /\ ~ In c_at tagged'
             /\ (tagged' = [] \/ exists tag', tagged' = c_plus :: tag')).
  { destruct Hshape as [-> | [tag ->]].
    - exists []. simpl. rewrite (lowering_cut HL) by now right.
      split; [reflexivity|]. split; [intros []|now left].
    - exists (c_plus :: lower tag). simpl.
      rewrite (lowering_cut HL) by now left.
      rewrite (lowering_cut HL) by now right.
      split; [reflexivity|]. split; [|right; now eexists].
      intros [H | H]; [discriminate|]. apply Htag. right.
      apply (@lowering_marks lower HL c_at tag); [now right | exact H]. }
  destruct Hlow as [tagged' [Elow [Htag' Hshape']]].
  assert (Htrim : lower (trim (l ++ tagged ++ [c_at] ++ d))
                  = dropWhile is_space (lower l) ++ tagged' ++ [c_at]
                    ++ lower d).
  { rewrite (lowering_trim HL), Elow. unfold trim.
    assert (E1 : dropWhile is_space (lower l ++ tagged' ++ [c_at] ++ lower d)
                 = dropWhile is_space (lower l) ++ tagged' ++ [c_at]
                   ++ lower d).
    { destruct Hshape' as [-> | [tag' ->]]; simpl;
        now apply dropWhile_app_keep. }
    rewrite E1, Ed.
    replace (dropWhile is_space (lower l) ++ tagged' ++ [c_at] ++ d0 ++ [109%N])
      with ((dropWhile is_space (lower l) ++ tagged' ++ [c_at] ++ d0)
            ++ [109%N]) by (now rewrite <- !app_assoc).
    now apply dropWhileEnd_snoc. }
  rewrite (normalizeWith_decomposed (l ++ tagged ++ [c_at] ++ d)
             (dropWhile is_space (lower l) ++ tagged') (lower d) []).
  - replace (eqb_str (lower d) gmail_com || eqb_str (lower d) googlemail_com)
      with true by (destruct Hd as [-> | ->]; reflexivity).
    f_equal. destruct Hshape' as [-> | [tag' ->]].
    + rewrite app_nil_r. apply takeWhile_fix, isnt_all.
      intros H. apply Hlplus. now apply In_dropWhile in H.
    + apply takeWhile_app_stop; [|reflexivity].
      apply isnt_all. intros H. apply Hlplus. now apply In_dropWhile in H.
  - rewrite Htrim, app_nil_r. now rewrite <- !app_assoc.
  - intros H. apply in_app_or in H. destruct H as [H | H].
    + apply Hlat. now apply In_dropWhile in H.
    + contradiction.
  - exact Hdat.
  - now left.
Qed.

End AnyLowering.

(** C6: the address normalizer is idempotent, for every address, with
    any lowercasing in the place of the built-in one that has what
    [Lowering] says of it. *)
Theorem normalizeGmailWith_idempotent (lower : jsstring -> jsstring)
    (a : jsstring) :
  Lowering lower ->
  normalizeGmailWith lower (normalizeGmailWith lower a)
  = normalizeGmailWith lower a.
Proof. intros HL. now apply normalizeWith_idempotent. Qed.

Lemma normalizeGmailWith_idempotent_witness :
  normalizeGmail (normalizeGmail (str "  Jane.Doe+News@GoogleMail.COM "))
  = normalizeGmail (str "  Jane.Doe+News@GoogleMail.COM ")
  /\ normalizeGmail (str "  Jane.Doe+News@GoogleMail.COM ")
     = str "jane.doe@googlemail.com".
Proof.
  split; [|reflexivity].
  exact (normalizeGmailWith_idempotent toLowerCase
           (str "  Jane.Doe+News@GoogleMail.COM ") basic_latin_lowering).
Defined.

(** C7 holds for an address with one at sign and fails on the code for
    an address with two: the destructuring of line 8 takes the text
    between the first and the second at sign for the domain, so an
    address whose domain, all that follows the first at sign, is not a
    personal-mail domain is rewritten to another mailbox when the text
    up to a second at sign is one; line 4 speaks of stripping the plus
    alias only.  With one at sign, under any lowercasing: a
    personal-mail domain gives the local part up to its first plus
    sign, an at sign and the domain, any other domain the trimmed
    lowercased address. *)
Theorem normalizeGmail_second_at_sign :
  (let a := str "jane+test@gmail.com@evil.example" in
   domainAfterFirstAt (toLowerCase (trim a)) = str "gmail.com@evil.example"
   /\ normalizeGmail a = str "jane@gmail.com"
   /\ normalizeGmail a <> toLowerCase (trim a))
  /\ (forall lower a l d r',
         lower (trim a) = l ++ [c_at] ++ d ++ c_at :: r' ->
         ~ In c_at l -> ~ In c_at d ->
         d = gmail_com \/ d = googlemail_com ->
         normalizeGmailWith lower a
         = takeWhile (isnt c_plus) l ++ [c_at] ++ d)
  /\ (forall lower a l d,
         lower (trim a) = l ++ [c_at] ++ d ->
         ~ In c_at l -> ~ In c_at d ->
         domainAfterFirstAt (lower (trim a)) = d
         /\ (d = gmail_com \/ d = googlemail_com ->
             normalizeGmailWith lower a
             = takeWhile (isnt c_plus) l ++ [c_at] ++ d
             /\ ~ In c_plus (takeWhile (isnt c_plus) l))
         /\ (d <> gmail_com -> d <> googlemail_com ->
             normalizeGmailWith lower a = lower (trim a)))
  /\ normalizeGmail (str "User+tag@gmail.com")
     = normalizeGmail (str "user@gmail.com")
  /\ normalizeGmail (str "A+b@example.com") = str "a+b@example.com".
Proof.
  split; [repeat split; discriminate|].
  split; [|split; [|split; reflexivity]].
  - intros lower a l d r' E Hl Hd Hg.
    rewrite (normalizeWith_decomposed lower a l d (c_at :: r') E Hl Hd)
      by (right; now eexists).
    replace (eqb_str d gmail_com || eqb_str d googlemail_com) with true;
      [reflexivity|].
    symmetry. apply orb_true_iff. rewrite !eqb_str_true. exact Hg.
  - intros lower a l d E Hl Hd.
    assert (E' : lower (trim a) = l ++ [c_at] ++ d ++ [])
      by (now rewrite app_nil_r).
    pose proof (normalizeWith_decomposed lower a l d [] E' Hl Hd
                  (or_introl eq_refl)) as H.
    split; [|split].
    + rewrite E. unfold domainAfterFirstAt.
      assert (Hdrop : dropWhile (isnt c_at) (l ++ [c_at] ++ d) = c_at :: d).
      { clear -Hl. induction l as [|c l IH]; simpl; [reflexivity|].
        unfold isnt at 1. destruct (N.eqb_spec c c_at) as [->|_]; simpl.
        - exfalso. apply Hl. now left.
        - apply IH. intros Hin. apply Hl. now right. }
      now rewrite Hdrop.
    + intros Hg. split; [|apply isnt_all, takeWhile_all]. rewrite H.
      replace (eqb_str d gmail_com || eqb_str d googlemail_com) with true;
        [reflexivity|].
      symmetry. apply orb_true_iff. rewrite !eqb_str_true. exact Hg.
    + intros H1 H2. rewrite H.
      replace (eqb_str d gmail_com || eqb_str d googlemail_com) with false;
        [reflexivity|].
      symmetry. apply orb_false_iff.
      split; apply not_true_is_false; rewrite eqb_str_true; assumption.
Qed.

Lemma normalizeGmail_second_at_sign_witness :
  normalizeGmail (str " Jane+Test@GMAIL.com@x ") = str "jane@gmail.com"
  /\ normalizeGmail (str "A+b@Example.com") = str "a+b@example.com".
Proof.
  destruct normalizeGmail_second_at_sign as [_ [H2 [H1 _]]]. split.
  - apply (H2 toLowerCase (str " Jane+Test@GMAIL.com@x ") (str "jane+test")
              gmail_com (str "x")).
    + reflexivity.
    + vm_compute. intuition discriminate.
    + vm_compute. intuition discriminate.
    + now left.
  - destruct (H1 toLowerCase (str "A+b@Example.com") (str "a+b")
                 (str "example.com")) as [_ [_ Ho]].
    + reflexivity.
    + vm_compute. intuition discriminate.
    + vm_compute. intuition discriminate.
    + apply Ho; discriminate.
Defined.

(** X1: the result of the normalizer is in lower case and has no white
    space at either end: lowercasing it or trimming it changes nothing,
    with any lowercasing that has what [Lowering] says. *)
Theorem normalizeGmailWith_lowered_trimmed (lower : jsstring -> jsstring)
    (a : jsstring) :
  Lowering lower ->
  lower (normalizeGmailWith lower a) = normalizeGmailWith lower a
  /\ trim (normalizeGmailWith lower a) = normalizeGmailWith lower a.
Proof. intros HL. now apply normalizeWith_lowered_trimmed. Qed.

Lemma normalizeGmailWith_lowered_trimmed_witness :
  toLowerCase (normalizeGmail (str "  Jane.Doe+News@GoogleMail.COM "))
  = normalizeGmail (str "  Jane.Doe+News@GoogleMail.COM ")
  /\ trim (normalizeGmail (str "  Jane.Doe+News@GoogleMail.COM "))
     = normalizeGmail (str "  Jane.Doe+News@GoogleMail.COM ").
Proof.
  exact (normalizeGmailWith_lowered_trimmed toLowerCase
           (str "  Jane.Doe+News@GoogleMail.COM ") basic_latin_lowering).
Defined.

(** X2: the normalizer reads its argument up to letter case and
    surrounding white space: arguments with the same trimmed lowercase
    form have the same result, so lowercasing, trimming or padding the
    argument with white space changes nothing, with any lowercasing
    that has what [Lowering] says. *)
Theorem normalizeGmailWith_ignores_case_and_padding
    (lower : jsstring -> jsstring) :
  Lowering lower ->
  (forall a b, lower (trim a) = lower (trim b) ->
               normalizeGmailWith lower a = normalizeGmailWith lower b)
  /\ (forall a, normalizeGmailWith lower (lower a) = normalizeGmailWith lower a)
  /\ (forall a, normalizeGmailWith lower (trim a) = normalizeGmailWith lower a)
  /\ (forall pre a post,
         Forall (fun c => is_space c = true) pre ->
         Forall (fun c => is_space c = true) post ->
         normalizeGmailWith lower (pre ++ a ++ post)
         = normalizeGmailWith lower a).
Proof.
  intros HL. split; [apply normalizeWith_same_low|]. repeat apply conj.
  - intros a. apply normalizeWith_same_low.
    now rewrite <- (lowering_trim HL), (lowering_idem HL).
  - intros a. apply normalizeWith_same_low. now rewrite trim_idem.
  - intros pre a post Hpre Hpost. apply normalizeWith_same_low.
    now rewrite trim_padding.
Qed.

Lemma normalizeGmailWith_ignores_case_and_padding_witness :
  normalizeGmail (toLowerCase (str "  Jane.Doe+News@GoogleMail.COM "))
  = normalizeGmail (str "  Jane.Doe+News@GoogleMail.COM ")
  /\ normalizeGmail (str "  " ++ str "Jane@Gmail.com" ++ str " ")
     = normalizeGmail (str "Jane@Gmail.com").
Proof.
  destruct (normalizeGmailWith_ignores_case_and_padding toLowerCase
              basic_latin_lowering) as [_ [H1 [_ H3]]].
  split; [apply H1 | apply H3; repeat constructor].
Defined.

(** X3: for an address with a personal-mail domain in any letter case,
    a plus tag in the local part does not count: the address with the
    tag and the address without it have the same result, the
    lowercased local part without leading white space, an at sign and
    the lowercased domain, with any lowercasing that has what
    [Lowering] says. *)
Theorem normalizeGmailWith_plus_tag_ignored (lower : jsstring -> jsstring)
    (l tag d : jsstring) :
  Lowering lower ->
  ~ In c_at l -> ~ In c_plus l -> ~ In c_at tag ->
  lower d = gmail_com \/ lower d = googlemail_com ->
  normalizeGmailWith lower (l ++ [c_plus] ++ tag ++ [c_at] ++ d)
  = normalizeGmailWith lower (l ++ [c_at] ++ d)
  /\ normalizeGmailWith lower (l ++ [c_at] ++ d)
     = dropWhile is_space (lower l) ++ [c_at] ++ lower d.
Proof.
  intros HL Hat Hplus Htag Hd.
  assert (Hplain : normalizeGmailWith lower (l ++ [c_at] ++ d)
                   = dropWhile is_space (lower l) ++ [c_at] ++ lower d)
    by exact (normalizeWith_personal lower HL l [] d Hat Hplus (fun H => H)
                (or_introl eq_refl) Hd).
  split; [|exact Hplain]. rewrite Hplain.
  replace (l ++ [c_plus] ++ tag ++ [c_at] ++ d)
    with (l ++ (c_plus :: tag) ++ [c_at] ++ d) by reflexivity.
  apply (normalizeWith_personal lower HL); auto.
  - intros [H | H]; [discriminate | contradiction].
  - right. now exists tag.
Qed.

Lemma normalizeGmailWith_plus_tag_ignored_witness :
  normalizeGmail (str "Jane+promo.2024@Gmail.com")
  = normalizeGmail (str "Jane@Gmail.com")
  /\ normalizeGmail (str "Jane@Gmail.com") = str "jane@gmail.com".
Proof.
  apply (normalizeGmailWith_plus_tag_ignored toLowerCase (str "Jane")
           (str "promo.2024") (str "Gmail.com") basic_latin_lowering).
  - vm_compute. intuition discriminate.
  - vm_compute. intuition discriminate.
  - vm_compute. intuition discriminate.
  - now left.
Defined.

(* ================================================================== *)
(** * The gateway with the session that can fail *)

Section SessionFacts.

Import GmailClient.

(** The loop returns the first results of the UID list, as many as
    the limit says and one at least. *)
Lemma collect_firstn (w : Imap) (f : EmailFilter) (lim : Z)
    (ordered : list N) :
  forall results,
    Z.of_nat (List.length results) < Z.max 1 lim ->
    collect w f lim results ordered
    = firstn (Z.to_nat (Z.max 1 lim)) (results ++ pushedBy w f ordered).
Proof.
  induction ordered as [|u rest IH]; intros results Hlen; simpl.
  - rewrite app_nil_r, firstn_all2; [reflexivity | lia].
  - destruct (processMessage w f u) as [| |e]; simpl; try (now apply IH).
    destruct (Z.geb_spec (Z.of_nat (List.length (results ++ [e]))) lim)
      as [Hge | Hlt]; rewrite length_app in *; simpl in *.
    + replace (Z.to_nat (Z.max 1 lim))
        with (List.length results + 1)%nat by lia.
      replace (results ++ e :: pushedBy w f rest)
        with ((results ++ [e]) ++ pushedBy w f rest)
        by (now rewrite <- app_assoc).
      rewrite <- (length_app results [e]) at 1.
      now rewrite firstn_app, Nat.sub_diag, firstn_O, app_nil_r, firstn_all.
    + rewrite IH by (rewrite length_app; simpl; lia).
      now rewrite <- app_assoc.
Qed.

Variable s : Session.
Variable now : Z.
Variable f : EmailFilter.

Lemma session_answer (es : list Email) :
  fst (fetchEmailsFull s now f) = Answer es ->
  es = collect (storeOf s) f (limitOf f) [] (orderedUids s now f).
Proof.
  unfold fetchEmailsFull, orderedUids.
  destruct (assertEnv (env s)); [discriminate|].
  destruct (connectError s); [discriminate|].
  destruct (listing s); [|discriminate].
  destruct (negb (existsb _ _)); [discriminate|].
  destruct (negb (opens s _)); [discriminate|].
  destruct (searchUidsFull s now (unreadOf f) (sinceMs f)) as [[err | uids] log];
    [discriminate|].
  simpl. intros H. now injection H as <-.
Qed.

Lemma session_messages (d : N -> Download) (p : list N -> option Parsed) :
  snd (fetchEmailsFull (withMessages s d p) now f)
  = snd (fetchEmailsFull s now f)
  /\ orderedUids (withMessages s d p) now f = orderedUids s now f
  /\ (forall err,
         fst (fetchEmailsFull (withMessages s d p) now f) = Aborted err
         <-> fst (fetchEmailsFull s now f) = Aborted err).
Proof.
  split; [|split; [reflexivity|]].
  - unfold fetchEmailsFull. simpl.
    change (searchUidsFull (withMessages s d p)) with (searchUidsFull s).
    destruct (assertEnv (env s)); [reflexivity|].
    destruct (connectError s); [reflexivity|].
    destruct (listing s); [|reflexivity].
    destruct (negb (existsb _ _)); [reflexivity|].
    destruct (negb (opens s _)); [reflexivity|].
    now destruct (searchUidsFull s now (unreadOf f) (sinceMs f))
      as [[err | uids] log].
  - intros err. unfold fetchEmailsFull. simpl.
    change (searchUidsFull (withMessages s d p)) with (searchUidsFull s).
    destruct (assertEnv (env s)); [reflexivity|].
    destruct (connectError s); [reflexivity|].
    destruct (listing s); [|reflexivity].
    destruct (negb (existsb _ _)); [reflexivity|].
    destruct (negb (opens s _)); [reflexivity|].
    destruct (searchUidsFull s now (unreadOf f) (sinceMs f))
      as [[e | uids] log]; simpl; [reflexivity|].
    split; discriminate.
Qed.

Lemma session_opened_answers :
  assertEnv (env s) = None ->
  connectError s = None ->
  (exists available, listing s = Some available
                     /\ In (mailboxOf f) available) ->
  opens s (mailboxOf f) = true ->
  (forall uids, fst (searchUidsFull s now (unreadOf f) (sinceMs f)) = inr uids ->
     fetchEmailsFull s now f
     = (Answer (collect (storeOf s) f (limitOf f) [] (orderedUids s now f)),
        snd (searchUidsFull s now (unreadOf f) (sinceMs f))))
  /\ (forall err, fst (searchUidsFull s now (unreadOf f) (sinceMs f)) = inl err ->
     fetchEmailsFull s now f
     = (Aborted err, snd (searchUidsFull s now (unreadOf f) (sinceMs f)))).
Proof.
  intros He Hc [available [Hl Hin]] Ho.
  unfold fetchEmailsFull, orderedUids. rewrite He, Hc, Hl, Ho.
  apply existsb_eqb_In in Hin. rewrite Hin. simpl.
  destruct (searchUidsFull s now (unreadOf f) (sinceMs f)) as [[e | u] log];
    simpl; split; intros x Hx; try discriminate; now injection Hx as <-.
Qed.

(** A search that rejects is the last one sent, and the only failure
    of the three attempts. *)
Lemma searchUidsFull_rejected (unread : bool) (since : option Z)
    (err : SessionError) :
  fst (searchUidsFull s now unread since) = inl err ->
  exists q sent,
    err = SearchRejected q /\ searches s q = None
    /\ snd (searchUidsFull s now unread since) = sent ++ [q]
    /\ Forall (fun q' => searches s q' <> None) sent.
Proof.
  unfold searchUidsFull.
  set (q1 := mkQuery (if unread then Some false else None) _).
  set (q2 := mkQuery (if unread then Some false else None) None).
  set (q3 := mkQuery None None).
  destruct (searches s q1) as [r1|] eqn:E1.
  2:{ simpl. intros H. injection H as <-. exists q1, []. repeat split; auto. }
  assert (H1 : searches s q1 <> None) by congruence.
  destruct (isEmpty (asArray r1) && isDate _).
  - destruct (searches s q2) as [r2|] eqn:E2.
    2:{ simpl. intros H. injection H as <-. exists q2, [q1].
        repeat split; auto. }
    assert (H2 : searches s q2 <> None) by congruence.
    destruct (isEmpty _ && unread); [|discriminate].
    destruct (searches s q3) as [r3|] eqn:E3; [discriminate|].
    simpl. intros H. injection H as <-. exists q3, [q1; q2].
    repeat split; auto.
  - destruct (isEmpty _ && unread); [|discriminate].
    destruct (searches s q3) as [r3|] eqn:E3; [discriminate|].
    simpl. intros H. injection H as <-. exists q3, [q1].
    repeat split; auto.
Qed.

(** With no search rejecting, the three attempts are those of
    [searchUids] on the store of the session. *)
Lemma searchUidsFull_refines (unread : bool) (since : option Z) :
  (forall q, searches s q <> None) ->
  searchUidsFull s now unread since
  = (inr (fst (searchUids (storeOf s) now unread since)),
     snd (searchUids (storeOf s) now unread since)).
Proof.
  intros Hs. unfold searchUidsFull, searchUids, storeOf. cbn [search].
  set (q1 := mkQuery (if unread then Some false else None) _).
  set (q2 := mkQuery (if unread then Some false else None) None).
  set (q3 := mkQuery None None).
  destruct (searches s q1) as [r1|] eqn:E1; [|now apply Hs in E1].
  destruct (searches s q2) as [r2|] eqn:E2; [|now apply Hs in E2].
  destruct (searches s q3) as [r3|] eqn:E3; [|now apply Hs in E3].
  destruct (isEmpty (asArray r1) && isDate _); cbn zeta beta iota.
  - destruct (isEmpty _ && unread); reflexivity.
  - destruct (isEmpty _ && unread); reflexivity.
Qed.

End SessionFacts.

(** C9: an exception while downloading or parsing one message does not
    end the query.  Whether the call rejects, with what, and which
    UIDs its loop takes up do not depend on the messages, only on the
    environment, the connection, the mailbox list and the searches.
    When the call answers, the answer is what the loop collects from
    the UIDs: the results of the UIDs in order, throwing ones giving
    none, up to the limit and one at least; it is the same on the UID
    list without the throwing UIDs, taking one throwing UID out
    changes nothing, and with the limit out of reach every UID that
    yields a result has it in the answer.  With the session open and
    no search rejecting the call answers. *)
Theorem per_message_errors_skipped
    (s : Session) (now : Z) (f : GmailClient.EmailFilter) :
  (forall uid, downloads s uid = GmailClient.DownloadThrows ->
               GmailClient.processMessage (storeOf s) f uid
               = GmailClient.Throws)
  /\ (forall uid raw,
         downloads s uid = GmailClient.Content raw ->
         parses s raw = None ->
         GmailClient.processMessage (storeOf s) f uid = GmailClient.Throws)
  /\ (forall d p,
         snd (fetchEmailsFull (withMessages s d p) now f)
         = snd (fetchEmailsFull s now f)
         /\ orderedUids (withMessages s d p) now f = orderedUids s now f
         /\ (forall err,
                fst (fetchEmailsFull (withMessages s d p) now f) = Aborted err
                <-> fst (fetchEmailsFull s now f) = Aborted err))
  /\ (forall es,
         fst (fetchEmailsFull s now f) = Answer es ->
         es = GmailClient.collect (storeOf s) f (limitOf f) []
                (orderedUids s now f)
         /\ es = firstn (Z.to_nat (Z.max 1 (limitOf f)))
                   (pushedBy (storeOf s) f (orderedUids s now f))
         /\ es = GmailClient.collect (storeOf s) f (limitOf f) []
                   (filter (fun uid => negb (throwsOn (storeOf s) f uid))
                           (orderedUids s now f))
         /\ (forall pre bad post,
                orderedUids s now f = pre ++ bad :: post ->
                GmailClient.processMessage (storeOf s) f bad
                = GmailClient.Throws ->
                es = firstn (Z.to_nat (Z.max 1 (limitOf f)))
                       (pushedBy (storeOf s) f pre
                        ++ pushedBy (storeOf s) f post))
         /\ (Z.of_nat (List.length (orderedUids s now f)) < limitOf f ->
             forall uid e,
               In uid (orderedUids s now f) ->
               GmailClient.processMessage (storeOf s) f uid
               = GmailClient.Pushes e ->
               In e es))
  /\ (assertEnv (env s) = None ->
      connectError s = None ->
      (exists available, listing s = Some available
                         /\ In (mailboxOf f) available) ->
      opens s (mailboxOf f) = true ->
      (forall q, searches s q <> None) ->
      fst (fetchEmailsFull s now f)
      = Answer (firstn (Z.to_nat (Z.max 1 (limitOf f)))
                  (pushedBy (storeOf s) f (orderedUids s now f)))).
Proof.
  split; [|split; [|split; [|split]]].
  - intros uid H. unfold GmailClient.processMessage, storeOf. simpl.
    now rewrite H.
  - intros uid raw H1 H2. unfold GmailClient.processMessage, storeOf. simpl.
    now rewrite H1, H2.
  - intros d p. apply session_messages.
  - intros es Hes. apply session_answer in Hes.
    assert (Hfirst : es = firstn (Z.to_nat (Z.max 1 (limitOf f)))
                            (pushedBy (storeOf s) f (orderedUids s now f))).
    { rewrite Hes. rewrite collect_firstn by (simpl; lia). reflexivity. }
    split; [exact Hes|]. split; [exact Hfirst|].
    split; [rewrite Hes; apply collect_skips_throwing|]. split.
    + intros pre bad post E Hbad. rewrite Hfirst, E. f_equal.
      unfold pushedBy. rewrite flat_map_app. simpl. now rewrite Hbad.
    + intros Hlen uid e Hin Hp. rewrite Hes.
      rewrite collect_below_limit by (simpl; lia). simpl.
      unfold pushedBy. apply in_flat_map. exists uid.
      split; [exact Hin|]. rewrite Hp. now left.
  - intros He Hc Hl Ho Hs.
    destruct (session_opened_answers s now f He Hc Hl Ho) as [Hok _].
    rewrite (searchUidsFull_refines s now _ _ Hs) in Hok.
    rewrite (Hok _ eq_refl). simpl. f_equal.
    apply collect_firstn. simpl. lia.
Qed.

Lemma per_message_errors_skipped_witness :
  let parsed := GmailClient.mkParsed
                  (Some (str "noreply@example.com")) (Some (str "Please verify"))
                  (Some (str "see https://example.com/verify/1")) None
                  (Some (str "jane@gmail.com")) (Some [Some (str "jane@gmail.com")])
                  (Some 1700000000000) in
  let s := mkSession (fun _ => Some (str "x")) None (Some [str "INBOX"])
             (fun _ => true) (fun _ => Some (Some [1; 2; 3]%N))
             (fun uid => if (uid =? 2)%N then GmailClient.DownloadThrows
                         else GmailClient.Content [uid])
             (fun raw => match raw with
                         | [1%N] => None
                         | _ => Some parsed
                         end) in
  let f := GmailClient.mkFilter None None None (Some (str "verify")) None None
             None None None None in
  GmailClient.processMessage (storeOf s) f 2 = GmailClient.Throws
  /\ GmailClient.processMessage (storeOf s) f 1 = GmailClient.Throws
  /\ orderedUids s 1700000000000 f = [3; 2; 1]%N
  /\ map uid (firstn 20 (pushedBy (storeOf s) f [3; 2; 1]%N)) = [3%N]
  /\ fst (fetchEmailsFull s 1700000000000 f)
     = Answer (firstn 20 (pushedBy (storeOf s) f [3; 2; 1]%N)).
Proof.
  intros parsed s f.
  destruct (per_message_errors_skipped s 1700000000000 f)
    as [H1 [H2 [_ [_ H5]]]].
  split; [apply H1; reflexivity|].
  split; [apply (H2 1%N [1%N]); reflexivity|].
  split; [reflexivity|]. split; [reflexivity|].
  apply H5; try reflexivity.
  - exists [str "INBOX"]. split; [reflexivity | now left].
  - discriminate.
Defined.

(** The ways a call of [fetchEmails] ends, in the order the code tries
    them: a missing environment variable, a rejected connection, a
    rejected mailbox list, a mailbox that is not listed (compared
    exactly), a mailbox that does not open, each before any search is
    sent; a rejected search, which is the last one sent; otherwise
    the answer of the per-message loop.  With the environment set, the
    list and the opening going through and no search rejecting, the
    call is [GmailClient.fetchEmails] on the store of the session.
    The message of a failed connect holds the message of the
    rejection, the message for a missing mailbox names the mailbox in
    quotes and the listed paths; a rejection of the mailbox list, of
    the opening or of a search goes through as the library made it. *)
Theorem session_failure_modes
    (s : Session) (now : Z) (f : GmailClient.EmailFilter) :
  (forall message,
      assertEnv (env s) = Some message ->
      fetchEmailsFull s now f = (Aborted (MissingEnv message), []))
  /\ (assertEnv (env s) = None ->
      (forall message,
          connectError s = Some message ->
          fetchEmailsFull s now f = (Aborted (ConnectRejected message), []))
      /\ (connectError s = None ->
          (listing s = None ->
           fetchEmailsFull s now f = (Aborted ListRejected, []))
          /\ (forall available,
                 listing s = Some available ->
                 (~ In (mailboxOf f) available ->
                  fetchEmailsFull s now f
                  = (Aborted (NoSuchMailbox (mailboxOf f) available), []))
                 /\ (In (mailboxOf f) available ->
                     (opens s (mailboxOf f) = false ->
                      fetchEmailsFull s now f
                      = (Aborted (OpenRejected (mailboxOf f)), []))
                     /\ (opens s (mailboxOf f) = true ->
                         (forall err,
                             fst (searchUidsFull s now (unreadOf f)
                                    (GmailClient.sinceMs f)) = inl err ->
                             fetchEmailsFull s now f
                             = (Aborted err,
                                snd (searchUidsFull s now (unreadOf f)
                                       (GmailClient.sinceMs f)))
                             /\ exists q sent,
                                  err = SearchRejected q
                                  /\ searches s q = None
                                  /\ snd (searchUidsFull s now (unreadOf f)
                                            (GmailClient.sinceMs f))
                                     = sent ++ [q]
                                  /\ Forall (fun q' => searches s q' <> None)
                                            sent)
                         /\ (forall uids,
                                fst (searchUidsFull s now (unreadOf f)
                                       (GmailClient.sinceMs f)) = inr uids ->
                                fetchEmailsFull s now f
                                = (Answer
                                     (GmailClient.collect (storeOf s) f
                                        (limitOf f) [] (orderedUids s now f)),
                                   snd (searchUidsFull s now (unreadOf f)
                                          (GmailClient.sinceMs f)))))))))
  /\ (assertEnv (env s) = None ->
      listing s <> None ->
      opens s (mailboxOf f) = true ->
      (forall q, searches s q <> None) ->
      snd (GmailClient.fetchEmails (storeOf s) now f)
      = snd (fetchEmailsFull s now f)
      /\ fst (GmailClient.fetchEmails (storeOf s) now f)
         = match fst (fetchEmailsFull s now f) with
           | Answer es => GmailClient.Emails es
           | Aborted (NoSuchMailbox name _) =>
               GmailClient.Failed (GmailClient.MailboxMissing name)
           | Aborted _ => GmailClient.Failed GmailClient.ConnectFailed
           end)
  /\ (forall err,
         fst (fetchEmailsFull s now f) = Aborted err ->
         match err with
         | MissingEnv message => thrownMessage err = assertEnv (env s)
         | ConnectRejected message =>
             connectError s = Some message
             /\ exists text, thrownMessage err = Some text
                             /\ includes text message = true
         | NoSuchMailbox name available =>
             name = mailboxOf f /\ listing s = Some available
             /\ exists text,
                  thrownMessage err = Some text
                  /\ includes text ([c_dquote] ++ name ++ [c_dquote]) = true
                  /\ includes text (join (str ", ") available) = true
         | ListRejected | OpenRejected _ | SearchRejected _ =>
             thrownMessage err = None
         end).
Proof.
  split; [|split; [|split]]; cycle 3.
  { intros err. unfold fetchEmailsFull.
    destruct (assertEnv (env s)) as [message|] eqn:He.
    { simpl. intros H. injection H as <-. reflexivity. }
    destruct (connectError s) as [message|] eqn:Hc.
    { simpl. intros H. injection H as <-. split; [reflexivity|].
      eexists. split; [reflexivity|]. apply includes_mid. }
    destruct (listing s) as [available|] eqn:Hl.
    2:{ simpl. intros H. now injection H as <-. }
    destruct (negb (existsb _ _)).
    { simpl. intros H. injection H as <-. split; [reflexivity|].
      split; [reflexivity|]. eexists. split; [reflexivity|]. split.
      - rewrite app_assoc.
        replace (((str "Mailbox " ++ [c_dquote]) ++ mailboxOf f ++ [c_dquote]
                  ++ str " does not exist. Available: "
                  ++ join (str ", ") available))
          with (str "Mailbox " ++ ([c_dquote] ++ mailboxOf f ++ [c_dquote])
                ++ str " does not exist. Available: "
                ++ join (str ", ") available)
          by (now rewrite <- !app_assoc).
        apply includes_mid.
      - apply includes_spec.
        exists (str "Mailbox " ++ [c_dquote] ++ mailboxOf f ++ [c_dquote]
                ++ str " does not exist. Available: "), [].
        now rewrite app_nil_r, <- !app_assoc. }
    destruct (negb (opens s _)).
    { simpl. intros H. now injection H as <-. }
    destruct (searchUidsFull s now (unreadOf f) (GmailClient.sinceMs f))
      as [[e | uids] log] eqn:Es; [|discriminate].
    simpl. intros H. injection H as <-.
    destruct (searchUidsFull_rejected s now (unreadOf f)
                (GmailClient.sinceMs f) e) as [q [sent [-> _]]];
      [now rewrite Es | reflexivity]. }
  - intros message H. unfold fetchEmailsFull. now rewrite H.
  - intros He. split.
    + intros message H. unfold fetchEmailsFull. now rewrite He, H.
    + intros Hc. split.
      * intros H. unfold fetchEmailsFull. now rewrite He, Hc, H.
      * intros available Hl. split.
        -- intros Hin. unfold fetchEmailsFull. rewrite He, Hc, Hl.
           destruct (existsb (eqb_str (mailboxOf f)) available) eqn:E;
             [|reflexivity].
           now apply existsb_eqb_In in E.
        -- intros Hin. pose proof Hin as Hex.
           apply existsb_eqb_In in Hex. split.
           ++ intros Ho. unfold fetchEmailsFull.
              now rewrite He, Hc, Hl, Hex, Ho.
           ++ intros Ho.
              destruct (session_opened_answers s now f He Hc
                          (ex_intro _ available (conj Hl Hin)) Ho)
                as [Hok Hbad].
              split.
              ** intros err Herr. split; [now apply Hbad|].
                 now apply searchUidsFull_rejected.
              ** exact Hok.
  - intros He Hl Ho Hs.
    unfold GmailClient.fetchEmails, fetchEmailsFull.
    fold (mailboxOf f) (unreadOf f) (limitOf f) (newestFirstOf f).
    rewrite He, (searchUidsFull_refines s now _ _ Hs).
    change (GmailClient.connects (storeOf s))
      with (match connectError s with None => true | Some _ => false end).
    change (GmailClient.paths (storeOf s))
      with (match listing s with Some l => l | None => [] end).
    destruct (connectError s) as [message|]; [split; reflexivity|].
    destruct (listing s) as [available|]; [|contradiction].
    cbn [negb]. cbv iota.
    destruct (existsb (eqb_str (mailboxOf f)) available);
      cbn [negb]; cbv iota; [|split; reflexivity].
    rewrite Ho. cbn [negb]. cbv iota.
    destruct (GmailClient.searchUids (storeOf s) now (unreadOf f)
                (GmailClient.sinceMs f)) as [uids log].
    split; reflexivity.
Qed.

Lemma session_failure_modes_witness :
  let s := mkSession (fun _ => Some (str "x")) None (Some [str "INBOX"])
             (fun _ => true)
             (fun q => match GmailClient.since q with
                       | Some _ => Some None
                       | None => None
                       end)
             (fun _ => GmailClient.NoContent) (fun _ => None) in
  let f := GmailClient.mkFilter None None None None None (Some 60000)
             None None None None in
  fetchEmailsFull s 1700000000000 f
  = (Aborted (SearchRejected (GmailClient.mkQuery None None)),
     [GmailClient.mkQuery None (Some 1699999940000);
      GmailClient.mkQuery None None])
  /\ fetchEmailsFull s 1700000000000
       (GmailClient.mkFilter (Some (str "inbox")) None None None None None
          None None None None)
     = (Aborted (NoSuchMailbox (str "inbox") [str "INBOX"]), []).
Proof.
  intros s f. split.
  - destruct (session_failure_modes s 1700000000000 f) as [_ [H _]].
    destruct (H eq_refl) as [_ H1]. destruct (H1 eq_refl) as [_ H2].
    destruct (H2 [str "INBOX"] eq_refl) as [_ H3].
    destruct (H3 (or_introl eq_refl)) as [_ H4].
    destruct (H4 eq_refl) as [H5 _].
    destruct (H5 (SearchRejected (GmailClient.mkQuery None None)) eq_refl)
      as [H6 _].
    exact H6.
  - destruct (session_failure_modes s 1700000000000
                (GmailClient.mkFilter (Some (str "inbox")) None None None
                   None None None None None None)) as [_ [H _]].
    destruct (H eq_refl) as [_ H1]. destruct (H1 eq_refl) as [_ H2].
    destruct (H2 [str "INBOX"] eq_refl) as [H3 _].
    apply H3. vm_compute. intuition discriminate.
Defined.
